(** * Numeric codec of [lib/utils/encoding.js]

    A shallow embedding of the fixed-width 64-bit readers and writers and of
    the two variable-length integer codecs, followed by the properties of the
    specification that were checked against them.

    Conventions of the embedding.
    - A JavaScript number is a [Z].  Every native-path value the theorems
      speak about is an integer of magnitude at most 2^53, where double
      arithmetic is exact; NaN, infinities and fractions are outside the
      model.
    - A [Buffer] is a [list byte]; an indexed store [dst[i] = v] keeps the
      low eight bits of [v] and is dropped when [i] is not an index of the
      buffer (typed-array semantics), which is what stdpp's list insert does.
    - [assert] throws.  The source has one exception type; the embedding
      tags each assertion with the fault kind of the specification:
      assertions that compare an offset or a size with [data.length] are
      [BoundsFault], assertions on a decoded or encoded value are
      [RangeFault].
    - A [BN] returned fresh by a decoder is modelled by its value; a [BN]
      received as an argument is a reference into a heap of big integers,
      because the in-place methods ([iushrn], [isubn], ...) act on the
      caller's object. *)

From Stdlib Require Import ZArith Lia.
From Stdlib.Strings Require Import Byte.
From stdpp Require Import base option list.

Local Open Scope Z_scope.

(** ** Bytes and buffers *)

Abbreviation buffer := (list byte) (only parsing).

Definition u8 (b : byte) : Z := Z.of_N (Byte.to_N b).

(** Storing a number into a byte cell keeps it modulo 256. *)
Definition to_u8 (z : Z) : byte :=
  match Byte.of_N (Z.to_N (z mod 256)) with
  | Some b => b
  | None => x00
  end.

(** [data[i]] used as an operand: an absent cell is [undefined], which the
    bitwise operators read as 0.  Every other use in the source is guarded
    by an assertion on [data.length]. *)
Definition buf_at (data : buffer) (i : nat) : Z :=
  match data !! i with
  | Some b => u8 b
  | None => 0
  end.

(** [dst[i] = v]. *)
Definition buf_set (dst : buffer) (i : nat) (v : Z) : buffer :=
  <[i := to_u8 v]> dst.

(** [dst[off++] = v0; dst[off++] = v1; ...] *)
Fixpoint write_seq (dst : buffer) (off : nat) (vs : list Z) : buffer * nat :=
  match vs with
  | [] => (dst, off)
  | v :: vs' => write_seq (buf_set dst off v) (S off) vs'
  end.

(** ** 32-bit integer operators of JavaScript *)

Definition ToUint32 (z : Z) : Z := z mod 2 ^ 32.

Definition ToInt32 (z : Z) : Z :=
  let u := z mod 2 ^ 32 in
  if u <? 2 ^ 31 then u else u - 2 ^ 32.

Definition js_and (a b : Z) : Z := Z.land (ToInt32 a) (ToInt32 b).
Definition js_or (a b : Z) : Z := Z.lor (ToInt32 a) (ToInt32 b).
Definition js_not (a : Z) : Z := Z.lnot (ToInt32 a).
Definition js_shl (a n : Z) : Z := ToInt32 (Z.shiftl (ToInt32 a) (n mod 32)).
Definition js_shr (a n : Z) : Z := Z.shiftr (ToInt32 a) (n mod 32).
Definition js_ushr (a n : Z) : Z := Z.shiftr (ToUint32 a) (n mod 32).

(** ** Outcomes *)

Inductive fault := BoundsFault | RangeFault.

Inductive result (A : Type) : Type :=
| Ok (a : A)
| Throw (f : fault)
| Unspecified
| OutOfFuel.

Arguments Ok {A} a.
Arguments Throw {A} f.
Arguments Unspecified {A}.
Arguments OutOfFuel {A}.

Definition bind {A B} (r : result A) (k : A -> result B) : result B :=
  match r with
  | Ok a => k a
  | Throw f => Throw f
  | Unspecified => Unspecified
  | OutOfFuel => OutOfFuel
  end.

Definition assert (c : bool) (f : fault) : result unit :=
  if c then Ok tt else Throw f.

Declare Scope js_scope.
Delimit Scope js_scope with js.
Notation "x <- e ;; k" := (bind e (fun x => k))
  (at level 62, e at next level, right associativity) : js_scope.
Notation "e ;;; k" := (bind e (fun _ => k))
  (at level 62, right associativity) : js_scope.
Local Open Scope js_scope.

(** The decoded varint: [new Varint(size, value)]. *)
Record Varint := mkVarint { size : nat; value : Z }.

Definition MAX_SAFE_INTEGER : Z := 0x1fffffffffffff.

(** ** Fixed-width accessors of [Buffer]

    [data.readUInt32LE(off, true)] and [data.readUInt32BE(off, true)]: the
    unsigned 32-bit value of four bytes.  With [noAssert] set the accessor
    does no bounds check and Node leaves a read past the end undefined:
    [Unspecified]. *)

Definition readUInt32LE (data : buffer) (off : nat) : result Z :=
  match data !! off, data !! (off + 1)%nat, data !! (off + 2)%nat, data !! (off + 3)%nat with
  | Some b0, Some b1, Some b2, Some b3 =>
      Ok (u8 b0 + u8 b1 * 2 ^ 8 + u8 b2 * 2 ^ 16 + u8 b3 * 2 ^ 24)
  | _, _, _, _ => Unspecified
  end.

Definition readUInt32BE (data : buffer) (off : nat) : result Z :=
  match data !! off, data !! (off + 1)%nat, data !! (off + 2)%nat, data !! (off + 3)%nat with
  | Some b0, Some b1, Some b2, Some b3 =>
      Ok (u8 b0 * 2 ^ 24 + u8 b1 * 2 ^ 16 + u8 b2 * 2 ^ 8 + u8 b3)
  | _, _, _, _ => Unspecified
  end.

(** ** Fixed64: native readers *)

Definition _readU64 (data : buffer) (off : nat) (force53 be : bool) : result Z :=
  hl <- (if be then
           hi <- readUInt32BE data off ;;
           lo <- readUInt32BE data (off + 4)%nat ;;
           Ok (hi, lo)
         else
           hi <- readUInt32LE data (off + 4)%nat ;;
           lo <- readUInt32LE data off ;;
           Ok (hi, lo)) ;;
  let hi := fst hl in
  let lo := snd hl in
  let hi := if force53 then js_and hi 0x1fffff else hi in
  assert (js_and hi 0xffe00000 =? 0) RangeFault ;;;
  Ok (hi * 0x100000000 + lo).

Definition readU64 (data : buffer) (off : nat) : result Z :=
  _readU64 data off false false.

Definition readU64BE (data : buffer) (off : nat) : result Z :=
  _readU64 data off false true.

Definition readU53 (data : buffer) (off : nat) : result Z :=
  _readU64 data off true false.

Definition readU53BE (data : buffer) (off : nat) : result Z :=
  _readU64 data off true true.

Definition _read64 (data : buffer) (off : nat) (force53 be : bool) : result Z :=
  hl <- (if be then
           hi <- readUInt32BE data off ;;
           lo <- readUInt32BE data (off + 4)%nat ;;
           Ok (hi, lo)
         else
           hi <- readUInt32LE data (off + 4)%nat ;;
           lo <- readUInt32LE data off ;;
           Ok (hi, lo)) ;;
  let hi := fst hl in
  let lo := snd hl in
  if negb (js_and hi 0x80000000 =? 0) then
    let hi := ToUint32 (js_not hi) in
    let lo := ToUint32 (js_not lo) in
    let hi := if force53 then js_and hi 0x1fffff else hi in
    assert (js_and hi 0xffe00000 =? 0) RangeFault ;;;
    Ok (- (hi * 0x100000000 + lo + 1))
  else
    let hi := if force53 then js_and hi 0x1fffff else hi in
    assert (js_and hi 0xffe00000 =? 0) RangeFault ;;;
    Ok (hi * 0x100000000 + lo).

Definition read64 (data : buffer) (off : nat) : result Z :=
  _read64 data off false false.

Definition read64BE (data : buffer) (off : nat) : result Z :=
  _read64 data off false true.

Definition read53 (data : buffer) (off : nat) : result Z :=
  _read64 data off true false.

Definition read53BE (data : buffer) (off : nat) : result Z :=
  _read64 data off true true.

(** ** Fixed64: native writers

    A writer returns its outcome together with the buffer as the call
    leaves it. *)

Definition _write64 (dst : buffer) (num : Z) (off : nat) (be : bool)
  : result nat * buffer :=
  let negative := num <? 0 in
  let num := if negative then - num - 1 else num in
  if negb (num <=? MAX_SAFE_INTEGER) then (Throw RangeFault, dst) else
  let lo := Z.rem num 0x100000000 in
  let hi := (num - lo) / 0x100000000 in
  let hi := if negative then ToUint32 (js_not hi) else hi in
  let lo := if negative then ToUint32 (js_not lo) else lo in
  let '(dst, off) :=
    if be then
      write_seq dst off
        [ js_ushr hi 24; js_and (js_shr hi 16) 0xff;
          js_and (js_shr hi 8) 0xff; js_and hi 0xff;
          js_ushr lo 24; js_and (js_shr lo 16) 0xff;
          js_and (js_shr lo 8) 0xff; js_and lo 0xff ]
    else
      write_seq dst off
        [ js_and lo 0xff; js_and (js_shr lo 8) 0xff;
          js_and (js_shr lo 16) 0xff; js_ushr lo 24;
          js_and hi 0xff; js_and (js_shr hi 8) 0xff;
          js_and (js_shr hi 16) 0xff; js_ushr hi 24 ]
  in (Ok off, dst).

Definition writeU64 (dst : buffer) (num : Z) (off : nat) : result nat * buffer :=
  _write64 dst num off false.

Definition writeU64BE (dst : buffer) (num : Z) (off : nat) : result nat * buffer :=
  _write64 dst num off true.

Definition write64 (dst : buffer) (num : Z) (off : nat) : result nat * buffer :=
  _write64 dst num off false.

Definition write64BE (dst : buffer) (num : Z) (off : nat) : result nat * buffer :=
  _write64 dst num off true.

(** ** Varint-A: compact-size encoding, native path *)

Definition readVarint (data : buffer) (off : nat) : result Varint :=
  assert (off <? length data)%nat BoundsFault ;;;
  let tag := buf_at data off in
  if tag =? 0xff then
    let size := 9%nat in
    assert (off + size <=? length data)%nat BoundsFault ;;;
    value <- readU64 data (off + 1)%nat ;;
    assert (0xffffffff <? value) RangeFault ;;;
    Ok (mkVarint size value)
  else if tag =? 0xfe then
    let size := 5%nat in
    assert (off + size <=? length data)%nat BoundsFault ;;;
    value <- readUInt32LE data (off + 1)%nat ;;
    assert (0xffff <? value) RangeFault ;;;
    Ok (mkVarint size value)
  else if tag =? 0xfd then
    let size := 3%nat in
    assert (off + size <=? length data)%nat BoundsFault ;;;
    let value :=
      js_or (buf_at data (off + 1)%nat) (js_shl (buf_at data (off + 2)%nat) 8) in
    assert (0xfd <=? value) RangeFault ;;;
    Ok (mkVarint size value)
  else
    let size := 1%nat in
    let value := buf_at data off in
    Ok (mkVarint size value).

Definition writeVarint (dst : buffer) (num : Z) (off : nat) : result nat * buffer :=
  if num <? 0xfd then
    let '(dst, off) := write_seq dst off [ js_and num 0xff ] in
    (Ok off, dst)
  else if num <=? 0xffff then
    let '(dst, off) :=
      write_seq dst off [ 0xfd; js_and num 0xff; js_and (js_shr num 8) 0xff ] in
    (Ok off, dst)
  else if num <=? 0xffffffff then
    let '(dst, off) :=
      write_seq dst off
        [ 0xfe; js_and num 0xff; js_and (js_shr num 8) 0xff;
          js_and (js_shr num 16) 0xff; js_ushr num 24 ] in
    (Ok off, dst)
  else
    let '(dst, off) := write_seq dst off [ 0xff ] in
    writeU64 dst num off.

Definition skipVarint (data : buffer) (off : nat) : result nat :=
  assert (off <? length data)%nat BoundsFault ;;;
  let tag := buf_at data off in
  if tag =? 0xff then Ok 9%nat
  else if tag =? 0xfe then Ok 5%nat
  else if tag =? 0xfd then Ok 3%nat
  else Ok 1%nat.

Definition sizeVarint (num : Z) : nat :=
  if num <? 0xfd then 1
  else if num <=? 0xffff then 3
  else if num <=? 0xffffffff then 5
  else 9.

(** ** Big integers

    [bitLength] of a [BN]: the number of bits of the magnitude. *)

Definition bitLength (v : Z) : Z :=
  if v =? 0 then 0 else Z.log2 (Z.abs v) + 1.

(** [new BN(bytes, 'le')]: the unsigned little-endian value of the bytes. *)
Fixpoint le_value (bs : list byte) : Z :=
  match bs with
  | [] => 0
  | b :: bs' => u8 b + 256 * le_value bs'
  end.

(** [data.slice(off, off + 8)] is clamped to the buffer. *)
Definition readU64BN (data : buffer) (off : nat) : Z :=
  let num := take 8 (drop off data) in
  le_value num.

(** ** Varint-A, big-integer decoder *)

Definition readVarintBN (data : buffer) (off : nat) : result Varint :=
  assert (off <? length data)%nat BoundsFault ;;;
  let tag := buf_at data off in
  if tag =? 0xff then
    let size := 9%nat in
    assert (off + size <=? length data)%nat BoundsFault ;;;
    let value := readU64BN data (off + 1)%nat in
    assert (32 <? bitLength value) RangeFault ;;;
    Ok (mkVarint size value)
  else
    result <- readVarint data off ;;
    Ok (mkVarint (size result) (value result)).

(** ** Varint-B: continuation-bit encoding, native path

    The decoding loops walk the buffer from [off]; they are written over
    the bytes from [off] on, [drop off data], whose head is [data[off]] and
    which is empty exactly when [off < data.length] fails. *)

Fixpoint readVarint2_loop (rest : list byte) (num : Z) (size : nat)
  : result Varint :=
  match rest with
  | [] => Throw BoundsFault
  | b :: rest' =>
      let ch := u8 b in
      let size := S size in
      assert (num <? 0x3fffffffffff) RangeFault ;;;
      let num := num * 0x80 + js_and ch 0x7f in
      if js_and ch 0x80 =? 0 then Ok (mkVarint size num)
      else readVarint2_loop rest' (num + 1) size
  end.

Definition readVarint2 (data : buffer) (off : nat) : result Varint :=
  readVarint2_loop (drop off data) 0 0%nat.

(** [tmp[i] = x] on a JavaScript array: the array grows to hold index [i]. *)
Definition arr_set (tmp : list Z) (i : nat) (x : Z) : list Z :=
  if (i <? length tmp)%nat then <[i := x]> tmp
  else tmp ++ replicate (i - length tmp) 0 ++ [x].

(** The digit loop of [writeVarint2] divides [num] by 128 on every turn
    that does not leave it; [loop_fuel] turns are always enough
    ([writeVarint2_digits_total]).

    [num] is a double in the source.  The recurrence
    [((num - (num % 0x80)) / 0x80) - 1] is written here over the integers,
    which is what the double computes as long as the magnitude of [num] is
    at most 2^53; above, the subtraction of 1 may round.  The statements
    about [writeVarint2] and [sizeVarint2] stay within that range. *)
Definition loop_fuel (num : Z) : nat := S (Z.to_nat (Z.log2 num)).

Fixpoint writeVarint2_digits (fuel : nat) (tmp : list Z) (len : nat) (num : Z)
  : option (list Z * nat) :=
  match fuel with
  | O => None
  | S fuel' =>
      let tmp :=
        arr_set tmp len
          (js_or (js_and num 0x7f) (match len with O => 0x00 | S _ => 0x80 end)) in
      if num <=? 0x7f then Some (tmp, len)
      else
        writeVarint2_digits fuel' tmp (S len)
          ((num - Z.rem num 0x80) / 0x80 - 1)
  end.

(** [do { dst[off++] = tmp[len]; } while (len--);] *)
Fixpoint emit_digits (dst : buffer) (off : nat) (tmp : list Z) (len : nat)
  : buffer * nat :=
  let dst := buf_set dst off (nth len tmp 0) in
  let off := S off in
  match len with
  | O => (dst, off)
  | S len' => emit_digits dst off tmp len'
  end.

(** [off] is [None] when the caller leaves the third argument out: it is
    then [undefined], [off + len] is NaN and the comparison with
    [dst.length] is false. *)
Definition writeVarint2 (dst : buffer) (num : Z) (off : option nat)
  : result nat * buffer :=
  match writeVarint2_digits (loop_fuel num) [] 0%nat num with
  | None => (OutOfFuel, dst)
  | Some (tmp, len) =>
      match off with
      | None => (Throw BoundsFault, dst)
      | Some off =>
          if negb (off + len <=? length dst)%nat then (Throw BoundsFault, dst)
          else
            let '(dst, off) := emit_digits dst off tmp len in
            (Ok off, dst)
      end
  end.

Fixpoint skipVarint2_loop (rest : list byte) (size : nat) : result nat :=
  match rest with
  | [] => Throw BoundsFault
  | b :: rest' =>
      let ch := u8 b in
      let size := S size in
      if js_and ch 0x80 =? 0 then Ok size
      else skipVarint2_loop rest' size
  end.

Definition skipVarint2 (data : buffer) (off : nat) : result nat :=
  skipVarint2_loop (drop off data) 0%nat.

Fixpoint sizeVarint2_loop (fuel : nat) (size : nat) (num : Z) : result nat :=
  match fuel with
  | O => OutOfFuel
  | S fuel' =>
      let size := S size in
      if num <=? 0x7f then Ok size
      else sizeVarint2_loop fuel' size ((num - Z.rem num 0x80) / 0x80 - 1)
  end.

Definition sizeVarint2 (num : Z) : result nat :=
  sizeVarint2_loop (loop_fuel num) 0%nat num.

(** ** Varint-B, big-integer decoder

    The accumulator becomes a fresh [BN] once it leaves the native loop;
    [iushln(7)] and [iaddn] then act on that private object. *)

Fixpoint readVarint2BN_big (rest : list byte) (num : Z) (size : nat)
  : result Varint :=
  match rest with
  | [] => Throw BoundsFault
  | b :: rest' =>
      let ch := u8 b in
      let size := S size in
      assert (bitLength num <=? 64) RangeFault ;;;
      let num := Z.shiftl num 7 + js_and ch 0x7f in
      if js_and ch 0x80 =? 0 then Ok (mkVarint size num)
      else readVarint2BN_big rest' (num + 1) size
  end.

Fixpoint readVarint2BN_loop (rest : list byte) (num : Z) (size : nat)
  {struct rest} : result Varint :=
  if num <? 0x3fffffffffff then
    match rest with
    | [] => Throw BoundsFault
    | b :: rest' =>
        let ch := u8 b in
        let size := S size in
        let num := num * 0x80 + js_and ch 0x7f in
        if js_and ch 0x80 =? 0 then Ok (mkVarint size num)
        else readVarint2BN_loop rest' (num + 1) size
    end
  else readVarint2BN_big rest num size.

Definition readVarint2BN (data : buffer) (off : nat) : result Varint :=
  readVarint2BN_loop (drop off data) 0 0%nat.

(** ** Big integers received as arguments

    A [BN] argument is an object: methods with an [i] prefix update it in
    place, the others return a new object.  [heap] holds the value of every
    live object, a [bn] is an index into it. *)

Abbreviation heap := (list Z) (only parsing).
Abbreviation bn := nat (only parsing).

Definition bn_value (h : heap) (r : bn) : Z :=
  match h !! r with
  | Some v => v
  | None => 0
  end.

Definition bn_new (h : heap) (v : Z) : heap * bn := (h ++ [v], length h).

Definition bn_bitLength (h : heap) (r : bn) : Z := bitLength (bn_value h r).

(** [toNumber()], called in the source only below 54 bits. *)
Definition bn_toNumber (h : heap) (r : bn) : Z := bn_value h r.

Definition bn_isNeg (h : heap) (r : bn) : bool := bn_value h r <? 0.

(** [cmpn(k)]: -1, 0 or 1. *)
Definition bn_cmpn (h : heap) (r : bn) (k : Z) : Z :=
  match bn_value h r ?= k with
  | Lt => -1
  | Eq => 0
  | Gt => 1
  end.

(** [words[0]]: the low 26 bits of the magnitude. *)
Definition bn_word0 (h : heap) (r : bn) : Z := Z.abs (bn_value h r) mod 2 ^ 26.

Definition bn_clone (h : heap) (r : bn) : heap * bn := bn_new h (bn_value h r).

Definition bn_neg (h : heap) (r : bn) : heap * bn := bn_new h (- bn_value h r).

(** [iushrn(bits)] shifts the magnitude and keeps the sign. *)
Definition bn_iushrn (h : heap) (r : bn) (bits : Z) : heap :=
  let v := bn_value h r in
  <[r := Z.sgn v * Z.shiftr (Z.abs v) bits]> h.

Definition bn_isubn (h : heap) (r : bn) (k : Z) : heap :=
  <[r := bn_value h r - k]> h.

Definition bn_iaddn (h : heap) (r : bn) (k : Z) : heap :=
  <[r := bn_value h r + k]> h.

(** [inotn(width)] flips the low [width] bits of the magnitude; the source
    calls it on magnitudes below [2 ^ width] only. *)
Definition bn_inotn (h : heap) (r : bn) (width : Z) : heap :=
  let v := bn_value h r in
  let m := Z.abs v in
  let m' := Z.lxor m (Z.ones width) in
  <[r := if v <? 0 then - m' else m']> h.

Definition U64_MAX : Z := 0xffffffffffffffff.

(** Number of 26-bit words of a [BN]. *)
Definition bn_words (v : Z) : Z := Z.max 1 ((bitLength v + 25) / 26).

(** [uand(k)] for a constant [k]:
    [if (this.length > num.length) return this.clone().iuand(num);
     return num.clone().iuand(this);]
    a new object holding the bitwise and of the magnitudes; it is a clone
    of the operand with more words (of the argument [k] on a tie) and keeps
    that operand's sign. *)
Definition bn_uand (h : heap) (r : bn) (k : Z) : heap * bn :=
  let v := bn_value h r in
  let m := Z.land (Z.abs v) (Z.abs k) in
  let negative := if bn_words k <? bn_words v then v <? 0 else k <? 0 in
  bn_new h (if negative then - m else m).

(** [toArray(endian, 8)]: the eight bytes of the magnitude, after the
    library's assertion that it fits. *)
Fixpoint le_bytes (n : nat) (m : Z) : list Z :=
  match n with
  | O => []
  | S n' => m mod 256 :: le_bytes n' (m / 256)
  end.

Definition bn_toArray (h : heap) (r : bn) (be : bool) : result (list Z) :=
  let m := Z.abs (bn_value h r) in
  assert (bitLength m <=? 64) RangeFault ;;;
  Ok (if be then rev (le_bytes 8 m) else le_bytes 8 m).

(** ** Fixed64, big-integer writer *)

Definition _write64BN (h : heap) (dst : buffer) (num : bn) (off : nat) (be : bool)
  : result nat * buffer * heap :=
  if bn_bitLength h num <=? 53 then
    let '(r, dst) := _write64 dst (bn_toNumber h num) off be in
    (r, dst, h)
  else
    let '(h, num) :=
      if 64 <? bn_bitLength h num then bn_uand h num U64_MAX else (h, num) in
    let '(h, num) :=
      if bn_isNeg h num then
        let '(h, num) := bn_neg h num in
        let h := bn_inotn h num 64 in
        let h := bn_iaddn h num 1 in
        (h, num)
      else (h, num) in
    match bn_toArray h num be with
    | Ok num =>
        let '(dst, off) := write_seq dst off num in
        (Ok off, dst, h)
    | Throw f => (Throw f, dst, h)
    | Unspecified => (Unspecified, dst, h)
    | OutOfFuel => (OutOfFuel, dst, h)
    end.

Definition writeU64BN (h : heap) (dst : buffer) (num : bn) (off : nat) :=
  _write64BN h dst num off false.

Definition writeU64BEBN (h : heap) (dst : buffer) (num : bn) (off : nat) :=
  _write64BN h dst num off true.

Definition write64BN (h : heap) (dst : buffer) (num : bn) (off : nat) :=
  _write64BN h dst num off false.

Definition write64BEBN (h : heap) (dst : buffer) (num : bn) (off : nat) :=
  _write64BN h dst num off true.

(** ** Varint-B, big-integer encoder and size *)

Fixpoint writeVarint2BN_digits (fuel : nat) (h : heap) (tmp : list Z) (len : nat)
  (num : bn) : option (list Z * nat * heap) :=
  match fuel with
  | O => None
  | S fuel' =>
      let tmp :=
        arr_set tmp len
          (js_or (js_and (bn_word0 h num) 0x7f)
                 (match len with O => 0x00 | S _ => 0x80 end)) in
      if bn_cmpn h num 0x7f <=? 0 then Some (tmp, len, h)
      else
        let h := bn_iushrn h num 7 in
        let h := bn_isubn h num 1 in
        writeVarint2BN_digits fuel' h tmp (S len) num
  end.

Definition writeVarint2BN (h : heap) (dst : buffer) (num : bn) (off : nat)
  : result nat * buffer * heap :=
  if bn_bitLength h num <=? 53 then
    let '(r, dst) := writeVarint2 dst (bn_toNumber h num) None in
    (r, dst, h)
  else
    match writeVarint2BN_digits (loop_fuel (bn_value h num)) h [] 0%nat num with
    | None => (OutOfFuel, dst, h)
    | Some (tmp, len, h) =>
        if negb (off + len <=? length dst)%nat then (Throw BoundsFault, dst, h)
        else
          let '(dst, off) := emit_digits dst off tmp len in
          (Ok off, dst, h)
    end.

Fixpoint sizeVarint2BN_loop (fuel : nat) (h : heap) (size : nat) (num : bn)
  : result nat * heap :=
  match fuel with
  | O => (OutOfFuel, h)
  | S fuel' =>
      let size := S size in
      if bn_cmpn h num 0x7f <=? 0 then (Ok size, h)
      else
        let h := bn_iushrn h num 7 in
        let h := bn_isubn h num 1 in
        sizeVarint2BN_loop fuel' h size num
  end.

Definition sizeVarint2BN (h : heap) (num : bn) : result nat * heap :=
  if bn_bitLength h num <=? 53 then
    (Ok (sizeVarint (bn_toNumber h num)), h)
  else
    let '(h, num) := bn_clone h num in
    sizeVarint2BN_loop (loop_fuel (bn_value h num)) h 0%nat num.
(** ** Fixed64, big-integer readers

    The result is a new [BN], modelled by its value.  [notn(64)] acts on a
    magnitude of at most eight bytes; [num[num.length - 1]] on an empty
    slice is [undefined], read as 0 by [&]. *)

Definition readU64BEBN (data : buffer) (off : nat) : Z :=
  let num := take 8 (drop off data) in
  le_value (rev num).

Definition read64BN (data : buffer) (off : nat) : Z :=
  let num := take 8 (drop off data) in
  if negb (js_and (buf_at num (length num - 1)%nat) 0x80 =? 0) then
    - (Z.lxor (le_value num) (Z.ones 64) + 1)
  else le_value num.

Definition read64BEBN (data : buffer) (off : nat) : Z :=
  let num := take 8 (drop off data) in
  if negb (js_and (buf_at num 0%nat) 0x80 =? 0) then
    - (Z.lxor (le_value (rev num)) (Z.ones 64) + 1)
  else le_value (rev num).

(** ** Varint-A, big-integer encoder and size *)

Definition writeVarintBN (h : heap) (dst : buffer) (num : bn) (off : nat)
  : result nat * buffer * heap :=
  if 32 <? bn_bitLength h num then
    let '(dst, off) := write_seq dst off [ 0xff ] in
    writeU64BN h dst num off
  else
    let '(r, dst) := writeVarint dst (bn_toNumber h num) off in
    (r, dst, h).

Definition sizeVarintBN (h : heap) (num : bn) : nat :=
  if 32 <? bn_bitLength h num then 9
  else sizeVarint (bn_toNumber h num).

(** ** The accumulation rule in the specification's words

    [exceeds_safe rest num] follows the accumulation
    [num = num * 128 + (byte & 0x7f)], plus one per continuation byte, over
    the bytes [rest] from the accumulator [num], with no assertion: it tells
    whether some accumulated value exceeds 2^53-1. *)
Fixpoint exceeds_safe (rest : list byte) (num : Z) : bool :=
  match rest with
  | [] => false
  | b :: rest' =>
      let num := num * 0x80 + js_and (u8 b) 0x7f in
      (MAX_SAFE_INTEGER <? num)
      || (if js_and (u8 b) 0x80 =? 0 then false
          else exceeds_safe rest' (num + 1))
  end.

(** [varint2_acc num bs]: the accumulator of the Varint-B decoders once
    they have taken the continuation bytes [bs] from the accumulator [num]:
    [num = num * 0x80 + (ch & 0x7f); num++] for each of them. *)
Definition varint2_acc (num : Z) (bs : list byte) : Z :=
  fold_left (fun num b => num * 0x80 + js_and (u8 b) 0x7f + 1) bs num.

(** The least value whose Varint-B form takes more than [k] bytes:
    0, 128, 16512, 2113664, ... *)
Fixpoint varint2_class (k : nat) : Z :=
  match k with
  | O => 0
  | S k' => 128 * (varint2_class k' + 1)
  end.

(** * Properties *)

(** ** Bytes *)

Lemma u8_range (b : byte) : 0 <= u8 b < 256.
Proof.
  unfold u8. pose proof (Byte.to_N_bounded b). lia.
Qed.

Lemma u8_to_u8 (z : Z) : u8 (to_u8 z) = z mod 256.
Proof.
  unfold u8, to_u8.
  pose proof (Z.mod_pos_bound z 256 ltac:(lia)) as Hm.
  destruct (Byte.of_N (Z.to_N (z mod 256))) as [b|] eqn:E.
  - apply Byte.to_of_N in E. rewrite E. lia.
  - apply Byte.of_N_None_iff in E. lia.
Qed.

(** ** The 32-bit operators on the operands the codec gives them *)

Lemma ToInt32_congr (a : Z) : ToInt32 a mod 2 ^ 32 = a mod 2 ^ 32.
Proof.
  unfold ToInt32. destruct (a mod 2 ^ 32 <? 2 ^ 31) eqn:E.
  - apply Z.mod_mod. lia.
  - replace (a mod 2 ^ 32 - 2 ^ 32) with (a mod 2 ^ 32 + (-1) * 2 ^ 32) by lia.
    rewrite Z.mod_add by lia. apply Z.mod_mod. lia.
Qed.

Lemma js_and_ones (a : Z) (k : Z) :
  0 <= k <= 31 -> js_and a (Z.ones k) = a mod 2 ^ k.
Proof.
  intros Hk. unfold js_and.
  assert (Hones : 0 <= Z.ones k < 2 ^ 31).
  { rewrite Z.ones_equiv.
    assert (2 ^ k <= 2 ^ 31) by (apply Z.pow_le_mono_r; lia).
    assert (0 < 2 ^ k) by (apply Z.pow_pos_nonneg; lia). lia. }
  assert (HT : ToInt32 (Z.ones k) = Z.ones k).
  { unfold ToInt32. rewrite Z.mod_small by lia.
    destruct (Z.ones k <? 2 ^ 31) eqn:E; lia. }
  rewrite HT, Z.land_ones by lia.
  pose proof (ToInt32_congr a) as Hc.
  assert (0 < 2 ^ k) by (apply Z.pow_pos_nonneg; lia).
  assert (0 < 2 ^ (32 - k)) by (apply Z.pow_pos_nonneg; lia).
  apply (f_equal (fun x => x mod 2 ^ k)) in Hc.
  replace (2 ^ 32) with (2 ^ k * 2 ^ (32 - k)) in Hc.
  2:{ rewrite <- Z.pow_add_r by lia. f_equal. lia. }
  rewrite !Z.rem_mul_r in Hc by lia.
  rewrite !(Z.mul_comm (2 ^ k)), !Z.mod_add in Hc by lia.
  rewrite !Z.mod_mod in Hc by lia. exact Hc.
Qed.

Lemma js_and_0xff (a : Z) : js_and a 0xff = a mod 256.
Proof. exact (js_and_ones a 8 ltac:(lia)). Qed.

Lemma js_and_0x7f (a : Z) : js_and a 0x7f = a mod 128.
Proof. exact (js_and_ones a 7 ltac:(lia)). Qed.

Lemma js_and_0x1fffff (a : Z) : js_and a 0x1fffff = a mod 2 ^ 21.
Proof. exact (js_and_ones a 21 ltac:(lia)). Qed.

Lemma ToInt32_cases (x : Z) :
  0 <= x < 2 ^ 32 ->
  (x < 2 ^ 31 /\ ToInt32 x = x) \/ (2 ^ 31 <= x /\ ToInt32 x = x - 2 ^ 32).
Proof.
  intros Hx. unfold ToInt32. rewrite Z.mod_small by lia.
  destruct (x <? 2 ^ 31) eqn:E; lia.
Qed.

Lemma land_neg_pow2 (x k : Z) :
  0 <= k -> Z.land x (- 2 ^ k) = x / 2 ^ k * 2 ^ k.
Proof.
  intros Hk.
  replace (- 2 ^ k) with (Z.lnot (Z.ones k)).
  2:{ rewrite Z.ones_equiv. unfold Z.lnot. lia. }
  rewrite <- Z.ldiff_land, Z.ldiff_ones_r by lia.
  rewrite Z.shiftl_mul_pow2, Z.shiftr_div_pow2 by lia. reflexivity.
Qed.

(** [(hi & 0xffe00000) === 0] holds exactly below 2^21. *)
Lemma safe_test (hi : Z) :
  0 <= hi < 2 ^ 32 -> (js_and hi 0xffe00000 =? 0) = (hi <? 2 ^ 21).
Proof.
  intros Hhi. unfold js_and.
  change (ToInt32 0xffe00000) with (- 2 ^ 21).
  rewrite land_neg_pow2 by lia.
  destruct (ToInt32_cases hi Hhi) as [[H1 ->]|[H1 ->]];
    change (2 ^ 32) with 4294967296 in *; change (2 ^ 31) with 2147483648 in *;
    change (2 ^ 21) with 2097152 in *;
    destruct (Z.eqb_spec (hi / 2097152 * 2097152) 0);
    destruct (Z.ltb_spec hi 2097152);
    destruct (Z.eqb_spec ((hi - 4294967296) / 2097152 * 2097152) 0);
    try reflexivity; exfalso; Z.div_mod_to_equations; lia.
Qed.

(** [hi & 0x80000000] is zero exactly below 2^31. *)
Lemma sign_test (hi : Z) :
  0 <= hi < 2 ^ 32 -> (js_and hi 0x80000000 =? 0) = (hi <? 2 ^ 31).
Proof.
  intros Hhi. unfold js_and.
  change (ToInt32 0x80000000) with (- 2 ^ 31).
  rewrite land_neg_pow2 by lia.
  destruct (ToInt32_cases hi Hhi) as [[H1 ->]|[H1 ->]];
    change (2 ^ 32) with 4294967296 in *; change (2 ^ 31) with 2147483648 in *;
    destruct (Z.eqb_spec (hi / 2147483648 * 2147483648) 0);
    destruct (Z.ltb_spec hi 2147483648);
    destruct (Z.eqb_spec ((hi - 4294967296) / 2147483648 * 2147483648) 0);
    try reflexivity; exfalso; Z.div_mod_to_equations; lia.
Qed.

(** [~x >>> 0] *)
Lemma not_ushr0 (x : Z) :
  0 <= x < 2 ^ 32 -> ToUint32 (js_not x) = 2 ^ 32 - 1 - x.
Proof.
  intros Hx. unfold ToUint32, js_not, Z.lnot.
  destruct (ToInt32_cases x Hx) as [[H1 ->]|[H1 ->]];
    change (2 ^ 32) with 4294967296 in *; change (2 ^ 31) with 2147483648 in *;
    Z.div_mod_to_equations; lia.
Qed.

(** [(x >> 8) & 0xff], [(x >> 16) & 0xff] and [x >>> 24] on a 32-bit word. *)
Lemma byte_of_word (x n : Z) :
  0 <= x < 2 ^ 32 -> n = 8 \/ n = 16 ->
  js_and (js_shr x n) 0xff = (x / 2 ^ n) mod 256.
Proof.
  intros Hx Hn. rewrite js_and_0xff. unfold js_shr.
  destruct (ToInt32_cases x Hx) as [[H1 ->]|[H1 ->]];
    destruct Hn as [-> | ->];
    change (8 mod 32) with 8; change (16 mod 32) with 16;
    rewrite Z.shiftr_div_pow2 by lia;
    change (2 ^ 32) with 4294967296 in *; change (2 ^ 31) with 2147483648 in *;
    change (2 ^ 8) with 256; change (2 ^ 16) with 65536;
    Z.div_mod_to_equations; lia.
Qed.

Lemma top_byte_of_word (x : Z) :
  0 <= x < 2 ^ 32 -> js_ushr x 24 = x / 2 ^ 24.
Proof.
  intros Hx. unfold js_ushr, ToUint32.
  rewrite Z.mod_small by lia. change (24 mod 32) with 24.
  apply Z.shiftr_div_pow2. lia.
Qed.

Lemma ToInt32_small (x : Z) : 0 <= x < 2 ^ 31 -> ToInt32 x = x.
Proof.
  intros Hx. unfold ToInt32.
  change (2 ^ 31) with 2147483648 in *. change (2 ^ 32) with 4294967296 in *.
  rewrite Z.mod_small by lia.
  destruct (Z.ltb_spec x 2147483648); lia.
Qed.

(** A value below 2^k shares no bit with one shifted left by [k]. *)
Lemma land_low_shifted (a x k : Z) :
  0 <= k -> 0 <= a < 2 ^ k -> Z.land a (Z.shiftl x k) = 0.
Proof.
  intros Hk Ha. apply Z.bits_inj'. intros n Hn.
  rewrite Z.land_spec, Z.bits_0.
  destruct (Z.lt_ge_cases n k) as [Hlt|Hge].
  - rewrite (Z.shiftl_spec_low x k n Hlt). apply andb_false_r.
  - destruct (Z.eq_dec a 0) as [->|Hnz]; [rewrite Z.bits_0; reflexivity|].
    rewrite (Z.bits_above_log2 a n); [reflexivity|lia|].
    assert (Z.log2 a < k) by (apply Z.log2_lt_pow2; lia). lia.
Qed.

(** One turn of the digit loops, [v / 128 - 1], loses at least one bit. *)
Lemma log2_next (v : Z) (fuel : nat) :
  0x7f < v -> Z.log2 v < Z.of_nat (S fuel) ->
  Z.log2 (v / 128 - 1) < Z.of_nat fuel.
Proof.
  intros Hv Hf.
  assert (H : Z.log2 (v / 128 - 1) <= Z.log2 (v / 2 ^ 7))
    by (apply Z.log2_le_mono; change (2 ^ 7) with 128; lia).
  rewrite <- Z.shiftr_div_pow2, Z.log2_shiftr in H by lia.
  assert (7 <= Z.log2 v)
    by (apply Z.log2_le_pow2; change (2 ^ 7) with 128; lia).
  lia.
Qed.

(** ** Sequences of stores *)

Lemma write_seq_snd (vs : list Z) (dst : buffer) (off : nat) :
  snd (write_seq dst off vs) = (off + length vs)%nat.
Proof.
  revert dst off. induction vs as [|v vs IH]; intros dst off; simpl.
  - lia.
  - rewrite IH. lia.
Qed.

Lemma write_seq_length (vs : list Z) (dst : buffer) (off : nat) :
  length (fst (write_seq dst off vs)) = length dst.
Proof.
  revert dst off. induction vs as [|v vs IH]; intros dst off; cbn [write_seq].
  - reflexivity.
  - rewrite IH. unfold buf_set. apply length_insert.
Qed.

Lemma write_seq_fst (vs : list Z) (dst : buffer) (off : nat) :
  (off + length vs <= length dst)%nat ->
  fst (write_seq dst off vs)
  = take off dst ++ map to_u8 vs ++ drop (off + length vs) dst.
Proof.
  revert dst off.
  induction vs as [|v vs IH]; intros dst off Hlen;
    cbn [write_seq length map] in *.
  - rewrite Nat.add_0_r. symmetry. apply take_drop.
  - assert (Hset : length (buf_set dst off v) = length dst)
      by (unfold buf_set; apply length_insert).
    rewrite IH by lia.
    unfold buf_set.
    rewrite take_insert_lt by lia.
    rewrite drop_insert_lt by lia.
    assert (Hoff : (off < length dst)%nat) by lia.
    destruct (lookup_lt_is_Some_2 dst off Hoff) as [b Hb].
    rewrite (take_S_r _ _ b Hb).
    rewrite insert_app_r_alt by (rewrite length_take; lia).
    rewrite length_take, Nat.min_l by lia. rewrite Nat.sub_diag. simpl.
    rewrite <- app_assoc. simpl.
    replace (off + S (length vs))%nat with (S (off + length vs)) by lia.
    reflexivity.
Qed.

Lemma write_seq_drop (vs : list Z) (dst : buffer) (off : nat) :
  (off + length vs <= length dst)%nat ->
  drop off (fst (write_seq dst off vs))
  = map to_u8 vs ++ drop (off + length vs) dst.
Proof.
  intros Hlen. rewrite write_seq_fst by exact Hlen.
  rewrite drop_app_length'; [reflexivity|].
  rewrite length_take. lia.
Qed.


(** ** Reading 32-bit words *)

Lemma le_value_range (bs : list byte) :
  0 <= le_value bs < 256 ^ Z.of_nat (length bs).
Proof.
  induction bs as [|b bs IH]; cbn [le_value length].
  - change (256 ^ Z.of_nat 0) with 1. lia.
  - rewrite Nat2Z.inj_succ, Z.pow_succ_r by lia.
    pose proof (u8_range b). lia.
Qed.

Lemma le_value_app (bs cs : list byte) :
  le_value (bs ++ cs) = le_value bs + 256 ^ Z.of_nat (length bs) * le_value cs.
Proof.
  induction bs as [|b bs IH]; cbn [le_value length app].
  - change (256 ^ Z.of_nat 0) with 1. lia.
  - rewrite IH, Nat2Z.inj_succ, Z.pow_succ_r by lia. lia.
Qed.

Lemma window4 (data : list byte) (off : nat) :
  (off + 4 <= length data)%nat ->
  exists b0 b1 b2 b3,
    data !! off = Some b0 /\ data !! (off + 1)%nat = Some b1 /\
    data !! (off + 2)%nat = Some b2 /\ data !! (off + 3)%nat = Some b3 /\
    take 4 (drop off data) = [b0; b1; b2; b3].
Proof.
  intros Hlen.
  destruct (lookup_lt_is_Some_2 data off ltac:(lia)) as [b0 H0].
  destruct (lookup_lt_is_Some_2 data (off + 1) ltac:(lia)) as [b1 H1].
  destruct (lookup_lt_is_Some_2 data (off + 2) ltac:(lia)) as [b2 H2].
  destruct (lookup_lt_is_Some_2 data (off + 3) ltac:(lia)) as [b3 H3].
  exists b0, b1, b2, b3. repeat split; try assumption.
  rewrite (drop_S _ _ _ H0).
  replace (S off) with (off + 1)%nat by lia. rewrite (drop_S _ _ _ H1).
  replace (S (off + 1)) with (off + 2)%nat by lia. rewrite (drop_S _ _ _ H2).
  replace (S (off + 2)) with (off + 3)%nat by lia. rewrite (drop_S _ _ _ H3).
  reflexivity.
Qed.

Lemma readUInt32LE_value (data : list byte) (off : nat) :
  (off + 4 <= length data)%nat ->
  readUInt32LE data off = Ok (le_value (take 4 (drop off data))).
Proof.
  intros Hlen.
  destruct (window4 data off Hlen) as (b0 & b1 & b2 & b3 & H0 & H1 & H2 & H3 & ->).
  unfold readUInt32LE. rewrite H0, H1, H2, H3. cbn [le_value].
  f_equal. lia.
Qed.

Lemma readUInt32BE_value (data : list byte) (off : nat) :
  (off + 4 <= length data)%nat ->
  readUInt32BE data off = Ok (le_value (rev (take 4 (drop off data)))).
Proof.
  intros Hlen.
  destruct (window4 data off Hlen) as (b0 & b1 & b2 & b3 & H0 & H1 & H2 & H3 & ->).
  unfold readUInt32BE. rewrite H0, H1, H2, H3. cbn [rev app le_value].
  f_equal. lia.
Qed.

Lemma word_range (data : list byte) (off : nat) :
  0 <= le_value (take 4 (drop off data)) < 2 ^ 32
  /\ 0 <= le_value (rev (take 4 (drop off data))) < 2 ^ 32.
Proof.
  pose proof (le_value_range (take 4 (drop off data))) as H1.
  pose proof (le_value_range (rev (take 4 (drop off data)))) as H2.
  rewrite length_rev in H2.
  assert (Hl : (length (take 4 (drop off data)) <= 4)%nat)
    by (rewrite length_take; lia).
  assert (Hp : 256 ^ Z.of_nat (length (take 4 (drop off data))) <= 256 ^ 4)
    by (apply Z.pow_le_mono_r; lia).
  change (256 ^ 4) with (2 ^ 32) in Hp. lia.
Qed.

(** The two halves of an eight-byte window. *)
Lemma window8_le (data : list byte) (off : nat) :
  (off + 8 <= length data)%nat ->
  le_value (take 8 (drop off data))
  = le_value (take 4 (drop off data))
    + 2 ^ 32 * le_value (take 4 (drop (off + 4) data)).
Proof.
  intros Hlen.
  change 8%nat with (4 + 4)%nat.
  rewrite <- (take_take_drop (drop off data) 4 4), le_value_app.
  rewrite length_take, length_drop, Nat.min_l by lia.
  rewrite drop_drop. reflexivity.
Qed.

(** ** Fixed64: what the writer stores is what the readers find *)

Lemma le_word (x : Z) :
  0 <= x < 2 ^ 32 ->
  le_value (map to_u8 [ js_and x 0xff; js_and (js_shr x 8) 0xff;
                        js_and (js_shr x 16) 0xff; js_ushr x 24 ]) = x.
Proof.
  intros Hx. cbn [map le_value]. rewrite !u8_to_u8.
  rewrite js_and_0xff, !byte_of_word, top_byte_of_word by (auto; lia).
  change (2 ^ 32) with 4294967296 in *. change (2 ^ 8) with 256.
  change (2 ^ 16) with 65536. change (2 ^ 24) with 16777216.
  Z.div_mod_to_equations. lia.
Qed.

Lemma be_word (x : Z) :
  0 <= x < 2 ^ 32 ->
  le_value (rev (map to_u8 [ js_ushr x 24; js_and (js_shr x 16) 0xff;
                             js_and (js_shr x 8) 0xff; js_and x 0xff ])) = x.
Proof. intros Hx. exact (le_word x Hx). Qed.

Lemma write_seq8_windows (dst : list byte) (off : nat) (v0 v1 v2 v3 v4 v5 v6 v7 : Z) :
  (off + 8 <= length dst)%nat ->
  let dst' := fst (write_seq dst off [v0; v1; v2; v3; v4; v5; v6; v7]) in
  take 4 (drop off dst') = map to_u8 [v0; v1; v2; v3]
  /\ take 4 (drop (off + 4) dst') = map to_u8 [v4; v5; v6; v7]
  /\ length dst' = length dst.
Proof.
  intros Hlen dst'. subst dst'.
  rewrite <- (drop_drop _ 4 off), write_seq_length.
  rewrite write_seq_drop by exact Hlen.
  repeat split.
Qed.

(** The [(hi, lo)] pair the writer derives from [num]. *)
Lemma write64_hi_lo (m : Z) :
  0 <= m <= MAX_SAFE_INTEGER ->
  0 <= Z.rem m 0x100000000 < 2 ^ 32
  /\ 0 <= (m - Z.rem m 0x100000000) / 0x100000000 < 2 ^ 21
  /\ (m - Z.rem m 0x100000000) / 0x100000000 * 0x100000000
     + Z.rem m 0x100000000 = m.
Proof.
  unfold MAX_SAFE_INTEGER. intros Hm.
  rewrite Z.rem_mod_nonneg by lia.
  change (2 ^ 32) with 4294967296. change (2 ^ 21) with 2097152.
  Z.div_mod_to_equations. lia.
Qed.

Lemma read_words (data : list byte) (off : nat) (be : bool) (whi wlo : Z) :
  (off + 8 <= length data)%nat ->
  (if be then le_value (rev (take 4 (drop off data)))
   else le_value (take 4 (drop (off + 4) data))) = whi ->
  (if be then le_value (rev (take 4 (drop (off + 4) data)))
   else le_value (take 4 (drop off data))) = wlo ->
  (if be then
     hi <- readUInt32BE data off ;;
     lo <- readUInt32BE data (off + 4)%nat ;;
     Ok (hi, lo)
   else
     hi <- readUInt32LE data (off + 4)%nat ;;
     lo <- readUInt32LE data off ;;
     Ok (hi, lo)) = Ok (whi, wlo).
Proof.
  intros Hlen Hhi Hlo. destruct be.
  - rewrite !readUInt32BE_value by lia. cbn [bind]. congruence.
  - rewrite !readUInt32LE_value by lia. cbn [bind]. congruence.
Qed.

Lemma _write64_stores (dst : list byte) (num : Z) (off : nat) (be : bool) :
  (off + 8 <= length dst)%nat ->
  - 2 ^ 53 <= num <= 2 ^ 53 - 1 ->
  exists dst' hi lo,
    _write64 dst num off be = (Ok (off + 8)%nat, dst')
    /\ length dst' = length dst
    /\ 0 <= hi < 2 ^ 32 /\ 0 <= lo < 2 ^ 32
    /\ (if num <? 0
        then 2 ^ 32 - 2 ^ 21 <= hi
             /\ (2 ^ 32 - 1 - hi) * 2 ^ 32 + (2 ^ 32 - 1 - lo) = - num - 1
        else hi < 2 ^ 21 /\ hi * 2 ^ 32 + lo = num)
    /\ (if be then
          hi <- readUInt32BE dst' off ;;
          lo <- readUInt32BE dst' (off + 4)%nat ;;
          Ok (hi, lo)
        else
          hi <- readUInt32LE dst' (off + 4)%nat ;;
          lo <- readUInt32LE dst' off ;;
          Ok (hi, lo)) = Ok (hi, lo).
Proof.
  intros Hlen Hnum. unfold _write64.
  set (m := if num <? 0 then - num - 1 else num).
  assert (Hm : 0 <= m <= MAX_SAFE_INTEGER).
  { subst m. unfold MAX_SAFE_INTEGER. change (2 ^ 53) with 9007199254740992 in Hnum.
    destruct (Z.ltb_spec num 0); lia. }
  destruct (Z.leb_spec m MAX_SAFE_INTEGER) as [_|Hbad]; [|lia]. cbn [negb].
  destruct (write64_hi_lo m Hm) as (Hlo & Hhi & Hsum).
  set (lo0 := Z.rem m 0x100000000) in *.
  set (hi0 := (m - lo0) / 0x100000000) in *.
  set (hi := if num <? 0 then ToUint32 (js_not hi0) else hi0).
  set (lo := if num <? 0 then ToUint32 (js_not lo0) else lo0).
  assert (Hhi' : 0 <= hi < 2 ^ 32 /\ 0 <= lo < 2 ^ 32 /\
                 if num <? 0
                 then 2 ^ 32 - 2 ^ 21 <= hi
                      /\ (2 ^ 32 - 1 - hi) * 2 ^ 32 + (2 ^ 32 - 1 - lo) = - num - 1
                 else hi < 2 ^ 21 /\ hi * 2 ^ 32 + lo = num).
  { subst hi lo m. change (2 ^ 32) with 4294967296 in *.
    change (2 ^ 21) with 2097152 in *.
    destruct (num <? 0).
    - rewrite !not_ushr0 by (change (2 ^ 32) with 4294967296; lia).
      change (2 ^ 32) with 4294967296. lia.
    - lia. }
  destruct Hhi' as (Hhr & Hlr & Hrel).
  destruct be.
  - match goal with
    | |- context [write_seq dst off [?a; ?b; ?c; ?d; ?e; ?f; ?g; ?k]] =>
        pose proof (write_seq_snd [a; b; c; d; e; f; g; k] dst off) as Hs;
        destruct (write_seq8_windows dst off a b c d e f g k Hlen) as (W1 & W2 & W3);
        revert Hs W1 W2 W3;
        destruct (write_seq dst off [a; b; c; d; e; f; g; k]) as [dst' off']
    end.
    cbn [fst snd length]. intros Hs W1 W2 W3.
    exists dst', hi, lo. subst off'.
    repeat split; try assumption; try lia.
    apply (read_words dst' off true hi lo); [lia| |].
    + rewrite W1. apply be_word. assumption.
    + rewrite W2. apply be_word. assumption.
  - match goal with
    | |- context [write_seq dst off [?a; ?b; ?c; ?d; ?e; ?f; ?g; ?k]] =>
        pose proof (write_seq_snd [a; b; c; d; e; f; g; k] dst off) as Hs;
        destruct (write_seq8_windows dst off a b c d e f g k Hlen) as (W1 & W2 & W3);
        revert Hs W1 W2 W3;
        destruct (write_seq dst off [a; b; c; d; e; f; g; k]) as [dst' off']
    end.
    cbn [fst snd length]. intros Hs W1 W2 W3.
    exists dst', hi, lo. subst off'.
    repeat split; try assumption; try lia.
    apply (read_words dst' off false hi lo); [lia| |].
    + rewrite W2. apply le_word. assumption.
    + rewrite W1. apply le_word. assumption.
Qed.

Lemma _write64_readU64 (dst : list byte) (n : Z) (off : nat) (be : bool) :
  (off + 8 <= length dst)%nat ->
  0 <= n <= 2 ^ 53 - 1 ->
  fst (_write64 dst n off be) = Ok (off + 8)%nat
  /\ _readU64 (snd (_write64 dst n off be)) off false be = Ok n.
Proof.
  intros Hlen Hn.
  destruct (_write64_stores dst n off be Hlen ltac:(lia))
    as (dst' & hi & lo & E & _ & Hhi & Hlo & Hrel & Hread).
  rewrite E. cbn [fst snd]. split; [reflexivity|].
  unfold _readU64. rewrite Hread. cbn [bind fst snd].
  rewrite safe_test by assumption.
  destruct (Z.ltb_spec n 0) as [?|_]; [lia|]. destruct Hrel as [Hsmall Hsum].
  destruct (Z.ltb_spec hi (2 ^ 21)) as [_|?]; [|lia].
  cbn [assert bind]. f_equal. exact Hsum.
Qed.

Lemma _write64_read64 (dst : list byte) (n : Z) (off : nat) (be : bool) :
  (off + 8 <= length dst)%nat ->
  - 2 ^ 53 <= n <= 2 ^ 53 - 1 ->
  fst (_write64 dst n off be) = Ok (off + 8)%nat
  /\ _read64 (snd (_write64 dst n off be)) off false be = Ok n.
Proof.
  intros Hlen Hn.
  destruct (_write64_stores dst n off be Hlen Hn)
    as (dst' & hi & lo & E & _ & Hhi & Hlo & Hrel & Hread).
  rewrite E. cbn [fst snd]. split; [reflexivity|].
  unfold _read64. rewrite Hread. cbn [bind fst snd].
  rewrite sign_test by assumption.
  change (2 ^ 32) with 4294967296 in *. change (2 ^ 21) with 2097152 in *.
  change (2 ^ 31) with 2147483648 in *.
  destruct (Z.ltb_spec n 0) as [Hneg|Hpos].
  - destruct Hrel as [Hbig Hsum].
    destruct (Z.ltb_spec hi 2147483648) as [?|_]; [lia|]. cbn [negb].
    rewrite !not_ushr0 by (change (2 ^ 32) with 4294967296; lia).
    rewrite safe_test by (change (2 ^ 32) with 4294967296; lia).
    change (2 ^ 32) with 4294967296 in *. change (2 ^ 21) with 2097152 in *.
    destruct (Z.ltb_spec (4294967296 - 1 - hi) 2097152) as [_|?]; [|lia].
    cbn [assert bind]. f_equal. lia.
  - destruct Hrel as [Hsmall Hsum].
    destruct (Z.ltb_spec hi 2147483648) as [_|?]; [|lia]. cbn [negb].
    rewrite safe_test by (change (2 ^ 32) with 4294967296; lia).
    change (2 ^ 21) with 2097152 in *.
    destruct (Z.ltb_spec hi 2097152) as [_|?]; [|lia].
    cbn [assert bind]. f_equal. lia.
Qed.

(** C3.  A 64-bit value written by [writeU64]/[writeU64BE] and read back
    by [readU64]/[readU64BE] at the same offset is recovered for every
    [n] in [0, 2^53-1], and so is a value written by [write64]/[write64BE]
    and read back by [read64]/[read64BE] for every [n] of magnitude at most
    [2^53-1]; the writer returns [off + 8].  The buffer holds at least
    [off + 8] bytes. *)
Theorem fixed64_roundtrip (dst : list byte) (off : nat) (n : Z) :
  (off + 8 <= length dst)%nat ->
  (0 <= n <= 2 ^ 53 - 1 ->
     fst (writeU64 dst n off) = Ok (off + 8)%nat
     /\ readU64 (snd (writeU64 dst n off)) off = Ok n
     /\ fst (writeU64BE dst n off) = Ok (off + 8)%nat
     /\ readU64BE (snd (writeU64BE dst n off)) off = Ok n)
  /\ (- (2 ^ 53 - 1) <= n <= 2 ^ 53 - 1 ->
     fst (write64 dst n off) = Ok (off + 8)%nat
     /\ read64 (snd (write64 dst n off)) off = Ok n
     /\ fst (write64BE dst n off) = Ok (off + 8)%nat
     /\ read64BE (snd (write64BE dst n off)) off = Ok n).
Proof.
  intros Hlen. split; intros Hn.
  - unfold writeU64, writeU64BE, readU64, readU64BE.
    destruct (_write64_readU64 dst n off false Hlen Hn) as [A B].
    destruct (_write64_readU64 dst n off true Hlen Hn) as [C D].
    auto.
  - unfold write64, write64BE, read64, read64BE.
    destruct (_write64_read64 dst n off false Hlen ltac:(lia)) as [A B].
    destruct (_write64_read64 dst n off true Hlen ltac:(lia)) as [C D].
    auto.
Qed.

Lemma fixed64_roundtrip_witness :
  readU64 (snd (writeU64 (replicate 10 x00) 300 1)) 1 = Ok 300
  /\ read64BE (snd (write64BE (replicate 10 x00) (-300) 1)) 1 = Ok (-300).
Proof.
  split.
  - apply (proj1 (fixed64_roundtrip (replicate 10 x00) 1 300
                    ltac:(vm_compute; lia)) ltac:(lia)).
  - apply (proj2 (fixed64_roundtrip (replicate 10 x00) 1 (-300)
                    ltac:(vm_compute; lia)) ltac:(lia)).
Defined.

(** ** The 53-bit readers *)

Lemma _readU64_force53 (data : list byte) (off : nat) (be : bool) (hi lo : Z) :
  (off + 8 <= length data)%nat ->
  (if be then le_value (rev (take 4 (drop off data)))
   else le_value (take 4 (drop (off + 4) data))) = hi ->
  (if be then le_value (rev (take 4 (drop (off + 4) data)))
   else le_value (take 4 (drop off data))) = lo ->
  _readU64 data off true be = Ok (hi mod 2 ^ 21 * 2 ^ 32 + lo)
  /\ 0 <= hi mod 2 ^ 21 * 2 ^ 32 + lo <= 2 ^ 53 - 1
  /\ hi mod 2 ^ 21 * 2 ^ 32 + lo = (hi * 2 ^ 32 + lo) mod 2 ^ 53.
Proof.
  intros Hlen Hhi Hlo.
  assert (Hr : 0 <= hi < 2 ^ 32 /\ 0 <= lo < 2 ^ 32).
  { subst hi lo.
    destruct (word_range data off), (word_range data (off + 4)).
    destruct be; auto. }
  unfold _readU64. rewrite (read_words data off be hi lo Hlen Hhi Hlo).
  cbn [bind fst snd]. rewrite js_and_0x1fffff.
  change (2 ^ 32) with 4294967296 in *. change (2 ^ 21) with 2097152 in *.
  change (2 ^ 53) with 9007199254740992.
  rewrite safe_test by (change (2 ^ 32) with 4294967296; Z.div_mod_to_equations; lia).
  change (2 ^ 21) with 2097152.
  destruct (Z.ltb_spec (hi mod 2097152) 2097152) as [_|?];
    [|Z.div_mod_to_equations; lia].
  cbn [assert bind]. repeat split; try (Z.div_mod_to_equations; lia).
Qed.

(** C8.  On a buffer with eight readable bytes from [off], [readU53] and
    [readU53BE] never raise the safe-range fault: the high word is reduced
    modulo 2^21 before the assertion, the result is
    [(hi mod 2^21) * 2^32 + lo], it lies in [0, 2^53-1], and it is the
    64-bit value modulo 2^53, so values from 2^53 on are aliased to smaller
    ones. *)
Theorem readU53_masks (data : list byte) (off : nat) :
  (off + 8 <= length data)%nat ->
  let lo := le_value (take 4 (drop off data)) in
  let hi := le_value (take 4 (drop (off + 4) data)) in
  let loBE := le_value (rev (take 4 (drop (off + 4) data))) in
  let hiBE := le_value (rev (take 4 (drop off data))) in
  (readU53 data off = Ok (hi mod 2 ^ 21 * 2 ^ 32 + lo)
   /\ 0 <= hi mod 2 ^ 21 * 2 ^ 32 + lo <= 2 ^ 53 - 1
   /\ hi mod 2 ^ 21 * 2 ^ 32 + lo = (hi * 2 ^ 32 + lo) mod 2 ^ 53)
  /\ (readU53BE data off = Ok (hiBE mod 2 ^ 21 * 2 ^ 32 + loBE)
      /\ 0 <= hiBE mod 2 ^ 21 * 2 ^ 32 + loBE <= 2 ^ 53 - 1
      /\ hiBE mod 2 ^ 21 * 2 ^ 32 + loBE = (hiBE * 2 ^ 32 + loBE) mod 2 ^ 53).
Proof.
  intros Hlen lo hi loBE hiBE. split.
  - exact (_readU64_force53 data off false hi lo Hlen eq_refl eq_refl).
  - exact (_readU64_force53 data off true hiBE loBE Hlen eq_refl eq_refl).
Qed.

Lemma readU53_masks_witness :
  readU53 (replicate 8 xff) 0 = Ok (2 ^ 53 - 1)
  /\ readU53BE (replicate 8 xff) 0 = Ok (2 ^ 53 - 1).
Proof.
  pose proof (readU53_masks (replicate 8 xff) 0 ltac:(vm_compute; lia)) as H.
  cbv zeta in H. destruct H as [[A _] [B _]].
  split; [exact A | exact B].
Defined.

(** ** Varint-A *)

Lemma buf_at_lookup (data : list byte) (off : nat) (b : byte) :
  data !! off = Some b -> buf_at data off = u8 b.
Proof. intros H. unfold buf_at. rewrite H. reflexivity. Qed.

(** [b1 | (b2 << 8)] on two byte cells. *)
Lemma or_shl8 (a x : Z) :
  0 <= a < 256 -> 0 <= x < 256 -> js_or a (js_shl x 8) = a + 256 * x.
Proof.
  intros Ha Hx. unfold js_or, js_shl. change (8 mod 32) with 8.
  rewrite (ToInt32_small x) by (change (2 ^ 31) with 2147483648; lia).
  rewrite (ToInt32_small a) by (change (2 ^ 31) with 2147483648; lia).
  rewrite Z.shiftl_mul_pow2 by lia. change (2 ^ 8) with 256.
  rewrite !(ToInt32_small (x * 256)) by (change (2 ^ 31) with 2147483648; lia).
  rewrite <- Z.lxor_lor, <- Z.add_nocarry_lxor;
    try (replace (x * 256) with (Z.shiftl x 8)
           by (rewrite Z.shiftl_mul_pow2 by lia; reflexivity);
         apply land_low_shifted; change (2 ^ 8) with 256; lia).
  lia.
Qed.

Lemma window2 (data : list byte) (off : nat) :
  (off + 2 <= length data)%nat ->
  js_or (buf_at data off) (js_shl (buf_at data (off + 1)%nat) 8)
  = le_value (take 2 (drop off data)).
Proof.
  intros Hlen.
  destruct (lookup_lt_is_Some_2 data off ltac:(lia)) as [b0 H0].
  destruct (lookup_lt_is_Some_2 data (off + 1) ltac:(lia)) as [b1 H1].
  rewrite (buf_at_lookup _ _ _ H0), (buf_at_lookup _ _ _ H1).
  rewrite (drop_S _ _ _ H0).
  replace (S off) with (off + 1)%nat by lia. rewrite (drop_S _ _ _ H1).
  cbn [take le_value].
  rewrite or_shl8 by apply u8_range. rewrite take_0. cbn [le_value]. lia.
Qed.

Lemma bitLength_gt32 (p : Z) :
  0 <= p -> (32 <? bitLength p) = (0xffffffff <? p).
Proof.
  intros Hp. unfold bitLength.
  destruct (Z.eqb_spec p 0) as [->|Hnz]; [reflexivity|].
  rewrite Z.abs_eq by lia.
  pose proof (Z.log2_le_pow2 p 32 ltac:(lia)) as Hl.
  change (2 ^ 32) with 4294967296 in Hl.
  destruct (Z.ltb_spec 32 (Z.log2 p + 1)), (Z.ltb_spec 0xffffffff p);
    try reflexivity; lia.
Qed.

Lemma nat_ltb_true (a b : nat) : (a < b)%nat -> (a <? b)%nat = true.
Proof. intros H. apply Nat.ltb_lt. exact H. Qed.

Lemma nat_leb_true (a b : nat) : (a <= b)%nat -> (a <=? b)%nat = true.
Proof. intros H. apply Nat.leb_le. exact H. Qed.

Lemma nat_ltb_false (a b : nat) : (b <= a)%nat -> (a <? b)%nat = false.
Proof. intros H. apply Nat.ltb_ge. exact H. Qed.

Lemma nat_leb_false (a b : nat) : (b < a)%nat -> (a <=? b)%nat = false.
Proof. intros H. apply Nat.leb_gt. exact H. Qed.

(** The 0xff form, native: the payload is read through [readU64]. *)
Lemma readU64_payload (data : list byte) (off : nat) :
  (off + 8 <= length data)%nat ->
  let p := le_value (take 8 (drop off data)) in
  0 <= p
  /\ (p <= 2 ^ 53 - 1 -> readU64 data off = Ok p)
  /\ (2 ^ 53 - 1 < p -> readU64 data off = Throw RangeFault).
Proof.
  intros Hlen p. subst p. rewrite (window8_le data off Hlen).
  destruct (word_range data off) as [Hlo _].
  destruct (word_range data (off + 4)) as [Hhi _].
  set (lo := le_value (take 4 (drop off data))) in *.
  set (hi := le_value (take 4 (drop (off + 4) data))) in *.
  unfold readU64, _readU64.
  rewrite (read_words data off false hi lo Hlen eq_refl eq_refl).
  cbn [bind fst snd]. rewrite safe_test by assumption.
  change (2 ^ 32) with 4294967296 in *. change (2 ^ 21) with 2097152 in *.
  change (2 ^ 53) with 9007199254740992.
  split; [lia|].
  destruct (Z.ltb_spec hi 2097152); cbn [assert bind]; split; intros Hp;
    try lia; try reflexivity.
  f_equal. lia.
Qed.

Lemma readVarint_fd (data : list byte) (off : nat) (tag : byte) :
  data !! off = Some tag -> u8 tag = 0xfd -> (off + 3 <= length data)%nat ->
  let p := le_value (take 2 (drop (off + 1) data)) in
  (p < 0xfd -> readVarint data off = Throw RangeFault
               /\ readVarintBN data off = Throw RangeFault)
  /\ (0xfd <= p -> readVarint data off = Ok (mkVarint 3 p)
                   /\ readVarintBN data off = Ok (mkVarint 3 p)).
Proof.
  intros Htag Hfd Hlen p.
  assert (HR : readVarint data off
               = (assert (0xfd <=? p) RangeFault ;;; Ok (mkVarint 3 p))).
  { unfold readVarint.
    rewrite nat_ltb_true by (apply lookup_lt_Some in Htag; lia).
    rewrite (buf_at_lookup _ _ _ Htag), Hfd. cbn [assert bind Z.eqb Pos.eqb].
    rewrite nat_leb_true by lia. cbn [bind].
    replace (off + 2)%nat with (off + 1 + 1)%nat by lia.
    rewrite window2 by lia. reflexivity. }
  assert (HB : readVarintBN data off
               = (result <- readVarint data off ;;
                  Ok (mkVarint (size result) (value result)))).
  { unfold readVarintBN.
    rewrite nat_ltb_true by (apply lookup_lt_Some in Htag; lia).
    rewrite (buf_at_lookup _ _ _ Htag), Hfd. reflexivity. }
  rewrite HB, HR.
  split; intros Hp; destruct (Z.leb_spec 0xfd p); try lia; split; reflexivity.
Qed.

Lemma readVarint_fe (data : list byte) (off : nat) (tag : byte) :
  data !! off = Some tag -> u8 tag = 0xfe -> (off + 5 <= length data)%nat ->
  let p := le_value (take 4 (drop (off + 1) data)) in
  (p <= 0xffff -> readVarint data off = Throw RangeFault
                  /\ readVarintBN data off = Throw RangeFault)
  /\ (0xffff < p -> readVarint data off = Ok (mkVarint 5 p)
                    /\ readVarintBN data off = Ok (mkVarint 5 p)).
Proof.
  intros Htag Hfe Hlen p.
  assert (HR : readVarint data off
               = (assert (0xffff <? p) RangeFault ;;; Ok (mkVarint 5 p))).
  { unfold readVarint.
    rewrite nat_ltb_true by (apply lookup_lt_Some in Htag; lia).
    rewrite (buf_at_lookup _ _ _ Htag), Hfe. cbn [assert bind Z.eqb Pos.eqb].
    rewrite nat_leb_true by lia. cbn [bind].
    rewrite readUInt32LE_value by lia. reflexivity. }
  assert (HB : readVarintBN data off
               = (result <- readVarint data off ;;
                  Ok (mkVarint (size result) (value result)))).
  { unfold readVarintBN.
    rewrite nat_ltb_true by (apply lookup_lt_Some in Htag; lia).
    rewrite (buf_at_lookup _ _ _ Htag), Hfe. reflexivity. }
  rewrite HB, HR.
  split; intros Hp; destruct (Z.ltb_spec 0xffff p); try lia; split; reflexivity.
Qed.

Lemma readVarint_ff (data : list byte) (off : nat) (tag : byte) :
  data !! off = Some tag -> u8 tag = 0xff -> (off + 9 <= length data)%nat ->
  let p := le_value (take 8 (drop (off + 1) data)) in
  (p <= 0xffffffff -> readVarint data off = Throw RangeFault
                      /\ readVarintBN data off = Throw RangeFault)
  /\ (0xffffffff < p ->
      readVarintBN data off = Ok (mkVarint 9 p)
      /\ (p <= 2 ^ 53 - 1 -> readVarint data off = Ok (mkVarint 9 p))
      /\ (2 ^ 53 - 1 < p -> readVarint data off = Throw RangeFault)).
Proof.
  intros Htag Hff Hlen p.
  destruct (readU64_payload data (off + 1) ltac:(lia)) as (Hp0 & Hsafe & Hbig).
  fold p in Hp0, Hsafe, Hbig.
  assert (HR : readVarint data off
               = (value <- readU64 data (off + 1) ;;
                  assert (0xffffffff <? value) RangeFault ;;;
                  Ok (mkVarint 9 value))).
  { unfold readVarint.
    rewrite nat_ltb_true by (apply lookup_lt_Some in Htag; lia).
    rewrite (buf_at_lookup _ _ _ Htag), Hff. cbn [assert bind Z.eqb Pos.eqb].
    rewrite nat_leb_true by lia. reflexivity. }
  assert (HB : readVarintBN data off
               = (assert (0xffffffff <? p) RangeFault ;;; Ok (mkVarint 9 p))).
  { unfold readVarintBN.
    rewrite nat_ltb_true by (apply lookup_lt_Some in Htag; lia).
    rewrite (buf_at_lookup _ _ _ Htag), Hff. cbn [assert bind Z.eqb Pos.eqb].
    rewrite nat_leb_true by lia. cbn [bind].
    unfold readU64BN. fold p. rewrite bitLength_gt32 by exact Hp0.
    reflexivity. }
  rewrite HB, HR. change (2 ^ 53) with 9007199254740992 in *.
  split; intros Hp.
  - rewrite Hsafe by lia. cbn [bind].
    destruct (Z.ltb_spec 0xffffffff p); try lia. split; reflexivity.
  - destruct (Z.ltb_spec 0xffffffff p); try lia.
    split; [reflexivity|]. split; intros Hq.
    + rewrite Hsafe by lia. cbn [bind].
      destruct (Z.ltb_spec 0xffffffff p); try lia. reflexivity.
    + rewrite Hbig by lia. reflexivity.
Qed.

Lemma readVarint_literal (data : list byte) (off : nat) (tag : byte) :
  data !! off = Some tag -> u8 tag < 0xfd ->
  readVarint data off = Ok (mkVarint 1 (u8 tag))
  /\ readVarintBN data off = Ok (mkVarint 1 (u8 tag)).
Proof.
  intros Htag Hlit.
  assert (HR : readVarint data off = Ok (mkVarint 1 (u8 tag))).
  { unfold readVarint.
    rewrite nat_ltb_true by (apply lookup_lt_Some in Htag; lia).
    rewrite (buf_at_lookup _ _ _ Htag). cbn [assert bind].
    destruct (Z.eqb_spec (u8 tag) 0xff); [lia|].
    destruct (Z.eqb_spec (u8 tag) 0xfe); [lia|].
    destruct (Z.eqb_spec (u8 tag) 0xfd); [lia|]. reflexivity. }
  split; [exact HR|].
  unfold readVarintBN.
  rewrite nat_ltb_true by (apply lookup_lt_Some in Htag; lia).
  rewrite (buf_at_lookup _ _ _ Htag). cbn [assert bind].
  destruct (Z.eqb_spec (u8 tag) 0xff); [lia|].
  rewrite HR. reflexivity.
Qed.

(** C2, as the code has it.  On an input that holds the whole encoding,
    [readVarint] and [readVarintBN] raise a [RangeFault] for a 0xfd tag with
    a payload below 0xfd, for a 0xfe tag with a payload of at most 0xffff
    and for a 0xff tag with a payload of at most 0xffffffff.  Otherwise
    [readVarintBN] returns the pair (size, payload), and so does
    [readVarint] except for a 0xff tag whose payload exceeds 2^53-1, where
    the native reader raises a [RangeFault]. *)
Theorem readVarint_canonical (data : list byte) (off : nat) (tag : byte) :
  data !! off = Some tag ->
  let p2 := le_value (take 2 (drop (off + 1) data)) in
  let p4 := le_value (take 4 (drop (off + 1) data)) in
  let p8 := le_value (take 8 (drop (off + 1) data)) in
  (u8 tag = 0xfd -> (off + 3 <= length data)%nat ->
     (p2 < 0xfd -> readVarint data off = Throw RangeFault
                   /\ readVarintBN data off = Throw RangeFault)
     /\ (0xfd <= p2 -> readVarint data off = Ok (mkVarint 3 p2)
                       /\ readVarintBN data off = Ok (mkVarint 3 p2)))
  /\ (u8 tag = 0xfe -> (off + 5 <= length data)%nat ->
     (p4 <= 0xffff -> readVarint data off = Throw RangeFault
                      /\ readVarintBN data off = Throw RangeFault)
     /\ (0xffff < p4 -> readVarint data off = Ok (mkVarint 5 p4)
                        /\ readVarintBN data off = Ok (mkVarint 5 p4)))
  /\ (u8 tag = 0xff -> (off + 9 <= length data)%nat ->
     (p8 <= 0xffffffff -> readVarint data off = Throw RangeFault
                          /\ readVarintBN data off = Throw RangeFault)
     /\ (0xffffffff < p8 ->
         readVarintBN data off = Ok (mkVarint 9 p8)
         /\ (p8 <= 2 ^ 53 - 1 -> readVarint data off = Ok (mkVarint 9 p8))
         /\ (2 ^ 53 - 1 < p8 -> readVarint data off = Throw RangeFault)))
  /\ (u8 tag < 0xfd ->
      readVarint data off = Ok (mkVarint 1 (u8 tag))
      /\ readVarintBN data off = Ok (mkVarint 1 (u8 tag))).
Proof.
  intros Htag p2 p4 p8. repeat apply conj.
  - intros Ht Hlen. exact (readVarint_fd data off tag Htag Ht Hlen).
  - intros Ht Hlen. exact (readVarint_fe data off tag Htag Ht Hlen).
  - intros Ht Hlen. exact (readVarint_ff data off tag Htag Ht Hlen).
  - intros Ht. exact (readVarint_literal data off tag Htag Ht).
Qed.

Lemma readVarint_canonical_witness :
  readVarint [xfd; xfc; x00] 0 = Throw RangeFault
  /\ readVarint [xfd; x2c; x01] 0 = Ok (mkVarint 3 300)
  /\ readVarintBN [xfe; xff; xff; x00; x00] 0 = Throw RangeFault
  /\ readVarintBN [xff; x00; x00; x00; x00; x00; x00; x20; x00] 0
     = Ok (mkVarint 9 (2 ^ 53))
  /\ readVarint [x07] 0 = Ok (mkVarint 1 7).
Proof.
  repeat apply conj.
  - pose proof (readVarint_canonical [xfd; xfc; x00] 0 xfd eq_refl) as H.
    cbv zeta in H. destruct H as (H & _).
    destruct (H eq_refl ltac:(vm_compute; lia)) as [Hlow _].
    exact (proj1 (Hlow ltac:(vm_compute; reflexivity))).
  - pose proof (readVarint_canonical [xfd; x2c; x01] 0 xfd eq_refl) as H.
    cbv zeta in H. destruct H as (H & _).
    destruct (H eq_refl ltac:(vm_compute; lia)) as [_ Hhigh].
    exact (proj1 (Hhigh ltac:(vm_compute; discriminate))).
  - pose proof (readVarint_canonical [xfe; xff; xff; x00; x00] 0 xfe eq_refl) as H.
    cbv zeta in H. destruct H as (_ & H & _).
    destruct (H eq_refl ltac:(vm_compute; lia)) as [Hlow _].
    exact (proj2 (Hlow ltac:(vm_compute; discriminate))).
  - pose proof (readVarint_canonical
                  [xff; x00; x00; x00; x00; x00; x00; x20; x00] 0 xff eq_refl) as H.
    cbv zeta in H. destruct H as (_ & _ & H & _).
    destruct (H eq_refl ltac:(vm_compute; lia)) as [_ Hhigh].
    exact (proj1 (Hhigh ltac:(vm_compute; reflexivity))).
  - pose proof (readVarint_canonical [x07] 0 x07 eq_refl) as H.
    cbv zeta in H. destruct H as (_ & _ & _ & H).
    exact (proj1 (H ltac:(vm_compute; reflexivity))).
Defined.

(** C2 as stated fails: a 0xff tag followed by the payload 2^53, which is
    above 0xffffffff, is not decoded to a pair by [readVarint]. *)
Lemma readVarint_rejects_payload_above_safe :
  [xff; x00; x00; x00; x00; x00; x00; x20; x00] !! 0%nat = Some xff
  /\ 0xffffffff
     < le_value (take 8 (drop 1 [xff; x00; x00; x00; x00; x00; x00; x20; x00]))
  /\ readVarint [xff; x00; x00; x00; x00; x00; x00; x20; x00] 0
     = Throw RangeFault.
Proof. repeat split. Qed.

(** C10.  With [off] inside the buffer, [skipVarint] answers 9, 5, 3 or 1
    from the tag byte alone and never faults, whatever the number of bytes
    that follow. *)
Theorem skipVarint_by_tag (data : list byte) (off : nat) :
  (off < length data)%nat ->
  exists tag,
    data !! off = Some tag
    /\ (u8 tag = 0xff -> skipVarint data off = Ok 9%nat)
    /\ (u8 tag = 0xfe -> skipVarint data off = Ok 5%nat)
    /\ (u8 tag = 0xfd -> skipVarint data off = Ok 3%nat)
    /\ (u8 tag < 0xfd -> skipVarint data off = Ok 1%nat).
Proof.
  intros Hoff.
  destruct (lookup_lt_is_Some_2 data off Hoff) as [tag Htag].
  exists tag. split; [exact Htag|].
  unfold skipVarint. rewrite nat_ltb_true by exact Hoff.
  rewrite (buf_at_lookup _ _ _ Htag). cbn [assert bind].
  repeat split; intros Ht.
  - rewrite Ht. reflexivity.
  - rewrite Ht. reflexivity.
  - rewrite Ht. reflexivity.
  - destruct (Z.eqb_spec (u8 tag) 0xff); [lia|].
    destruct (Z.eqb_spec (u8 tag) 0xfe); [lia|].
    destruct (Z.eqb_spec (u8 tag) 0xfd); [lia|]. reflexivity.
Qed.

Lemma skipVarint_by_tag_witness :
  skipVarint [xff] 0 = Ok 9%nat /\ (length [xff] < 0 + 9)%nat.
Proof.
  split.
  - destruct (skipVarint_by_tag [xff] 0 ltac:(vm_compute; lia))
      as (tag & Htag & Hff & _).
    apply Hff. injection Htag as <-. reflexivity.
  - vm_compute. lia.
Defined.

(** ** Varint-B: one turn of the loops *)

Lemma cont_bit (b : byte) :
  (js_and (u8 b) 0x80 =? 0) = (u8 b <? 128).
Proof. destruct b; reflexivity. Qed.

(** The digit [(num & 0x7f) | flag] of the encoders. *)
Lemma digit_value (num : Z) (flag : Z) :
  flag = 0x00 \/ flag = 0x80 ->
  js_or (js_and num 0x7f) flag = num mod 128 + flag.
Proof.
  intros Hf. rewrite js_and_0x7f. unfold js_or.
  pose proof (Z.mod_pos_bound num 128 ltac:(lia)) as Hm.
  rewrite (ToInt32_small (num mod 128)) by (change (2 ^ 31) with 2147483648; lia).
  destruct Hf as [-> | ->].
  - change (ToInt32 0) with 0. rewrite Z.lor_0_r. lia.
  - change (ToInt32 128) with (Z.shiftl 1 7).
    rewrite <- Z.lxor_lor, <- Z.add_nocarry_lxor;
      try (apply land_low_shifted; change (2 ^ 7) with 128; lia).
    reflexivity.
Qed.

Lemma readVarint2_loop_step (b : byte) (rest : list byte) (num : Z) (sz : nat) :
  readVarint2_loop (b :: rest) num sz
  = if num <? 0x3fffffffffff then
      if u8 b <? 128 then Ok (mkVarint (S sz) (num * 128 + u8 b))
      else readVarint2_loop rest (num * 128 + (u8 b - 128) + 1) (S sz)
    else Throw RangeFault.
Proof.
  cbn [readVarint2_loop]. rewrite cont_bit, js_and_0x7f.
  pose proof (u8_range b) as Hb.
  destruct (num <? 0x3fffffffffff); cbn [assert bind]; [|reflexivity].
  destruct (Z.ltb_spec (u8 b) 128).
  - rewrite Z.mod_small by lia. reflexivity.
  - replace (u8 b mod 128) with (u8 b - 128)
      by (Z.div_mod_to_equations; lia).
    reflexivity.
Qed.

Lemma bitLength_le (v k : Z) :
  0 <= k -> (bitLength v <= k <-> Z.abs v < 2 ^ k).
Proof.
  intros Hk. unfold bitLength.
  destruct (Z.eqb_spec v 0) as [->|Hnz].
  - cbn [Z.abs]. pose proof (Z.pow_pos_nonneg 2 k ltac:(lia) Hk). lia.
  - pose proof (Z.log2_lt_pow2 (Z.abs v) k ltac:(lia)). lia.
Qed.

Lemma readVarint2BN_loop_high (rest : list byte) (A : Z) (sz : nat) :
  0x3fffffffffff <= A ->
  readVarint2BN_loop rest A sz = readVarint2BN_big rest A sz.
Proof.
  intros HA. destruct rest as [|b rest]; cbn [readVarint2BN_loop];
    destruct (Z.ltb_spec A 0x3fffffffffff); try lia; reflexivity.
Qed.

(** Below 2^64 the big-integer decoder takes every accumulation step. *)
Lemma readVarint2BN_loop_step (b : byte) (rest : list byte) (A : Z) (sz : nat) :
  0 <= A < 2 ^ 64 ->
  readVarint2BN_loop (b :: rest) A sz
  = if u8 b <? 128 then Ok (mkVarint (S sz) (A * 128 + u8 b))
    else readVarint2BN_loop rest (A * 128 + (u8 b - 128) + 1) (S sz).
Proof.
  intros HA. pose proof (u8_range b) as Hb.
  assert (Hm : u8 b mod 128 = if u8 b <? 128 then u8 b else u8 b - 128).
  { destruct (Z.ltb_spec (u8 b) 128); Z.div_mod_to_equations; lia. }
  cbn [readVarint2BN_loop].
  destruct (Z.ltb_spec A 0x3fffffffffff) as [Hlow|Hhigh].
  - rewrite cont_bit, js_and_0x7f, Hm.
    destruct (u8 b <? 128); reflexivity.
  - cbn [readVarint2BN_big]. rewrite cont_bit, js_and_0x7f, Hm.
    assert (Hbl : bitLength A <= 64) by (apply bitLength_le; lia).
    destruct (Z.leb_spec (bitLength A) 64); [|lia]. cbn [assert bind].
    rewrite Z.shiftl_mul_pow2 by lia. change (2 ^ 7) with 128.
    destruct (u8 b <? 128); [reflexivity|].
    symmetry. apply readVarint2BN_loop_high. lia.
Qed.

Lemma arr_set_push (tmp : list Z) (x : Z) :
  arr_set tmp (length tmp) x = tmp ++ [x].
Proof.
  unfold arr_set. rewrite nat_ltb_false by lia.
  rewrite Nat.sub_diag. reflexivity.
Qed.

Lemma writeVarint2_next (num : Z) :
  0x7f < num ->
  (num - Z.rem num 0x80) / 0x80 - 1 = num / 128 - 1
  /\ 0 <= num / 128 - 1.
Proof.
  intros Hn. rewrite Z.rem_mod_nonneg by lia.
  Z.div_mod_to_equations. lia.
Qed.

(** ** Varint-B: the digit loop terminates *)

Lemma writeVarint2_digits_enough (fuel : nat) (tmp : list Z) (len : nat) (num : Z) :
  Z.log2 num < Z.of_nat fuel ->
  exists r, writeVarint2_digits fuel tmp len num = Some r.
Proof.
  revert tmp len num.
  induction fuel as [|fuel IH]; intros tmp len num Hf.
  - pose proof (Z.log2_nonneg num). lia.
  - cbn [writeVarint2_digits].
    destruct (Z.leb_spec num 0x7f) as [Hle|Hgt]; [eauto|].
    apply IH.
    destruct (writeVarint2_next num Hgt) as [-> Hnn].
    apply log2_next; assumption.
Qed.

Lemma writeVarint2_digits_total (tmp : list Z) (len : nat) (num : Z) :
  exists r, writeVarint2_digits (loop_fuel num) tmp len num = Some r.
Proof.
  apply writeVarint2_digits_enough. unfold loop_fuel.
  pose proof (Z.log2_nonneg num). lia.
Qed.

(** [sizeVarint2] counts the digits [writeVarint2] produces. *)
Lemma sizeVarint2_loop_digits (fuel : nat) (tmp : list Z) (len : nat) (num : Z)
  (sz : nat) :
  match writeVarint2_digits fuel tmp len num with
  | Some (_, len') =>
      (len <= len')%nat
      /\ sizeVarint2_loop fuel sz num = Ok (sz + (len' - len) + 1)%nat
  | None => sizeVarint2_loop fuel sz num = OutOfFuel
  end.
Proof.
  revert tmp len num sz.
  induction fuel as [|fuel IH]; intros tmp len num sz;
    cbn [writeVarint2_digits sizeVarint2_loop]; [reflexivity|].
  destruct (num <=? 0x7f).
  - split; [lia|]. f_equal. lia.
  - specialize (IH (arr_set tmp len
                      (js_or (js_and num 0x7f)
                         (match len with O => 0x00 | S _ => 0x80 end)))
                   (S len) ((num - Z.rem num 0x80) / 0x80 - 1) (S sz)).
    destruct (writeVarint2_digits fuel _ (S len) _) as [[tmp' len']|].
    + destruct IH as [Hle ->]. split; [lia|]. f_equal. lia.
    + exact IH.
Qed.

Lemma sizeVarint2_total (num : Z) : exists sz, sizeVarint2 num = Ok sz.
Proof.
  unfold sizeVarint2.
  pose proof (sizeVarint2_loop_digits (loop_fuel num) [] 0 num 0) as H.
  destruct (writeVarint2_digits_total [] 0 num) as [[tmp' len'] E].
  rewrite E in H. destruct H as [_ ->]. eauto.
Qed.

(** ** Varint-B: decoding what the encoder produced *)

Lemma u8_digit (d : Z) : 0 <= d < 256 -> u8 (to_u8 d) = d.
Proof. intros Hd. rewrite u8_to_u8. apply Z.mod_small. exact Hd. Qed.

(** The digits above the lowest one all carry the continuation flag; read
    from an empty accumulator they rebuild [num + 1]. *)
Lemma digits_decode (fuel : nat) (tmp : list Z) (len : nat) (num : Z)
  (tmp' : list Z) (len' : nat) :
  len = length tmp -> len <> 0%nat ->
  0 <= num < 2 ^ 53 - 128 ->
  writeVarint2_digits fuel tmp len num = Some (tmp', len') ->
  exists ds,
    tmp' = tmp ++ ds /\ S len' = length tmp'
    /\ forall rest sz,
        readVarint2_loop (map to_u8 (rev ds) ++ rest) 0 sz
        = readVarint2_loop rest (num + 1) (sz + length ds)%nat.
Proof.
  revert tmp len num.
  induction fuel as [|fuel IH]; intros tmp len num Hlen Hnz Hnum;
    cbn [writeVarint2_digits]; [discriminate|].
  subst len. rewrite arr_set_push.
  destruct (length tmp) as [|k] eqn:Ek; [congruence|]. rewrite <- Ek.
  rewrite digit_value by auto.
  change (2 ^ 53) with 9007199254740992 in Hnum.
  pose proof (Z.mod_pos_bound num 128 ltac:(lia)) as Hm.
  destruct (Z.leb_spec num 0x7f) as [Hle|Hgt].
  - intros [= <- <-]. exists [num mod 128 + 128].
    split; [reflexivity|]. split; [rewrite length_app; cbn [length]; lia|].
    intros rest sz. cbn [rev app map length].
    rewrite readVarint2_loop_step, u8_digit by lia. cbn [Z.ltb Z.compare].
    destruct (Z.ltb_spec (num mod 128 + 128) 128); [lia|].
    rewrite Z.mod_small by lia. f_equal; lia.
  - intros Hrec.
    destruct (writeVarint2_next num Hgt) as [Hnext Hnn]. rewrite Hnext in Hrec.
    apply IH in Hrec.
    2:{ rewrite length_app. cbn [length]. lia. }
    2:{ lia. }
    2:{ change (2 ^ 53) with 9007199254740992. Z.div_mod_to_equations. lia. }
    destruct Hrec as (ds & -> & Hl & Hdec).
    exists ((num mod 128 + 128) :: ds).
    split; [rewrite <- app_assoc; reflexivity|]. split; [exact Hl|].
    intros rest sz. cbn [rev length]. rewrite map_app, <- app_assoc.
    cbn [map app]. rewrite Hdec.
    rewrite readVarint2_loop_step, u8_digit by lia.
    destruct (Z.ltb_spec (num / 128 - 1 + 1) 0x3fffffffffff);
      [|Z.div_mod_to_equations; lia].
    destruct (Z.ltb_spec (num mod 128 + 128) 128); [lia|].
    f_equal; [Z.div_mod_to_equations; lia | lia].
Qed.

Lemma writeVarint2_digits_decode (fuel : nat) (n : Z) (tmp' : list Z) (len' : nat) :
  0 <= n < 2 ^ 53 - 128 ->
  writeVarint2_digits fuel [] 0%nat n = Some (tmp', len') ->
  S len' = length tmp'
  /\ forall rest,
      readVarint2_loop (map to_u8 (rev tmp') ++ rest) 0 0%nat
      = Ok (mkVarint (length tmp') n).
Proof.
  intros Hn. destruct fuel as [|fuel]; cbn [writeVarint2_digits]; [discriminate|].
  rewrite (arr_set_push []).
  rewrite digit_value by auto. rewrite Z.add_0_r.
  change (2 ^ 53) with 9007199254740992 in Hn.
  pose proof (Z.mod_pos_bound n 128 ltac:(lia)) as Hm.
  destruct (Z.leb_spec n 0x7f) as [Hle|Hgt].
  - intros [= <- <-]. split; [reflexivity|]. intros rest.
    cbn [rev app map length].
    rewrite readVarint2_loop_step, u8_digit by lia. cbn [Z.ltb Z.compare].
    destruct (Z.ltb_spec (n mod 128) 128); [|lia].
    rewrite Z.mod_small by lia. reflexivity.
  - intros Hrec.
    destruct (writeVarint2_next n Hgt) as [Hnext Hnn]. rewrite Hnext in Hrec.
    apply digits_decode in Hrec; [|reflexivity|discriminate|].
    2:{ change (2 ^ 53) with 9007199254740992. Z.div_mod_to_equations. lia. }
    destruct Hrec as (ds & -> & Hl & Hdec).
    split; [exact Hl|]. intros rest.
    cbn [app rev length]. rewrite map_app, <- app_assoc. cbn [map app].
    rewrite Hdec.
    rewrite readVarint2_loop_step, u8_digit by lia.
    destruct (Z.ltb_spec (n / 128 - 1 + 1) 0x3fffffffffff);
      [|Z.div_mod_to_equations; lia].
    destruct (Z.ltb_spec (n mod 128) 128); [|lia].
    f_equal. f_equal. Z.div_mod_to_equations. lia.
Qed.

(** The emission loop stores [tmp[len]], ..., [tmp[0]] in that order. *)
Lemma emit_digits_write_seq (tmp : list Z) (len : nat) (dst : list byte) (off : nat) :
  (len < length tmp)%nat ->
  emit_digits dst off tmp len = write_seq dst off (rev (take (S len) tmp)).
Proof.
  revert dst off. induction len as [|len IH]; intros dst off Hlen.
  - destruct tmp as [|x tmp]; [cbn [length] in Hlen; lia|]. reflexivity.
  - cbn [emit_digits]. rewrite IH by lia.
    destruct (lookup_lt_is_Some_2 tmp (S len) Hlen) as [x Hx].
    rewrite (take_S_r tmp (S len) x Hx), rev_app_distr. cbn [rev app write_seq].
    rewrite (nth_lookup_Some _ _ _ _ Hx). reflexivity.
Qed.

Lemma writeVarint2_layout (dst : list byte) (n : Z) (off : nat)
  (tmp' : list Z) (len' : nat) :
  writeVarint2_digits (loop_fuel n) [] 0%nat n = Some (tmp', len') ->
  S len' = length tmp' ->
  (off + length tmp' <= length dst)%nat ->
  fst (writeVarint2 dst n (Some off)) = Ok (off + length tmp')%nat
  /\ drop off (snd (writeVarint2 dst n (Some off)))
     = map to_u8 (rev tmp') ++ drop (off + length tmp') dst.
Proof.
  intros E Hl Hlen. unfold writeVarint2. rewrite E.
  rewrite nat_leb_true by lia. cbn [negb].
  rewrite emit_digits_write_seq by lia.
  rewrite Hl, take_ge by lia.
  pose proof (write_seq_snd (rev tmp') dst off) as Hs.
  pose proof (write_seq_drop (rev tmp') dst off) as Hd.
  rewrite length_rev in Hs, Hd. specialize (Hd Hlen).
  destruct (write_seq dst off (rev tmp')) as [dst' off'].
  cbn [fst snd] in *. subst off'. split; [reflexivity|exact Hd].
Qed.

Lemma varint2_safe_roundtrip (n : Z) :
  0 <= n < 2 ^ 53 - 128 ->
  exists sz,
    sizeVarint2 n = Ok sz
    /\ forall (dst : list byte) (off : nat),
        (off + sz <= length dst)%nat ->
        fst (writeVarint2 dst n (Some off)) = Ok (off + sz)%nat
        /\ readVarint2 (snd (writeVarint2 dst n (Some off))) off
           = Ok (mkVarint sz n).
Proof.
  intros Hn.
  destruct (writeVarint2_digits_total [] 0 n) as [[tmp' len'] E].
  pose proof (sizeVarint2_loop_digits (loop_fuel n) [] 0 n 0) as Hsz.
  rewrite E in Hsz. destruct Hsz as [_ Hsz].
  destruct (writeVarint2_digits_decode _ n tmp' len' Hn E) as [Hl Hdec].
  exists (length tmp'). split.
  - unfold sizeVarint2. rewrite Hsz. f_equal. lia.
  - intros dst off Hlen.
    destruct (writeVarint2_layout dst n off tmp' len' E Hl Hlen) as [Hw Hd].
    split; [exact Hw|].
    unfold readVarint2. rewrite Hd. apply Hdec.
Qed.

(** C4.  For every [n] in [0, 10^6], which covers the boundary values 0,
    127, 128, 16511 and 16512, [sizeVarint2 n] is defined and, on a buffer
    with room for that many bytes from [off], [writeVarint2] returns
    [off + sizeVarint2 n] and [readVarint2] at [off] then returns the pair
    of that size and [n]. *)
Theorem varint2_roundtrip (n : Z) :
  0 <= n <= 10 ^ 6 ->
  exists sz,
    sizeVarint2 n = Ok sz
    /\ forall (dst : list byte) (off : nat),
        (off + sz <= length dst)%nat ->
        fst (writeVarint2 dst n (Some off)) = Ok (off + sz)%nat
        /\ readVarint2 (snd (writeVarint2 dst n (Some off))) off
           = Ok (mkVarint sz n).
Proof.
  intros Hn. apply varint2_safe_roundtrip.
  change (10 ^ 6) with 1000000 in Hn. change (2 ^ 53) with 9007199254740992.
  lia.
Qed.

Lemma varint2_roundtrip_witness :
  readVarint2 (snd (writeVarint2 (replicate 4 x00) 16512 (Some 1%nat))) 1
  = Ok (mkVarint 3 16512).
Proof.
  destruct (varint2_roundtrip 16512 ltac:(vm_compute; split; discriminate))
    as (sz & Hsz & H).
  assert (Esz : sz = 3%nat) by (vm_compute in Hsz; congruence).
  subst sz.
  exact (proj2 (H (replicate 4 x00) 1%nat ltac:(vm_compute; lia))).
Defined.

(** ** Varint-B: the native decoder and the safe-integer limit *)

Lemma readVarint2_loop_limit (b : byte) (rest : list byte) (num : Z) (sz : nat) :
  0x3fffffffffff <= num ->
  readVarint2_loop (b :: rest) num sz = Throw RangeFault.
Proof.
  intros Hnum. rewrite readVarint2_loop_step.
  destruct (Z.ltb_spec num 0x3fffffffffff); [lia|reflexivity].
Qed.

(** The 128 values from 2^53-128 to 2^53-1: their digits above the lowest
    rebuild the accumulator 2^46-1, at which the decoder stops. *)
Lemma writeVarint2_digits_rejected (fuel : nat) (n : Z) (tmp' : list Z) (len' : nat) :
  2 ^ 53 - 128 <= n <= 2 ^ 53 - 1 ->
  writeVarint2_digits fuel [] 0%nat n = Some (tmp', len') ->
  S len' = length tmp'
  /\ forall rest,
      readVarint2_loop (map to_u8 (rev tmp') ++ rest) 0 0%nat
      = Throw RangeFault.
Proof.
  intros Hn. destruct fuel as [|fuel]; cbn [writeVarint2_digits]; [discriminate|].
  rewrite (arr_set_push []).
  rewrite digit_value by auto. rewrite Z.add_0_r.
  change (2 ^ 53) with 9007199254740992 in Hn.
  destruct (Z.leb_spec n 0x7f) as [Hle|Hgt]; [lia|].
  intros Hrec.
  destruct (writeVarint2_next n Hgt) as [Hnext Hnn]. rewrite Hnext in Hrec.
  apply digits_decode in Hrec; [|reflexivity|discriminate|].
  2:{ change (2 ^ 53) with 9007199254740992. Z.div_mod_to_equations. lia. }
  destruct Hrec as (ds & -> & Hl & Hdec).
  split; [exact Hl|]. intros rest.
  cbn [app rev length]. rewrite map_app, <- app_assoc. cbn [map app].
  rewrite Hdec. apply readVarint2_loop_limit.
  Z.div_mod_to_equations. lia.
Qed.

Lemma varint2_top_rejected (n : Z) (sz : nat) (dst : list byte) (off : nat) :
  2 ^ 53 - 128 <= n <= 2 ^ 53 - 1 ->
  sizeVarint2 n = Ok sz ->
  (off + sz <= length dst)%nat ->
  readVarint2 (snd (writeVarint2 dst n (Some off))) off = Throw RangeFault.
Proof.
  intros Hn Hsz Hlen.
  destruct (writeVarint2_digits_total [] 0 n) as [[tmp' len'] E].
  pose proof (sizeVarint2_loop_digits (loop_fuel n) [] 0 n 0) as H.
  rewrite E in H. destruct H as [_ H].
  unfold sizeVarint2 in Hsz. rewrite H in Hsz. injection Hsz as <-.
  destruct (writeVarint2_digits_rejected _ n tmp' len' Hn E) as [Hl Hdec].
  destruct (writeVarint2_layout dst n off tmp' len' E Hl ltac:(lia)) as [_ Hd].
  unfold readVarint2. rewrite Hd. apply Hdec.
Qed.

Lemma readVarint2_loop_exceeds (rest : list byte) (num : Z) (sz : nat) :
  0 <= num -> exceeds_safe rest num = true ->
  readVarint2_loop rest num sz = Throw RangeFault.
Proof.
  revert num sz. induction rest as [|b rest IH]; intros num sz Hnum Hex.
  - discriminate.
  - cbn [exceeds_safe] in Hex. rewrite cont_bit, js_and_0x7f in Hex.
    rewrite readVarint2_loop_step.
    pose proof (u8_range b) as Hb. unfold MAX_SAFE_INTEGER in Hex.
    destruct (Z.ltb_spec num 0x3fffffffffff) as [Hlt|Hge]; [|reflexivity].
    destruct (Z.ltb_spec 0x1fffffffffffff (num * 128 + u8 b mod 128)) as [Hbig|_];
      [Z.div_mod_to_equations; lia|].
    cbn [orb] in Hex.
    destruct (Z.ltb_spec (u8 b) 128) as [Hc|Hc]; [discriminate|].
    replace (u8 b mod 128) with (u8 b - 128) in Hex
      by (Z.div_mod_to_equations; lia).
    apply IH; [lia|exact Hex].
Qed.

Lemma readVarint2_loop_value (rest : list byte) (num : Z) (sz : nat) (v : Varint) :
  0 <= num -> readVarint2_loop rest num sz = Ok v ->
  0 <= value v <= 2 ^ 53 - 129.
Proof.
  revert num sz. induction rest as [|b rest IH]; intros num sz Hnum.
  - discriminate.
  - rewrite readVarint2_loop_step. pose proof (u8_range b) as Hb.
    destruct (Z.ltb_spec num 0x3fffffffffff) as [Hlt|Hge]; [|discriminate].
    destruct (Z.ltb_spec (u8 b) 128) as [Hc|Hc].
    + intros [= <-]. cbn [value]. change (2 ^ 53) with 9007199254740992. lia.
    + apply IH. lia.
Qed.

(** ** Varint-B: which fault a decoder raises, and when *)

Lemma varint2_acc_cons (num : Z) (b : byte) (bs : list byte) :
  varint2_acc num (b :: bs) = varint2_acc (num * 128 + u8 b mod 128 + 1) bs.
Proof. unfold varint2_acc. cbn [fold_left]. rewrite js_and_0x7f. reflexivity. Qed.

Lemma varint2_acc_grows (bs : list byte) (num : Z) :
  0 <= num -> num <= varint2_acc num bs.
Proof.
  revert num. induction bs as [|b bs IH]; intros num Hnum.
  - unfold varint2_acc. cbn [fold_left]. lia.
  - rewrite varint2_acc_cons.
    pose proof (Z.mod_pos_bound (u8 b) 128 ltac:(lia)) as Hm.
    specialize (IH (num * 128 + u8 b mod 128 + 1) ltac:(lia)). lia.
Qed.


Lemma continuation_prefix (rest : list byte) :
  Forall (fun c => 128 <= u8 c) rest
  \/ exists bs b tail,
      rest = bs ++ b :: tail /\ Forall (fun c => 128 <= u8 c) bs /\ u8 b < 128.
Proof.
  induction rest as [|c rest IH]; [left; constructor|].
  destruct (Z.ltb_spec (u8 c) 128) as [Hc|Hc].
  - right. exists [], c, rest. repeat split; [constructor|exact Hc].
  - destruct IH as [Hall|(bs & b & tail & -> & Hall & Hb)].
    + left. constructor; assumption.
    + right. exists (c :: bs), b, tail.
      repeat split; [constructor; assumption|exact Hb].
Qed.

Section FlaggedRun.

(** A decoding loop that faults on an empty input, takes the accumulation
    step below [bound] and raises a [RangeFault] from [bound] on. *)
Variable loop : list byte -> Z -> nat -> result Varint.
Variable bound : Z.
Hypothesis bound_pos : 0 < bound.
Hypothesis loop_nil :
  forall (A : Z) (sz : nat), loop [] A sz = Throw BoundsFault.
Hypothesis loop_step :
  forall (b : byte) (rest : list byte) (A : Z) (sz : nat),
    0 <= A < bound ->
    loop (b :: rest) A sz
    = if u8 b <? 128 then Ok (mkVarint (S sz) (A * 128 + u8 b))
      else loop rest (A * 128 + (u8 b - 128) + 1) (S sz).
Hypothesis loop_limit :
  forall (b : byte) (rest : list byte) (A : Z) (sz : nat),
    bound <= A -> loop (b :: rest) A sz = Throw RangeFault.

Lemma run_pass (bs rest : list byte) (A : Z) (sz : nat) :
  Forall (fun c => 128 <= u8 c) bs -> 0 <= A ->
  varint2_acc A bs < bound ->
  loop (bs ++ rest) A sz = loop rest (varint2_acc A bs) (sz + length bs)%nat.
Proof.
  intros Hall. revert A sz.
  induction Hall as [|b bs Hb _ IH]; intros A sz HA Hacc.
  - unfold varint2_acc. cbn [fold_left app length]. f_equal. lia.
  - rewrite varint2_acc_cons in *. pose proof (u8_range b) as Rb.
    assert (Hm : u8 b mod 128 = u8 b - 128) by (Z.div_mod_to_equations; lia).
    rewrite Hm in *.
    pose proof (varint2_acc_grows bs (A * 128 + (u8 b - 128) + 1) ltac:(lia)) as Hg.
    cbn [app length]. rewrite loop_step by lia.
    destruct (Z.ltb_spec (u8 b) 128); [lia|].
    rewrite IH by (try lia; exact Hacc). f_equal. lia.
Qed.

Lemma run_fault (bs : list byte) (b : byte) (rest : list byte) (A : Z) (sz : nat) :
  Forall (fun c => 128 <= u8 c) bs -> 0 <= A ->
  bound <= varint2_acc A bs ->
  loop (bs ++ b :: rest) A sz = Throw RangeFault.
Proof.
  intros Hall. revert A sz.
  induction Hall as [|c bs Hc _ IH]; intros A sz HA Hacc.
  - unfold varint2_acc in Hacc. cbn [fold_left] in Hacc.
    apply loop_limit. exact Hacc.
  - rewrite varint2_acc_cons in Hacc. pose proof (u8_range c) as Rc.
    assert (Hm : u8 c mod 128 = u8 c - 128) by (Z.div_mod_to_equations; lia).
    rewrite Hm in Hacc. cbn [app].
    destruct (Z.lt_ge_cases A bound) as [Hlt|Hge]; [|apply loop_limit; exact Hge].
    rewrite loop_step by lia.
    destruct (Z.ltb_spec (u8 c) 128); [lia|].
    apply IH; [lia|exact Hacc].
Qed.

(** The outcome when a terminal byte follows the continuation bytes. *)
Lemma run_terminal (bs : list byte) (b : byte) (tail : list byte) :
  Forall (fun c => 128 <= u8 c) bs -> u8 b < 128 ->
  loop (bs ++ b :: tail) 0 0%nat
  = if bound <=? varint2_acc 0 bs then Throw RangeFault
    else Ok (mkVarint (S (length bs)) (varint2_acc 0 bs * 128 + u8 b)).
Proof.
  intros Hall Hb.
  destruct (Z.leb_spec bound (varint2_acc 0 bs)) as [Hge|Hlt].
  - apply run_fault; [exact Hall|lia|exact Hge].
  - rewrite run_pass by (try lia; assumption).
    pose proof (varint2_acc_grows bs 0 ltac:(lia)) as Hg.
    rewrite loop_step by lia.
    destruct (Z.ltb_spec (u8 b) 128); [|lia]. reflexivity.
Qed.

(** The outcome when every byte left carries the continuation flag. *)
Lemma run_truncated (rest : list byte) :
  Forall (fun c => 128 <= u8 c) rest ->
  loop rest 0 0%nat
  = Throw (if bound <=? varint2_acc 0 (take (length rest - 1) rest)
           then RangeFault else BoundsFault).
Proof.
  intros Hall.
  induction rest as [|c0 rest0 _] using rev_ind.
  - change (take (length (@nil byte) - 1) []) with (@nil byte).
    change (varint2_acc 0 []) with 0.
    destruct (Z.leb_spec bound 0); [lia|]. apply loop_nil.
  - apply Forall_app in Hall. destruct Hall as [Hall Hc].
    apply Forall_cons in Hc. destruct Hc as [Hc _].
    rewrite length_app. cbn [length].
    replace (length rest0 + 1 - 1)%nat with (length rest0) by lia.
    rewrite take_app_length.
    destruct (Z.leb_spec bound (varint2_acc 0 rest0)) as [Hge|Hlt].
    + apply run_fault; [exact Hall|lia|exact Hge].
    + rewrite run_pass by (try lia; assumption).
      pose proof (varint2_acc_grows rest0 0 ltac:(lia)) as Hg.
      rewrite loop_step by lia.
      destruct (Z.ltb_spec (u8 c0) 128); [lia|]. apply loop_nil.
Qed.

(** A [RangeFault] is raised exactly when some byte is reached, through
    continuation bytes only, with an accumulator of [bound] or more. *)
Lemma run_range_fault (rest : list byte) :
  loop rest 0 0%nat = Throw RangeFault
  <-> exists bs b tail,
        rest = bs ++ b :: tail /\ Forall (fun c => 128 <= u8 c) bs
        /\ bound <= varint2_acc 0 bs.
Proof.
  split.
  - intros H. destruct (continuation_prefix rest) as [Hall|(bs & b & tail & E & Hall & Hb)].
    + rewrite (run_truncated rest Hall) in H.
      destruct (Z.leb_spec bound (varint2_acc 0 (take (length rest - 1) rest)))
        as [Hge|_]; [|discriminate].
      revert Hall Hge. induction rest as [|c0 rest0 _] using rev_ind;
        intros Hall Hge.
      { change (take (length (@nil byte) - 1) []) with (@nil byte) in Hge.
        change (varint2_acc 0 []) with 0 in Hge. lia. }
      rewrite length_app in Hge. cbn [length] in Hge.
      replace (length rest0 + 1 - 1)%nat with (length rest0) in Hge by lia.
      rewrite take_app_length in Hge.
      apply Forall_app in Hall. destruct Hall as [Hall _].
      exists rest0, c0, []. repeat split; assumption.
    + subst rest. rewrite (run_terminal bs b tail Hall Hb) in H.
      destruct (Z.leb_spec bound (varint2_acc 0 bs)) as [Hge|_]; [|discriminate].
      exists bs, b, tail. repeat split; assumption.
  - intros (bs & b & tail & -> & Hall & Hge).
    apply run_fault; [exact Hall|lia|exact Hge].
Qed.

End FlaggedRun.



Lemma readVarint2_loop_below (b : byte) (rest : list byte) (A : Z) (sz : nat) :
  0 <= A < 0x3fffffffffff ->
  readVarint2_loop (b :: rest) A sz
  = if u8 b <? 128 then Ok (mkVarint (S sz) (A * 128 + u8 b))
    else readVarint2_loop rest (A * 128 + (u8 b - 128) + 1) (S sz).
Proof.
  intros HA. rewrite readVarint2_loop_step.
  destruct (Z.ltb_spec A 0x3fffffffffff); [reflexivity|lia].
Qed.

Lemma readVarint2_loop_terminal (bs : list byte) (b : byte) (tail : list byte) :
  Forall (fun c => 128 <= u8 c) bs -> u8 b < 128 ->
  readVarint2_loop (bs ++ b :: tail) 0 0%nat
  = if 0x3fffffffffff <=? varint2_acc 0 bs then Throw RangeFault
    else Ok (mkVarint (S (length bs)) (varint2_acc 0 bs * 128 + u8 b)).
Proof.
  apply (run_terminal readVarint2_loop 0x3fffffffffff);
    first [ lia | exact readVarint2_loop_below | exact readVarint2_loop_limit ].
Qed.




(** ** Varint-B: the accumulated values of what the encoder produced *)

Lemma exceeds_safe_step (b : byte) (rest : list byte) (A : Z) :
  exceeds_safe (b :: rest) A
  = (0x1fffffffffffff <? A * 128 + u8 b mod 128)
    || (if u8 b <? 128 then false
        else exceeds_safe rest (A * 128 + u8 b mod 128 + 1)).
Proof. cbn [exceeds_safe]. rewrite cont_bit, js_and_0x7f. reflexivity. Qed.

Lemma digits_within_safe (fuel : nat) (tmp : list Z) (len : nat) (num : Z)
  (tmp' : list Z) (len' : nat) :
  len = length tmp -> len <> 0%nat ->
  0 <= num <= 2 ^ 53 - 1 ->
  writeVarint2_digits fuel tmp len num = Some (tmp', len') ->
  exists ds,
    tmp' = tmp ++ ds /\ S len' = length tmp'
    /\ forall rest,
        exceeds_safe (map to_u8 (rev ds) ++ rest) 0
        = exceeds_safe rest (num + 1).
Proof.
  change (2 ^ 53) with 9007199254740992.
  revert tmp len num.
  induction fuel as [|fuel IH]; intros tmp len num Hlen Hnz Hnum;
    cbn [writeVarint2_digits]; [discriminate|].
  subst len. rewrite arr_set_push.
  destruct (length tmp) as [|k] eqn:Ek; [congruence|]. rewrite <- Ek.
  rewrite digit_value by auto.
  pose proof (Z.mod_pos_bound num 128 ltac:(lia)) as Hm.
  destruct (Z.leb_spec num 0x7f) as [Hle|Hgt].
  - intros [= <- <-]. exists [num mod 128 + 128].
    split; [reflexivity|]. split; [rewrite length_app; cbn [length]; lia|].
    intros rest. cbn [rev app map].
    rewrite exceeds_safe_step, u8_digit by lia.
    destruct (Z.ltb_spec (num mod 128 + 128) 128); [lia|].
    replace ((num mod 128 + 128) mod 128) with num
      by (Z.div_mod_to_equations; lia).
    destruct (Z.ltb_spec 0x1fffffffffffff (0 * 128 + num)); [lia|].
    cbn [orb]. f_equal.
  - intros Hrec.
    destruct (writeVarint2_next num Hgt) as [Hnext Hnn]. rewrite Hnext in Hrec.
    apply IH in Hrec.
    2:{ rewrite length_app. cbn [length]. lia. }
    2:{ lia. }
    2:{ Z.div_mod_to_equations. lia. }
    destruct Hrec as (ds & -> & Hl & Hdec).
    exists ((num mod 128 + 128) :: ds).
    split; [rewrite <- app_assoc; reflexivity|]. split; [exact Hl|].
    intros rest. cbn [rev]. rewrite map_app, <- app_assoc.
    cbn [map app]. rewrite Hdec.
    rewrite exceeds_safe_step, u8_digit by lia.
    destruct (Z.ltb_spec (num mod 128 + 128) 128); [lia|].
    replace ((num mod 128 + 128) mod 128) with (num mod 128)
      by (Z.div_mod_to_equations; lia).
    replace ((num / 128 - 1 + 1) * 128 + num mod 128) with num
      by (Z.div_mod_to_equations; lia).
    destruct (Z.ltb_spec 0x1fffffffffffff num); [lia|]. reflexivity.
Qed.

(** No value accumulated over the encoding of a safe integer exceeds
    2^53-1. *)
Lemma encoding_within_safe (fuel : nat) (n : Z) (tmp' : list Z) (len' : nat) :
  0 <= n <= 2 ^ 53 - 1 ->
  writeVarint2_digits fuel [] 0%nat n = Some (tmp', len') ->
  S len' = length tmp'
  /\ forall rest, exceeds_safe (map to_u8 (rev tmp') ++ rest) 0 = false.
Proof.
  intros Hn. pose proof Hn as Hn'.
  change (2 ^ 53) with 9007199254740992 in Hn'.
  destruct fuel as [|fuel]; cbn [writeVarint2_digits]; [discriminate|].
  rewrite (arr_set_push []).
  rewrite digit_value by auto. rewrite Z.add_0_r.
  pose proof (Z.mod_pos_bound n 128 ltac:(lia)) as Hm.
  destruct (Z.leb_spec n 0x7f) as [Hle|Hgt].
  - intros [= <- <-]. split; [reflexivity|]. intros rest. cbn [rev app map].
    rewrite exceeds_safe_step, u8_digit by lia.
    destruct (Z.ltb_spec (n mod 128) 128); [|lia].
    rewrite Z.mod_mod by lia.
    destruct (Z.ltb_spec 0x1fffffffffffff (0 * 128 + n mod 128)); [lia|].
    reflexivity.
  - intros Hrec.
    destruct (writeVarint2_next n Hgt) as [Hnext Hnn]. rewrite Hnext in Hrec.
    apply digits_within_safe in Hrec; [|reflexivity|discriminate|].
    2:{ change (2 ^ 53) with 9007199254740992. Z.div_mod_to_equations. lia. }
    destruct Hrec as (ds & -> & Hl & Hdec).
    split; [exact Hl|]. intros rest.
    cbn [app rev]. rewrite map_app, <- app_assoc. cbn [map app].
    rewrite Hdec.
    rewrite exceeds_safe_step, u8_digit by lia.
    destruct (Z.ltb_spec (n mod 128) 128); [|lia].
    rewrite Z.mod_mod by lia.
    replace ((n / 128 - 1 + 1) * 128 + n mod 128) with n
      by (Z.div_mod_to_equations; lia).
    destruct (Z.ltb_spec 0x1fffffffffffff n); [lia|]. reflexivity.
Qed.

Lemma varint2_written_within_safe (n : Z) (sz : nat) (dst : list byte) (off : nat) :
  0 <= n <= 2 ^ 53 - 1 ->
  sizeVarint2 n = Ok sz ->
  (off + sz <= length dst)%nat ->
  exceeds_safe (drop off (snd (writeVarint2 dst n (Some off)))) 0 = false.
Proof.
  intros Hn Hsz Hlen.
  destruct (writeVarint2_digits_total [] 0 n) as [[tmp' len'] E].
  pose proof (sizeVarint2_loop_digits (loop_fuel n) [] 0 n 0) as H.
  rewrite E in H. destruct H as [Hle H].
  unfold sizeVarint2 in Hsz. rewrite H in Hsz. injection Hsz as <-.
  destruct (encoding_within_safe _ n tmp' len' Hn E) as [Hl Hin].
  destruct (writeVarint2_layout dst n off tmp' len' E Hl ltac:(lia)) as [_ Hd].
  rewrite Hd. apply Hin.
Qed.

(** C7, as the code has it.  On each accumulation step [readVarint2]
    asserts that the incoming accumulator is below 2^46-1, then accumulates.
    It raises a [RangeFault] exactly when, through continuation bytes only,
    it reaches a byte with an accumulator of 2^46-1 or more; when the
    terminal byte is reached below that bound it returns the value.  The
    fault covers every input on which an accumulated value would exceed
    2^53-1, and also what [writeVarint2] produces for the values from
    2^53-128 to 2^53-1, on which no accumulated value exceeds 2^53-1; every
    value returned lies in [0, 2^53-129], within the safe-integer limit. *)
Theorem readVarint2_range :
  (forall (b : byte) (rest : list byte) (num : Z) (sz : nat),
      readVarint2_loop (b :: rest) num sz
      = if num <? 0x3fffffffffff then
          if u8 b <? 128 then Ok (mkVarint (S sz) (num * 128 + u8 b))
          else readVarint2_loop rest (num * 128 + (u8 b - 128) + 1) (S sz)
        else Throw RangeFault)
  /\ (forall (data : list byte) (off : nat),
      readVarint2 data off = Throw RangeFault
      <-> exists bs b tail,
            drop off data = bs ++ b :: tail
            /\ Forall (fun c => 128 <= u8 c) bs
            /\ 0x3fffffffffff <= varint2_acc 0 bs)
  /\ (forall (data : list byte) (off : nat) (bs : list byte) (b : byte)
        (tail : list byte),
      drop off data = bs ++ b :: tail ->
      Forall (fun c => 128 <= u8 c) bs -> u8 b < 128 ->
      varint2_acc 0 bs < 0x3fffffffffff ->
      readVarint2 data off
      = Ok (mkVarint (S (length bs)) (varint2_acc 0 bs * 128 + u8 b)))
  /\ (forall (data : list byte) (off : nat),
      exceeds_safe (drop off data) 0 = true ->
      readVarint2 data off = Throw RangeFault)
  /\ (forall (n : Z) (sz : nat) (dst : list byte) (off : nat),
      2 ^ 53 - 128 <= n <= 2 ^ 53 - 1 ->
      sizeVarint2 n = Ok sz ->
      (off + sz <= length dst)%nat ->
      readVarint2 (snd (writeVarint2 dst n (Some off))) off = Throw RangeFault
      /\ exceeds_safe (drop off (snd (writeVarint2 dst n (Some off)))) 0 = false)
  /\ (forall (data : list byte) (off : nat) (v : Varint),
      readVarint2 data off = Ok v -> 0 <= value v <= 2 ^ 53 - 129).
Proof.
  repeat apply conj.
  - exact readVarint2_loop_step.
  - intros data off.
    apply (run_range_fault readVarint2_loop 0x3fffffffffff); try lia.
    + reflexivity.
    + exact readVarint2_loop_below.
    + exact readVarint2_loop_limit.
  - intros data off bs b tail E Hall Hb Hacc. unfold readVarint2. rewrite E.
    rewrite (readVarint2_loop_terminal bs b tail Hall Hb).
    destruct (Z.leb_spec 0x3fffffffffff (varint2_acc 0 bs)); [lia|reflexivity].
  - intros data off Hex. apply readVarint2_loop_exceeds; [lia|exact Hex].
  - intros n sz dst off Hn Hsz Hlen. split.
    + exact (varint2_top_rejected n sz dst off Hn Hsz Hlen).
    + apply (varint2_written_within_safe n sz dst off); [|exact Hsz|exact Hlen].
      change (2 ^ 53) with 9007199254740992 in *. lia.
  - intros data off v Hv.
    apply readVarint2_loop_value in Hv; [exact Hv|lia].
Qed.

Lemma readVarint2_range_witness :
  readVarint2 (replicate 8 xff ++ [x00]) 0 = Throw RangeFault
  /\ readVarint2 [x80; x80; x00] 0 = Ok (mkVarint 3 16512)
  /\ readVarint2 (snd (writeVarint2 (replicate 8 x00) (2 ^ 53 - 128) (Some 0%nat))) 0
     = Throw RangeFault
  /\ exceeds_safe
       (drop 0 (snd (writeVarint2 (replicate 8 x00) (2 ^ 53 - 128) (Some 0%nat)))) 0
     = false
  /\ 0 <= 16512 <= 2 ^ 53 - 129.
Proof.
  destruct readVarint2_range as (H1 & H2 & H3 & H4 & H5 & H6).
  assert (H5' := H5 (2 ^ 53 - 128) 8%nat (replicate 8 x00) 0%nat
                   ltac:(vm_compute; split; discriminate)
                   ltac:(vm_compute; reflexivity) ltac:(vm_compute; lia)).
  split; [|split; [|split; [|split]]].
  - apply H2. exists (replicate 7 xff), xff, [x00].
    split; [reflexivity|]. split; [|vm_compute; discriminate].
    repeat constructor; vm_compute; discriminate.
  - apply (H3 [x80; x80; x00] 0%nat [x80; x80] x00 []).
    + reflexivity.
    + repeat constructor; vm_compute; discriminate.
    + vm_compute. reflexivity.
    + vm_compute. reflexivity.
  - exact (proj1 H5').
  - exact (proj2 H5').
  - apply (H6 [x80; x80; x00] 0%nat (mkVarint 3 16512)). vm_compute. reflexivity.
Defined.

(** C7 as stated fails: the eight bytes [writeVarint2] produces for
    2^53-1 are rejected with a [RangeFault] although no accumulated value
    exceeds 2^53-1 on them. *)
Lemma readVarint2_rejects_max_safe :
  snd (writeVarint2 (replicate 8 x00) (2 ^ 53 - 1) (Some 0%nat))
  = [x8e; xfe; xfe; xfe; xfe; xfe; xfe; x7f]
  /\ exceeds_safe [x8e; xfe; xfe; xfe; xfe; xfe; xfe; x7f] 0 = false
  /\ readVarint2 [x8e; xfe; xfe; xfe; xfe; xfe; xfe; x7f] 0 = Throw RangeFault.
Proof. repeat split. Qed.

(** ** Bounds: the decoders *)

Lemma readers_past_end (data : list byte) (off : nat) :
  (length data <= off)%nat ->
  readVarint data off = Throw BoundsFault
  /\ readVarintBN data off = Throw BoundsFault
  /\ readVarint2 data off = Throw BoundsFault
  /\ readVarint2BN data off = Throw BoundsFault.
Proof.
  intros Hlen.
  unfold readVarint, readVarintBN, readVarint2, readVarint2BN.
  rewrite nat_ltb_false by exact Hlen.
  rewrite drop_ge by exact Hlen.
  repeat split.
Qed.

Lemma readVarint_truncated (data : list byte) (off sz : nat) :
  skipVarint data off = Ok sz -> (length data < off + sz)%nat ->
  readVarint data off = Throw BoundsFault
  /\ readVarintBN data off = Throw BoundsFault.
Proof.
  unfold skipVarint, readVarintBN, readVarint.
  destruct (Nat.ltb_spec off (length data)) as [Hoff|Hoff];
    cbn [assert bind]; [|discriminate].
  destruct (buf_at data off =? 0xff); [|destruct (buf_at data off =? 0xfe);
    [|destruct (buf_at data off =? 0xfd)]];
    intros [= <-] Hlen; try lia;
    rewrite nat_leb_false by lia; split; reflexivity.
Qed.

(** ** Bounds: the writers *)








(** ** Big integers: which objects a call changes *)

Lemma bn_value_alloc (h : list Z) (v : Z) (r : nat) :
  (r < length h)%nat -> bn_value (h ++ [v]) r = bn_value h r.
Proof.
  intros Hr. unfold bn_value. rewrite lookup_app_l by exact Hr. reflexivity.
Qed.

Lemma bn_value_update_other (h : list Z) (v : Z) (c r : nat) :
  r <> c -> bn_value (<[c := v]> h) r = bn_value h r.
Proof.
  intros Hr. unfold bn_value.
  rewrite list_lookup_insert_ne by congruence. reflexivity.
Qed.

Lemma sizeVarint2BN_loop_frame (fuel : nat) (h : list Z) (sz : nat) (c r : nat) :
  r <> c ->
  bn_value (snd (sizeVarint2BN_loop fuel h sz c)) r = bn_value h r.
Proof.
  intros Hr. revert h sz.
  induction fuel as [|fuel IH]; intros h sz; cbn [sizeVarint2BN_loop snd];
    [reflexivity|].
  destruct (bn_cmpn h c 0x7f <=? 0); [reflexivity|].
  rewrite IH. unfold bn_isubn, bn_iushrn.
  rewrite !bn_value_update_other by exact Hr. reflexivity.
Qed.

(** [sizeVarint2BN] works on a clone: every object of the caller keeps its
    value. *)
Lemma sizeVarint2BN_frame (h : list Z) (num r : nat) :
  (r < length h)%nat ->
  bn_value (snd (sizeVarint2BN h num)) r = bn_value h r.
Proof.
  intros Hr. unfold sizeVarint2BN.
  destruct (bn_bitLength h num <=? 53); [reflexivity|].
  unfold bn_clone, bn_new.
  rewrite sizeVarint2BN_loop_frame by lia.
  apply bn_value_alloc. exact Hr.
Qed.

(** [_write64BN] builds its intermediate values in new objects ([uand],
    [neg]) and updates only those: every object of the caller keeps its
    value. *)
Lemma _write64BN_frame (h : list Z) (dst : list byte) (num : nat) (off : nat)
  (be : bool) (r : nat) :
  (r < length h)%nat ->
  bn_value (snd (_write64BN h dst num off be)) r = bn_value h r.
Proof.
  intros Hr. unfold _write64BN.
  destruct (bn_bitLength h num <=? 53).
  { destruct (_write64 dst (bn_toNumber h num) off be). reflexivity. }
  set (s1 := if 64 <? bn_bitLength h num then bn_uand h num U64_MAX else (h, num)).
  assert (H1 : (length h <= length (fst s1))%nat
               /\ bn_value (fst s1) r = bn_value h r).
  { subst s1. destruct (64 <? bn_bitLength h num); cbn [fst bn_uand bn_new].
    - rewrite length_app. split; [lia|]. apply bn_value_alloc. exact Hr.
    - split; [lia|reflexivity]. }
  destruct s1 as [h1 num1]. cbn [fst] in H1. destruct H1 as [Hl1 Hv1].
  set (s2 := if bn_isNeg h1 num1
             then let '(h, num) := bn_neg h1 num1 in
                  let h := bn_inotn h num 64 in
                  let h := bn_iaddn h num 1 in (h, num)
             else (h1, num1)).
  assert (H2 : bn_value (fst s2) r = bn_value h r).
  { subst s2. destruct (bn_isNeg h1 num1); [|exact Hv1].
    cbn [bn_neg bn_new fst]. unfold bn_iaddn, bn_inotn.
    rewrite !bn_value_update_other by lia.
    rewrite bn_value_alloc by lia. exact Hv1. }
  destruct s2 as [h2 num2]. cbn [fst] in H2.
  destruct (bn_toArray h2 num2 be) as [arr| | |]; try exact H2.
  destruct (write_seq dst off arr). exact H2.
Qed.

(** ** Big integers below 54 bits: where the encoder and the size go *)

Lemma writeVarint2BN_small (h : list Z) (dst : list byte) (num off : nat) :
  bn_bitLength h num <= 53 ->
  writeVarint2BN h dst num off = (Throw BoundsFault, dst, h).
Proof.
  intros Hb. unfold writeVarint2BN.
  destruct (Z.leb_spec (bn_bitLength h num) 53); [|lia].
  unfold writeVarint2.
  destruct (writeVarint2_digits_total [] 0 (bn_toNumber h num)) as [[tmp len] ->].
  reflexivity.
Qed.

Lemma sizeVarint2BN_small (h : list Z) (num : nat) :
  bn_bitLength h num <= 53 ->
  sizeVarint2BN h num = (Ok (sizeVarint (bn_toNumber h num)), h).
Proof.
  intros Hb. unfold sizeVarint2BN.
  destruct (Z.leb_spec (bn_bitLength h num) 53); [reflexivity|lia].
Qed.

(** C1 fails on the code.  For the big integer 128 (8 bits),
    [writeVarint2BN] faults and writes nothing where [writeVarint2] on the
    same number stores two bytes and returns 2, and [sizeVarint2BN] answers
    1 where [sizeVarint2] answers 2. *)
Theorem varint2BN_small_diverges :
  bn_bitLength [128] 0 = 8
  /\ writeVarint2BN [128] [x00; x00] 0 0 = (Throw BoundsFault, [x00; x00], [128])
  /\ writeVarint2 [x00; x00] (bn_toNumber [128] 0) (Some 0%nat)
     = (Ok 2%nat, [x80; x00])
  /\ sizeVarint2BN [128] 0 = (Ok 1%nat, [128])
  /\ sizeVarint2 (bn_toNumber [128] 0) = Ok 2%nat.
Proof. repeat split. Qed.

(** ** The big-integer Varint-B decoder and its ceiling *)

Lemma bitLength_le64 (num : Z) :
  0 <= num -> bitLength num <= 64 -> num < 2 ^ 64.
Proof.
  unfold bitLength. intros Hn.
  destruct (Z.eqb_spec num 0) as [->|Hnz]; [reflexivity|].
  rewrite Z.abs_eq by lia. intros Hb.
  apply Z.log2_lt_pow2; lia.
Qed.

Lemma readVarint2BN_big_value (rest : list byte) (num : Z) (sz : nat) (v : Varint) :
  0 <= num -> readVarint2BN_big rest num sz = Ok v ->
  0 <= value v < 2 ^ 71.
Proof.
  revert num sz. induction rest as [|b rest IH]; intros num sz Hnum.
  - discriminate.
  - cbn [readVarint2BN_big]. rewrite cont_bit, js_and_0x7f.
    pose proof (Z.mod_pos_bound (u8 b) 128 ltac:(lia)) as Hm.
    destruct (Z.leb_spec (bitLength num) 64) as [Hb|Hb];
      cbn [assert bind]; [|discriminate].
    apply (bitLength_le64 num Hnum) in Hb.
    rewrite Z.shiftl_mul_pow2 by lia.
    change (2 ^ 64) with 18446744073709551616 in Hb.
    change (2 ^ 7) with 128.
    destruct (u8 b <? 128).
    + intros [= <-]. cbn [value].
      change (2 ^ 71) with 2361183241434822606848. lia.
    + apply IH. lia.
Qed.

Lemma readVarint2BN_loop_value (rest : list byte) (num : Z) (sz : nat) (v : Varint) :
  0 <= num -> readVarint2BN_loop rest num sz = Ok v ->
  0 <= value v < 2 ^ 71.
Proof.
  revert num sz. induction rest as [|b rest IH]; intros num sz Hnum.
  - cbn [readVarint2BN_loop].
    destruct (num <? 0x3fffffffffff); discriminate.
  - cbn [readVarint2BN_loop]. rewrite cont_bit, js_and_0x7f.
    pose proof (Z.mod_pos_bound (u8 b) 128 ltac:(lia)) as Hm.
    destruct (Z.ltb_spec num 0x3fffffffffff) as [Hlt|Hge].
    + destruct (u8 b <? 128).
      * intros [= <-]. cbn [value].
        change (2 ^ 71) with 2361183241434822606848. lia.
      * apply IH. lia.
    + apply (readVarint2BN_big_value (b :: rest)). exact Hnum.
Qed.

(** What the decoder does guarantee: a value below 2^71. *)
Lemma readVarint2BN_ceiling (data : list byte) (off : nat) (v : Varint) :
  readVarint2BN data off = Ok v -> 0 <= value v < 2 ^ 71.
Proof. apply readVarint2BN_loop_value. lia. Qed.

(** C5 fails on the code.  Nine bytes 0xff followed by 0x00 decode, with
    no fault, to a value of 71 bits: the assertion looks at the accumulator
    before the seven new bits are shifted in. *)
Theorem readVarint2BN_above_64_bits :
  readVarint2BN (replicate 9 xff ++ [x00]) 0
  = Ok (mkVarint 10 1189887617730934226944)
  /\ 2 ^ 64 - 1 < 1189887617730934226944.
Proof. split; reflexivity. Qed.

(** C9 fails on the code.  [writeVarint2BN] on the big integer 2^53 (54
    bits) succeeds and leaves the caller's object holding 14: the digit
    loop shifts and decrements [num] itself. *)
Theorem writeVarint2BN_mutates_num :
  bn_value [2 ^ 53] 0 = 2 ^ 53
  /\ fst (fst (writeVarint2BN [2 ^ 53] (replicate 8 x00) 0 0)) = Ok 8%nat
  /\ bn_value (snd (writeVarint2BN [2 ^ 53] (replicate 8 x00) 0 0)) 0 = 14.
Proof. repeat split. Qed.

(** ** Big integers: the digit loops terminate *)

Lemma bn_cmpn_le (h : list Z) (c : nat) (k : Z) :
  (bn_cmpn h c k <=? 0) = (bn_value h c <=? k).
Proof.
  unfold bn_cmpn.
  destruct (Z.compare_spec (bn_value h c) k), (Z.leb_spec (bn_value h c) k);
    try reflexivity; lia.
Qed.

Lemma bn_value_update (h : list Z) (c : nat) (v : Z) :
  (c < length h)%nat -> bn_value (<[c := v]> h) c = v.
Proof.
  intros Hc. unfold bn_value. rewrite list_lookup_insert_eq by exact Hc.
  reflexivity.
Qed.

Lemma bn_live (h : list Z) (c : nat) : bn_value h c <> 0 -> (c < length h)%nat.
Proof.
  unfold bn_value. destruct (h !! c) eqn:E; [|congruence].
  intros _. apply lookup_lt_Some in E. exact E.
Qed.

(** [num.iushrn(7).isubn(1)] on a value above 0x7f. *)
Lemma bn_shift_dec (h : list Z) (c : nat) :
  0x7f < bn_value h c ->
  bn_value (bn_isubn (bn_iushrn h c 7) c 1) c = bn_value h c / 128 - 1.
Proof.
  intros Hv. assert (Hc : (c < length h)%nat) by (apply bn_live; lia).
  unfold bn_isubn, bn_iushrn.
  rewrite !bn_value_update by (rewrite ?length_insert; exact Hc).
  rewrite Z.sgn_pos, Z.abs_eq, Z.shiftr_div_pow2 by lia.
  change (2 ^ 7) with 128. lia.
Qed.

Lemma writeVarint2BN_digits_enough (fuel : nat) (h : list Z) (tmp : list Z)
  (len : nat) (num : nat) :
  Z.log2 (bn_value h num) < Z.of_nat fuel ->
  exists tmp' len' h',
    writeVarint2BN_digits fuel h tmp len num = Some (tmp', len', h')
    /\ bn_value h' num <= 0x7f.
Proof.
  revert h tmp len.
  induction fuel as [|fuel IH]; intros h tmp len Hf.
  - pose proof (Z.log2_nonneg (bn_value h num)). lia.
  - cbn [writeVarint2BN_digits]. rewrite bn_cmpn_le.
    destruct (Z.leb_spec (bn_value h num) 0x7f) as [Hle|Hgt]; [eauto|].
    apply IH. rewrite bn_shift_dec by exact Hgt.
    apply log2_next; assumption.
Qed.

Lemma sizeVarint2BN_loop_enough (fuel : nat) (h : list Z) (sz : nat) (num : nat) :
  Z.log2 (bn_value h num) < Z.of_nat fuel ->
  exists sz', fst (sizeVarint2BN_loop fuel h sz num) = Ok sz'.
Proof.
  revert h sz.
  induction fuel as [|fuel IH]; intros h sz Hf.
  - pose proof (Z.log2_nonneg (bn_value h num)). lia.
  - cbn [sizeVarint2BN_loop]. rewrite bn_cmpn_le.
    destruct (Z.leb_spec (bn_value h num) 0x7f) as [Hle|Hgt]; [eauto|].
    apply IH. rewrite bn_shift_dec by exact Hgt.
    apply log2_next; assumption.
Qed.

(** Above 53 bits [writeVarint2BN] always leaves a positive [num] holding
    its leading digit, a value of at most 0x7f. *)
Lemma writeVarint2BN_overwrites (h : list Z) (dst : list byte) (num off : nat) :
  2 ^ 53 <= bn_value h num ->
  bn_value (snd (writeVarint2BN h dst num off)) num <= 0x7f.
Proof.
  intros Hv. unfold writeVarint2BN, bn_bitLength, bitLength.
  change (2 ^ 53) with 9007199254740992 in Hv.
  destruct (Z.eqb_spec (bn_value h num) 0) as [?|_]; [lia|].
  rewrite Z.abs_eq by lia.
  assert (53 <= Z.log2 (bn_value h num))
    by (apply Z.log2_le_pow2; change (2 ^ 53) with 9007199254740992; lia).
  destruct (Z.leb_spec (Z.log2 (bn_value h num) + 1) 53); [lia|].
  destruct (writeVarint2BN_digits_enough (loop_fuel (bn_value h num)) h [] 0 num)
    as (tmp' & len' & h' & -> & Hfinal).
  { unfold loop_fuel. lia. }
  destruct (off + len' <=? length dst)%nat; cbn [negb].
  - destruct (emit_digits dst off tmp' len'). exact Hfinal.
  - exact Hfinal.
Qed.

(** * Further properties of the codec *)

(** ** Fixed64: layout of what the writers store *)

Lemma readUInt32LE_range (data : list byte) (off : nat) (x : Z) :
  readUInt32LE data off = Ok x ->
  (off + 4 <= length data)%nat /\ 0 <= x < 2 ^ 32.
Proof.
  unfold readUInt32LE.
  destruct (data !! off) as [b0|] eqn:E0; [|discriminate].
  destruct (data !! (off + 1)%nat) as [b1|] eqn:E1; [|discriminate].
  destruct (data !! (off + 2)%nat) as [b2|] eqn:E2; [|discriminate].
  destruct (data !! (off + 3)%nat) as [b3|] eqn:E3; [|discriminate].
  intros [= <-]. apply lookup_lt_Some in E3.
  pose proof (u8_range b0). pose proof (u8_range b1).
  pose proof (u8_range b2). pose proof (u8_range b3).
  change (2 ^ 32) with 4294967296. change (2 ^ 8) with 256.
  change (2 ^ 16) with 65536. change (2 ^ 24) with 16777216.
  split; lia.
Qed.

Lemma readUInt32BE_range (data : list byte) (off : nat) (x : Z) :
  readUInt32BE data off = Ok x ->
  (off + 4 <= length data)%nat /\ 0 <= x < 2 ^ 32.
Proof.
  unfold readUInt32BE.
  destruct (data !! off) as [b0|] eqn:E0; [|discriminate].
  destruct (data !! (off + 1)%nat) as [b1|] eqn:E1; [|discriminate].
  destruct (data !! (off + 2)%nat) as [b2|] eqn:E2; [|discriminate].
  destruct (data !! (off + 3)%nat) as [b3|] eqn:E3; [|discriminate].
  intros [= <-]. apply lookup_lt_Some in E3.
  pose proof (u8_range b0). pose proof (u8_range b1).
  pose proof (u8_range b2). pose proof (u8_range b3).
  change (2 ^ 32) with 4294967296. change (2 ^ 8) with 256.
  change (2 ^ 16) with 65536. change (2 ^ 24) with 16777216.
  split; lia.
Qed.

(** The two words a 64-bit reader starts from, when both are there. *)
Lemma words_read (data : list byte) (off : nat) (be : bool) (hi lo : Z) :
  (if be then
     hi <- readUInt32BE data off ;;
     lo <- readUInt32BE data (off + 4)%nat ;;
     Ok (hi, lo)
   else
     hi <- readUInt32LE data (off + 4)%nat ;;
     lo <- readUInt32LE data off ;;
     Ok (hi, lo)) = Ok (hi, lo) ->
  (off + 8 <= length data)%nat /\ 0 <= hi < 2 ^ 32 /\ 0 <= lo < 2 ^ 32.
Proof.
  destruct be.
  - destruct (readUInt32BE data off) as [x| | |] eqn:E1; try discriminate.
    destruct (readUInt32BE data (off + 4)) as [y| | |] eqn:E2; try discriminate.
    cbn [bind]. intros [= <- <-].
    apply readUInt32BE_range in E1, E2. intuition lia.
  - destruct (readUInt32LE data (off + 4)) as [x| | |] eqn:E1; try discriminate.
    destruct (readUInt32LE data off) as [y| | |] eqn:E2; try discriminate.
    cbn [bind]. intros [= <- <-].
    apply readUInt32LE_range in E1, E2. intuition lia.
Qed.

Lemma window8_be (data : list byte) (off : nat) :
  (off + 8 <= length data)%nat ->
  le_value (rev (take 8 (drop off data)))
  = le_value (rev (take 4 (drop (off + 4) data)))
    + 2 ^ 32 * le_value (rev (take 4 (drop off data))).
Proof.
  intros Hlen.
  change 8%nat with (4 + 4)%nat.
  rewrite <- (take_take_drop (drop off data) 4 4), rev_app_distr, le_value_app.
  rewrite length_rev, length_take, !length_drop, Nat.min_l by lia.
  rewrite drop_drop. reflexivity.
Qed.

(** The 64-bit value of an eight-byte window in the given byte order. *)
Lemma window8_words (data : list byte) (off : nat) (be : bool) (hi lo : Z) :
  (if be then
     hi <- readUInt32BE data off ;;
     lo <- readUInt32BE data (off + 4)%nat ;;
     Ok (hi, lo)
   else
     hi <- readUInt32LE data (off + 4)%nat ;;
     lo <- readUInt32LE data off ;;
     Ok (hi, lo)) = Ok (hi, lo) ->
  (if be then le_value (rev (take 8 (drop off data)))
   else le_value (take 8 (drop off data))) = hi * 2 ^ 32 + lo.
Proof.
  intros Hread. destruct (words_read data off be hi lo Hread) as (Hlen & _ & _).
  destruct be.
  - rewrite !readUInt32BE_value in Hread by lia. cbn [bind] in Hread.
    injection Hread as <- <-. rewrite window8_be by exact Hlen. lia.
  - rewrite !readUInt32LE_value in Hread by lia. cbn [bind] in Hread.
    injection Hread as <- <-. rewrite window8_le by exact Hlen. lia.
Qed.

Lemma _write64_frame (dst : list byte) (n : Z) (off : nat) (be : bool) :
  (off + 8 <= length dst)%nat ->
  take off (snd (_write64 dst n off be)) = take off dst
  /\ drop (off + 8) (snd (_write64 dst n off be)) = drop (off + 8) dst.
Proof.
  intros Hlen. unfold _write64.
  destruct (negb _); [split; reflexivity|].
  destruct be;
    match goal with
    | |- context [write_seq dst off ?vs] =>
        pose proof (write_seq_fst vs dst off Hlen) as Hf;
        revert Hf; destruct (write_seq dst off vs) as [dst' off']
    end;
    cbn [fst snd length]; intros ->.
  all: rewrite take_app_length' by (rewrite length_take; lia).
  all: rewrite app_assoc, drop_app_length'
    by (rewrite length_app, length_take; cbn [map length]; lia).
  all: split; reflexivity.
Qed.

Lemma _write64_window (dst : list byte) (n : Z) (off : nat) (be : bool) :
  (off + 8 <= length dst)%nat ->
  - 2 ^ 53 <= n <= 2 ^ 53 - 1 ->
  fst (_write64 dst n off be) = Ok (off + 8)%nat
  /\ take off (snd (_write64 dst n off be)) = take off dst
  /\ drop (off + 8) (snd (_write64 dst n off be)) = drop (off + 8) dst
  /\ length (snd (_write64 dst n off be)) = length dst
  /\ (if be then le_value (rev (take 8 (drop off (snd (_write64 dst n off be)))))
      else le_value (take 8 (drop off (snd (_write64 dst n off be)))))
     = n mod 2 ^ 64.
Proof.
  intros Hlen Hn.
  destruct (_write64_frame dst n off be Hlen) as [Ht Hd].
  destruct (_write64_stores dst n off be Hlen Hn)
    as (dst' & hi & lo & E & Hl & Hhi & Hlo & Hrel & Hread).
  rewrite E in *. cbn [fst snd] in *.
  repeat split; try assumption.
  rewrite (window8_words dst' off be hi lo Hread).
  change (2 ^ 32) with 4294967296 in *. change (2 ^ 21) with 2097152 in *.
  change (2 ^ 53) with 9007199254740992 in *.
  change (2 ^ 64) with 18446744073709551616.
  destruct (Z.ltb_spec n 0); destruct Hrel as [H1 H2];
    Z.div_mod_to_equations; lia.
Qed.

(** X1.  Wire layout of the native 64-bit writers.  For [n] the writer
    accepts and a buffer with eight bytes from [off], the call changes the
    eight bytes of the window and nothing else, and the window holds [n]
    modulo 2^64, the two's-complement form, in the requested byte order. *)
Theorem write64_layout (dst : list byte) (n : Z) (off : nat) (be : bool) :
  (off + 8 <= length dst)%nat ->
  - 2 ^ 53 <= n <= 2 ^ 53 - 1 ->
  take off (snd (_write64 dst n off be)) = take off dst
  /\ drop (off + 8) (snd (_write64 dst n off be)) = drop (off + 8) dst
  /\ length (snd (_write64 dst n off be)) = length dst
  /\ (if be then le_value (rev (take 8 (drop off (snd (_write64 dst n off be)))))
      else le_value (take 8 (drop off (snd (_write64 dst n off be)))))
     = n mod 2 ^ 64.
Proof.
  intros Hlen Hn. exact (proj2 (_write64_window dst n off be Hlen Hn)).
Qed.

Lemma write64_layout_witness :
  snd (write64 (replicate 10 x07) (-2) 1)
  = [x07; xfe; xff; xff; xff; xff; xff; xff; xff; x07]
  /\ le_value (take 8 (drop 1 (snd (write64 (replicate 10 x07) (-2) 1))))
     = (-2) mod 2 ^ 64.
Proof.
  split; [reflexivity|].
  exact (proj2 (proj2 (proj2
    (write64_layout (replicate 10 x07) (-2) 1 false
       ltac:(vm_compute; lia) ltac:(vm_compute; split; discriminate))))).
Defined.

(** ** Fixed64: the 53-bit readers against the strict ones *)

Lemma _readU64_force53_agrees (data : list byte) (off : nat) (be : bool) (v : Z) :
  _readU64 data off false be = Ok v -> _readU64 data off true be = Ok v.
Proof.
  unfold _readU64.
  match goal with
  | |- context [bind ?e _] => destruct e as [[hi lo]| | |] eqn:E
  end; try discriminate.
  destruct (words_read data off be hi lo E) as (_ & Hhi & _).
  cbn [bind fst snd]. rewrite js_and_0x1fffff, !safe_test.
  2:{ change (2 ^ 32) with 4294967296. change (2 ^ 21) with 2097152.
      Z.div_mod_to_equations. lia. }
  2:{ exact Hhi. }
  destruct (Z.ltb_spec hi (2 ^ 21)) as [Hs|Hs]; [|discriminate].
  rewrite (Z.mod_small hi) by lia.
  destruct (Z.ltb_spec hi (2 ^ 21)); [|lia]. auto.
Qed.

Lemma _read64_force53_agrees (data : list byte) (off : nat) (be : bool) (v : Z) :
  _read64 data off false be = Ok v -> _read64 data off true be = Ok v.
Proof.
  unfold _read64.
  match goal with
  | |- context [bind ?e _] => destruct e as [[hi lo]| | |] eqn:E
  end; try discriminate.
  destruct (words_read data off be hi lo E) as (_ & Hhi & _).
  cbn [bind fst snd].
  assert (Hmask : forall x, 0 <= x < 2 ^ 32 ->
            (js_and x 0xffe00000 =? 0) = true ->
            js_and x 0x1fffff = x).
  { intros x Hx. rewrite safe_test by exact Hx. rewrite js_and_0x1fffff.
    destruct (Z.ltb_spec x (2 ^ 21)); [|discriminate].
    intros _. apply Z.mod_small. lia. }
  destruct (negb (js_and hi 0x80000000 =? 0)).
  - assert (Hn : 0 <= ToUint32 (js_not hi) < 2 ^ 32)
      by (unfold ToUint32; apply Z.mod_pos_bound; lia).
    destruct (js_and (ToUint32 (js_not hi)) 0xffe00000 =? 0) eqn:Es;
      [|discriminate].
    rewrite (Hmask _ Hn Es), Es. auto.
  - destruct (js_and hi 0xffe00000 =? 0) eqn:Es; [|discriminate].
    rewrite (Hmask _ Hhi Es), Es. auto.
Qed.

(** X2.  Whenever a strict 64-bit reader returns a value, the 53-bit
    reader of the same signedness and byte order returns the same value:
    masking changes the result only where the strict reader faults. *)
Theorem read53_extends_read64 (data : list byte) (off : nat) (v : Z) :
  (readU64 data off = Ok v -> readU53 data off = Ok v)
  /\ (readU64BE data off = Ok v -> readU53BE data off = Ok v)
  /\ (read64 data off = Ok v -> read53 data off = Ok v)
  /\ (read64BE data off = Ok v -> read53BE data off = Ok v).
Proof.
  repeat split.
  - apply _readU64_force53_agrees.
  - apply _readU64_force53_agrees.
  - apply _read64_force53_agrees.
  - apply _read64_force53_agrees.
Qed.

Lemma read53_extends_read64_witness :
  readU53 [x01; x02; x03; x04; x05; x06; x07; x00] 0 = Ok 1976943448883713
  /\ read53BE [xff; xff; xff; xff; xff; xff; xff; xfe] 0 = Ok (-2).
Proof.
  split.
  - apply (proj1 (read53_extends_read64
                    [x01; x02; x03; x04; x05; x06; x07; x00] 0 1976943448883713)).
    reflexivity.
  - apply (proj2 (proj2 (proj2 (read53_extends_read64
                    [xff; xff; xff; xff; xff; xff; xff; xfe] 0 (-2))))).
    reflexivity.
Defined.

Lemma _read64_force53_total (data : list byte) (off : nat) (be : bool) :
  (off + 8 <= length data)%nat ->
  exists v, _read64 data off true be = Ok v /\ - 2 ^ 53 <= v <= 2 ^ 53 - 1.
Proof.
  intros Hlen.
  destruct (word_range data off) as [Hl1 Hb1].
  destruct (word_range data (off + 4)) as [Hl2 Hb2].
  unfold _read64.
  rewrite (read_words data off be _ _ Hlen eq_refl eq_refl).
  cbn [bind fst snd].
  set (hi := if be then le_value (rev (take 4 (drop off data)))
             else le_value (take 4 (drop (off + 4) data))).
  set (lo := if be then le_value (rev (take 4 (drop (off + 4) data)))
             else le_value (take 4 (drop off data))).
  assert (Hhi : 0 <= hi < 2 ^ 32) by (subst hi; destruct be; assumption).
  assert (Hlo : 0 <= lo < 2 ^ 32) by (subst lo; destruct be; assumption).
  assert (Hsafe : forall x, (js_and (js_and x 0x1fffff) 0xffe00000 =? 0) = true).
  { intros x. rewrite js_and_0x1fffff, safe_test.
    - apply Z.ltb_lt. apply Z.mod_pos_bound. lia.
    - change (2 ^ 32) with 4294967296. change (2 ^ 21) with 2097152.
      Z.div_mod_to_equations. lia. }
  rewrite !Hsafe. cbn [assert bind]. rewrite !js_and_0x1fffff.
  assert (Hnl : 0 <= ToUint32 (js_not lo) < 2 ^ 32)
    by (unfold ToUint32; apply Z.mod_pos_bound; lia).
  change (2 ^ 32) with 4294967296 in *. change (2 ^ 21) with 2097152 in *.
  change (2 ^ 53) with 9007199254740992.
  destruct (negb (js_and hi 0x80000000 =? 0)); eexists; (split; [reflexivity|]);
    Z.div_mod_to_equations; lia.
Qed.

(** X3.  With eight readable bytes, the signed 53-bit readers always
    return a value, and it lies in [-2^53, 2^53-1]. *)
Theorem read53_total (data : list byte) (off : nat) :
  (off + 8 <= length data)%nat ->
  (exists v, read53 data off = Ok v /\ - 2 ^ 53 <= v <= 2 ^ 53 - 1)
  /\ (exists v, read53BE data off = Ok v /\ - 2 ^ 53 <= v <= 2 ^ 53 - 1).
Proof.
  intros Hlen. split; apply _read64_force53_total; exact Hlen.
Qed.

Lemma read53_total_witness :
  exists v, read53 (replicate 8 xff) 0 = Ok v /\ - 2 ^ 53 <= v <= 2 ^ 53 - 1.
Proof.
  exact (proj1 (read53_total (replicate 8 xff) 0 ltac:(vm_compute; lia))).
Defined.

(** ** Fixed64: the native readers against the big-integer readers *)

Lemma lxor_ones_low (m n : Z) :
  0 <= n -> 0 <= m < 2 ^ n -> Z.lxor m (Z.ones n) = 2 ^ n - 1 - m.
Proof.
  intros Hn Hm.
  assert (Hlow : forall i, n <= i -> Z.testbit m i = false).
  { intros i Hi. destruct (Z.eq_dec m 0) as [->|Hnz]; [apply Z.bits_0|].
    apply Z.bits_above_log2; [lia|].
    assert (Z.log2 m < n) by (apply Z.log2_lt_pow2; lia). lia. }
  replace (2 ^ n - 1 - m) with (Z.ones n - m) by (rewrite Z.ones_equiv; lia).
  rewrite Z.sub_nocarry_ldiff.
  - apply Z.bits_inj'. intros i Hi.
    rewrite Z.lxor_spec, Z.ldiff_spec.
    destruct (Z.lt_ge_cases i n) as [Hlt|Hge].
    + rewrite Z.ones_spec_low by lia. destruct (Z.testbit m i); reflexivity.
    + rewrite Z.ones_spec_high, Hlow by lia. reflexivity.
  - apply Z.bits_inj'. intros i Hi.
    rewrite Z.ldiff_spec, Z.bits_0.
    destruct (Z.lt_ge_cases i n) as [Hlt|Hge].
    + rewrite Z.ones_spec_low by lia. apply andb_false_r.
    + rewrite Hlow by lia. reflexivity.
Qed.

Lemma window8_cells (data : list byte) (off : nat) :
  (off + 8 <= length data)%nat ->
  exists b0 b1 b2 b3 b4 b5 b6 b7,
    take 8 (drop off data) = [b0; b1; b2; b3; b4; b5; b6; b7].
Proof.
  intros Hlen.
  assert (Hl : length (take 8 (drop off data)) = 8%nat)
    by (rewrite length_take, length_drop; lia).
  destruct (take 8 (drop off data)) as [|b0 [|b1 [|b2 [|b3 [|b4 [|b5 [|b6 [|b7 [|b8 l]]]]]]]]];
    cbn [length] in Hl; try lia.
  eauto 10.
Qed.

(** [read64BN] and [read64BEBN] decode the window as two's complement. *)
Lemma read64BN_twos (data : list byte) (off : nat) :
  (off + 8 <= length data)%nat ->
  0 <= readU64BN data off < 2 ^ 64
  /\ 0 <= readU64BEBN data off < 2 ^ 64
  /\ read64BN data off
     = (if readU64BN data off <? 2 ^ 63 then readU64BN data off
        else readU64BN data off - 2 ^ 64)
  /\ read64BEBN data off
     = (if readU64BEBN data off <? 2 ^ 63 then readU64BEBN data off
        else readU64BEBN data off - 2 ^ 64).
Proof.
  intros Hlen. unfold read64BN, read64BEBN, readU64BN, readU64BEBN.
  destruct (window8_cells data off Hlen)
    as (b0 & b1 & b2 & b3 & b4 & b5 & b6 & b7 & ->).
  cbn [length Nat.sub buf_at lookup list_lookup].
  rewrite !cont_bit.
  pose proof (le_value_range [b0; b1; b2; b3; b4; b5; b6; b7]) as R1.
  pose proof (le_value_range (rev [b0; b1; b2; b3; b4; b5; b6; b7])) as R2.
  change (256 ^ _) with (2 ^ 64) in R1, R2.
  split; [exact R1|]. split; [exact R2|].
  rewrite !lxor_ones_low by (try exact R1; try exact R2; lia).
  cbn [rev app le_value] in *.
  pose proof (u8_range b0). pose proof (u8_range b1). pose proof (u8_range b2).
  pose proof (u8_range b3). pose proof (u8_range b4). pose proof (u8_range b5).
  pose proof (u8_range b6). pose proof (u8_range b7).
  change (2 ^ 64) with 18446744073709551616 in *.
  change (2 ^ 63) with 9223372036854775808.
  split.
  - destruct (Z.ltb_spec (u8 b7) 128);
      match goal with |- context [?x <? 9223372036854775808] =>
        destruct (Z.ltb_spec x 9223372036854775808) end; cbn [negb]; lia.
  - destruct (Z.ltb_spec (u8 b0) 128);
      match goal with |- context [?x <? 9223372036854775808] =>
        destruct (Z.ltb_spec x 9223372036854775808) end; cbn [negb]; lia.
Qed.

(** X4.  With eight readable bytes, the signed big-integer readers return
    the two's-complement reading of the unsigned ones: a value in
    [-2^63, 2^63-1] congruent to the unsigned value modulo 2^64. *)
Theorem read64BN_twos_complement (data : list byte) (off : nat) :
  (off + 8 <= length data)%nat ->
  (- 2 ^ 63 <= read64BN data off <= 2 ^ 63 - 1
   /\ read64BN data off mod 2 ^ 64 = readU64BN data off)
  /\ (- 2 ^ 63 <= read64BEBN data off <= 2 ^ 63 - 1
      /\ read64BEBN data off mod 2 ^ 64 = readU64BEBN data off).
Proof.
  intros Hlen.
  destruct (read64BN_twos data off Hlen) as (R1 & R2 & -> & ->).
  change (2 ^ 64) with 18446744073709551616 in *.
  change (2 ^ 63) with 9223372036854775808.
  destruct (Z.ltb_spec (readU64BN data off) 9223372036854775808);
    destruct (Z.ltb_spec (readU64BEBN data off) 9223372036854775808);
    repeat split; try lia; Z.div_mod_to_equations; lia.
Qed.

Lemma read64BN_twos_complement_witness :
  read64BN (replicate 8 xff) 0 mod 2 ^ 64 = readU64BN (replicate 8 xff) 0.
Proof.
  exact (proj2 (proj1 (read64BN_twos_complement (replicate 8 xff) 0
                         ltac:(vm_compute; lia)))).
Defined.

(** The unsigned value of the window against the strict native reader. *)
Lemma _readU64_value (data : list byte) (off : nat) (be : bool) :
  (off + 8 <= length data)%nat ->
  let w := if be then readU64BEBN data off else readU64BN data off in
  (w <= 2 ^ 53 - 1 -> _readU64 data off false be = Ok w)
  /\ (2 ^ 53 - 1 < w -> _readU64 data off false be = Throw RangeFault).
Proof.
  intros Hlen w.
  destruct (word_range data off) as [Hl1 Hb1].
  destruct (word_range data (off + 4)) as [Hl2 Hb2].
  pose proof (read_words data off be _ _ Hlen eq_refl eq_refl) as Hread.
  pose proof (window8_words data off be _ _ Hread) as Hw.
  unfold _readU64. rewrite Hread. cbn [bind fst snd].
  set (hi := if be then le_value (rev (take 4 (drop off data)))
             else le_value (take 4 (drop (off + 4) data))) in *.
  set (lo := if be then le_value (rev (take 4 (drop (off + 4) data)))
             else le_value (take 4 (drop off data))) in *.
  assert (Hhi : 0 <= hi < 2 ^ 32) by (subst hi; destruct be; assumption).
  assert (Hlo : 0 <= lo < 2 ^ 32) by (subst lo; destruct be; assumption).
  assert (Ew : w = hi * 2 ^ 32 + lo).
  { subst w. unfold readU64BEBN, readU64BN. destruct be; exact Hw. }
  rewrite safe_test by exact Hhi. rewrite Ew.
  change (2 ^ 32) with 4294967296 in *. change (2 ^ 21) with 2097152 in *.
  change (2 ^ 53) with 9007199254740992.
  destruct (Z.ltb_spec hi 2097152); cbn [assert bind]; split; intros Hp;
    try lia; reflexivity.
Qed.

Lemma _read64_value (data : list byte) (off : nat) (be : bool) :
  (off + 8 <= length data)%nat ->
  let s := if be then read64BEBN data off else read64BN data off in
  (- 2 ^ 53 <= s <= 2 ^ 53 - 1 -> _read64 data off false be = Ok s)
  /\ (s < - 2 ^ 53 \/ 2 ^ 53 - 1 < s ->
      _read64 data off false be = Throw RangeFault).
Proof.
  intros Hlen s.
  destruct (word_range data off) as [Hl1 Hb1].
  destruct (word_range data (off + 4)) as [Hl2 Hb2].
  pose proof (read_words data off be _ _ Hlen eq_refl eq_refl) as Hread.
  pose proof (window8_words data off be _ _ Hread) as Hw.
  destruct (read64BN_twos data off Hlen) as (_ & _ & T1 & T2).
  unfold _read64. rewrite Hread. cbn [bind fst snd].
  set (hi := if be then le_value (rev (take 4 (drop off data)))
             else le_value (take 4 (drop (off + 4) data))) in *.
  set (lo := if be then le_value (rev (take 4 (drop (off + 4) data)))
             else le_value (take 4 (drop off data))) in *.
  assert (Hhi : 0 <= hi < 2 ^ 32) by (subst hi; destruct be; assumption).
  assert (Hlo : 0 <= lo < 2 ^ 32) by (subst lo; destruct be; assumption).
  assert (Es : s = if hi * 2 ^ 32 + lo <? 2 ^ 63 then hi * 2 ^ 32 + lo
                   else hi * 2 ^ 32 + lo - 2 ^ 64).
  { subst s. destruct be; [rewrite T2|rewrite T1];
      unfold readU64BEBN, readU64BN; rewrite Hw; reflexivity. }
  rewrite sign_test by exact Hhi.
  rewrite !not_ushr0 by assumption.
  rewrite !safe_test
    by (try assumption; change (2 ^ 32) with 4294967296 in *; lia).
  rewrite Es.
  change (2 ^ 32) with 4294967296 in *. change (2 ^ 21) with 2097152 in *.
  change (2 ^ 31) with 2147483648 in *.
  change (2 ^ 53) with 9007199254740992.
  change (2 ^ 63) with 9223372036854775808.
  change (2 ^ 64) with 18446744073709551616.
  destruct (Z.ltb_spec hi 2147483648); cbn [negb];
    destruct (Z.ltb_spec (hi * 4294967296 + lo) 9223372036854775808); try lia.
  - destruct (Z.ltb_spec hi 2097152); cbn [assert bind]; split; intros Hp;
      try lia; reflexivity.
  - destruct (Z.ltb_spec (4294967296 - 1 - hi) 2097152); cbn [assert bind];
      split; intros Hp; try lia; try reflexivity.
    f_equal. lia.
Qed.

(** X5.  With eight readable bytes, every strict native 64-bit reader
    returns exactly the value of its big-integer counterpart when that
    value is in the range the reader accepts ([0, 2^53-1] unsigned,
    [-2^53, 2^53-1] signed) and raises a [RangeFault] otherwise. *)
Theorem native_readers_match_BN (data : list byte) (off : nat) :
  (off + 8 <= length data)%nat ->
  ((readU64BN data off <= 2 ^ 53 - 1 ->
      readU64 data off = Ok (readU64BN data off))
   /\ (2 ^ 53 - 1 < readU64BN data off ->
      readU64 data off = Throw RangeFault))
  /\ ((readU64BEBN data off <= 2 ^ 53 - 1 ->
      readU64BE data off = Ok (readU64BEBN data off))
   /\ (2 ^ 53 - 1 < readU64BEBN data off ->
      readU64BE data off = Throw RangeFault))
  /\ ((- 2 ^ 53 <= read64BN data off <= 2 ^ 53 - 1 ->
      read64 data off = Ok (read64BN data off))
   /\ (read64BN data off < - 2 ^ 53 \/ 2 ^ 53 - 1 < read64BN data off ->
      read64 data off = Throw RangeFault))
  /\ ((- 2 ^ 53 <= read64BEBN data off <= 2 ^ 53 - 1 ->
      read64BE data off = Ok (read64BEBN data off))
   /\ (read64BEBN data off < - 2 ^ 53 \/ 2 ^ 53 - 1 < read64BEBN data off ->
      read64BE data off = Throw RangeFault)).
Proof.
  intros Hlen. repeat apply conj.
  - exact (proj1 (_readU64_value data off false Hlen)).
  - exact (proj2 (_readU64_value data off false Hlen)).
  - exact (proj1 (_readU64_value data off true Hlen)).
  - exact (proj2 (_readU64_value data off true Hlen)).
  - exact (proj1 (_read64_value data off false Hlen)).
  - exact (proj2 (_read64_value data off false Hlen)).
  - exact (proj1 (_read64_value data off true Hlen)).
  - exact (proj2 (_read64_value data off true Hlen)).
Qed.

Lemma native_readers_match_BN_witness :
  read64 [x00; x00; x00; x00; x00; x00; xe0; xff] 0 = Ok (- 2 ^ 53)
  /\ readU64BE [x00; x20; x00; x00; x00; x00; x00; x00] 0 = Throw RangeFault.
Proof.
  pose proof (native_readers_match_BN
                [x00; x00; x00; x00; x00; x00; xe0; xff] 0
                ltac:(vm_compute; lia)) as (_ & _ & (H1 & _) & _).
  pose proof (native_readers_match_BN
                [x00; x20; x00; x00; x00; x00; x00; x00] 0
                ltac:(vm_compute; lia)) as (_ & (_ & H2) & _).
  split.
  - apply H1. vm_compute. split; discriminate.
  - apply H2. vm_compute. reflexivity.
Defined.

(** ** Bytes, windows and equality of buffers *)

Lemma to_u8_u8 (b : byte) : to_u8 (u8 b) = b.
Proof. destruct b; reflexivity. Qed.

Lemma u8_inj (a b : byte) : u8 a = u8 b -> a = b.
Proof. intros H. rewrite <- (to_u8_u8 a), <- (to_u8_u8 b), H. reflexivity. Qed.

Lemma le_value_inj (bs cs : list byte) :
  length bs = length cs -> le_value bs = le_value cs -> bs = cs.
Proof.
  revert cs. induction bs as [|b bs IH]; intros [|c cs] Hl Hv;
    cbn [length le_value] in *; try discriminate; [reflexivity|].
  pose proof (u8_range b). pose proof (u8_range c).
  assert (u8 b = u8 c /\ le_value bs = le_value cs) as [Hb Hr] by lia.
  f_equal; [apply u8_inj; exact Hb | apply IH; [lia|exact Hr]].
Qed.

Lemma drop_cons_inv (l : list byte) (off : nat) (x : byte) (t : list byte) :
  drop off l = x :: t -> l !! off = Some x /\ drop (off + 1) l = t.
Proof.
  intros H. split.
  - rewrite <- (Nat.add_0_r off), <- lookup_drop, H. reflexivity.
  - rewrite <- drop_drop, H. reflexivity.
Qed.

(** Two buffers that agree outside a window and hold the same
    little-endian value inside it are equal. *)
Lemma buffer_eq_by_window (d' d : list byte) (off k : nat) :
  length d' = length d ->
  take off d' = take off d ->
  drop (off + k) d' = drop (off + k) d ->
  le_value (take k (drop off d')) = le_value (take k (drop off d)) ->
  d' = d.
Proof.
  intros Hl Ht Hd Hv.
  rewrite <- (take_drop off d'), <- (take_drop off d). f_equal; [exact Ht|].
  rewrite <- (take_drop k (drop off d')), <- (take_drop k (drop off d)).
  rewrite !drop_drop. f_equal; [|exact Hd].
  apply le_value_inj; [|exact Hv].
  rewrite !length_take, !length_drop. lia.
Qed.

Lemma write_seq_shape (vs : list Z) (dst : list byte) (off : nat) :
  (off + length vs <= length dst)%nat ->
  take off (fst (write_seq dst off vs)) = take off dst
  /\ take (length vs) (drop off (fst (write_seq dst off vs))) = map to_u8 vs
  /\ drop (off + length vs) (fst (write_seq dst off vs))
     = drop (off + length vs) dst.
Proof.
  intros Hlen. rewrite write_seq_drop, write_seq_fst by exact Hlen.
  repeat split.
  - rewrite take_app_length' by (rewrite length_take; lia). reflexivity.
  - rewrite take_app_length' by (rewrite length_map; reflexivity). reflexivity.
  - rewrite app_assoc, drop_app_length'
      by (rewrite length_app, length_take, length_map; lia).
    reflexivity.
Qed.

Lemma le_half (x : Z) :
  0 <= x < 2 ^ 16 ->
  le_value (map to_u8 [ js_and x 0xff; js_and (js_shr x 8) 0xff ]) = x.
Proof.
  intros Hx. cbn [map le_value]. rewrite !u8_to_u8.
  rewrite js_and_0xff, byte_of_word
    by (auto; change (2 ^ 32) with 4294967296;
        change (2 ^ 16) with 65536 in Hx; lia).
  change (2 ^ 16) with 65536 in *. change (2 ^ 8) with 256.
  Z.div_mod_to_equations. lia.
Qed.

(** ** Varint-A: what a successful decode tells *)

Lemma readVarint_inv (data : list byte) (off : nat) (v : Varint) :
  readVarint data off = Ok v ->
  exists tag,
    data !! off = Some tag
    /\ (off + size v <= length data)%nat
    /\ skipVarint data off = Ok (size v)
    /\ ((u8 tag < 0xfd /\ v = mkVarint 1 (u8 tag))
        \/ (u8 tag = 0xfd
            /\ v = mkVarint 3 (le_value (take 2 (drop (off + 1) data)))
            /\ 0xfd <= value v <= 0xffff)
        \/ (u8 tag = 0xfe
            /\ v = mkVarint 5 (le_value (take 4 (drop (off + 1) data)))
            /\ 0xffff < value v <= 0xffffffff)
        \/ (u8 tag = 0xff
            /\ v = mkVarint 9 (le_value (take 8 (drop (off + 1) data)))
            /\ 0xffffffff < value v <= 2 ^ 53 - 1)).
Proof.
  intros Hv.
  destruct (Nat.le_gt_cases (length data) off) as [Hout|Hin].
  { destruct (readers_past_end data off Hout) as [E _]. congruence. }
  destruct (lookup_lt_is_Some_2 data off Hin) as [tag Htag].
  exists tag. split; [exact Htag|].
  assert (Hskip : exists sz, skipVarint data off = Ok sz
            /\ ((u8 tag < 0xfd /\ sz = 1%nat) \/ (u8 tag = 0xfd /\ sz = 3%nat)
                \/ (u8 tag = 0xfe /\ sz = 5%nat) \/ (u8 tag = 0xff /\ sz = 9%nat))).
  { unfold skipVarint. rewrite nat_ltb_true by exact Hin.
    rewrite (buf_at_lookup _ _ _ Htag). cbn [assert bind].
    pose proof (u8_range tag).
    destruct (Z.eqb_spec (u8 tag) 0xff); [eauto 10|].
    destruct (Z.eqb_spec (u8 tag) 0xfe); [eauto 10|].
    destruct (Z.eqb_spec (u8 tag) 0xfd); [eauto 10|].
    eexists. split; [reflexivity|]. left. split; [lia|reflexivity]. }
  destruct Hskip as (sz & Hsk & Hcase).
  destruct (Nat.le_gt_cases (off + sz) (length data)) as [Hfit|Hshort].
  2:{ destruct (readVarint_truncated data off sz Hsk Hshort) as [E _].
      congruence. }
  destruct Hcase as [[Ht ->]|[[Ht ->]|[[Ht ->]|[Ht ->]]]].
  - destruct (readVarint_literal data off tag Htag Ht) as [E _].
    rewrite E in Hv. injection Hv as <-. cbn [size]. auto 10.
  - destruct (readVarint_fd data off tag Htag Ht Hfit) as [Hlow Hhigh].
    pose proof (le_value_range (take 2 (drop (off + 1) data))) as R.
    assert (256 ^ Z.of_nat (length (take 2 (drop (off + 1) data))) <= 256 ^ 2)
      by (apply Z.pow_le_mono_r; [lia|rewrite length_take; lia]).
    change (256 ^ 2) with 65536 in *.
    destruct (Z.lt_ge_cases (le_value (take 2 (drop (off + 1) data))) 0xfd)
      as [Hp|Hp].
    + destruct (Hlow Hp) as [E _]. congruence.
    + destruct (Hhigh Hp) as [E _]. rewrite E in Hv. injection Hv as <-.
      cbn [size value]. repeat split; auto. right. left.
      repeat split; auto; lia.
  - destruct (readVarint_fe data off tag Htag Ht Hfit) as [Hlow Hhigh].
    destruct (word_range data (off + 1)) as [R _].
    change (2 ^ 32) with 4294967296 in R.
    destruct (Z.le_gt_cases (le_value (take 4 (drop (off + 1) data))) 0xffff)
      as [Hp|Hp].
    + destruct (Hlow Hp) as [E _]. congruence.
    + destruct (Hhigh ltac:(lia)) as [E _]. rewrite E in Hv. injection Hv as <-.
      cbn [size value]. repeat split; auto. right. right. left.
      repeat split; auto; lia.
  - destruct (readVarint_ff data off tag Htag Ht Hfit) as [Hlow Hhigh].
    destruct (Z.le_gt_cases (le_value (take 8 (drop (off + 1) data))) 0xffffffff)
      as [Hp|Hp].
    + destruct (Hlow Hp) as [E _]. congruence.
    + destruct (Hhigh ltac:(lia)) as (_ & Hok & Hbad).
      destruct (Z.le_gt_cases (le_value (take 8 (drop (off + 1) data)))
                  (2 ^ 53 - 1)) as [Hq|Hq].
      * rewrite (Hok Hq) in Hv. injection Hv as <-.
        cbn [size value]. repeat split; auto. right. right. right.
        repeat split; auto; lia.
      * rewrite (Hbad ltac:(lia)) in Hv. discriminate.
Qed.

Lemma readVarint_facts (data : list byte) (off : nat) (v : Varint) :
  readVarint data off = Ok v ->
  size v = sizeVarint (value v)
  /\ skipVarint data off = Ok (size v)
  /\ (off + size v <= length data)%nat
  /\ 0 <= value v <= 2 ^ 53 - 1
  /\ readVarintBN data off = Ok v.
Proof.
  intros Hv.
  destruct (readVarint_inv data off v Hv) as (tag & Htag & Hfit & Hsk & Hcase).
  pose proof (u8_range tag) as Rt.
  assert (HB : u8 tag <> 0xff -> readVarintBN data off = Ok v).
  { intros Hne. unfold readVarintBN.
    rewrite nat_ltb_true by (apply lookup_lt_Some in Htag; lia).
    rewrite (buf_at_lookup _ _ _ Htag). cbn [assert bind].
    destruct (Z.eqb_spec (u8 tag) 0xff); [contradiction|].
    rewrite Hv. destruct v. reflexivity. }
  change (2 ^ 53) with 9007199254740992 in *.
  destruct Hcase as [[Ht ->]|[(Ht & -> & Hr)|[(Ht & -> & Hr)|(Ht & -> & Hr)]]];
    cbn [size value] in *.
  - repeat split; try assumption; try lia; [|apply HB; lia].
    unfold sizeVarint. destruct (Z.ltb_spec (u8 tag) 0xfd); [reflexivity|lia].
  - repeat split; try assumption; try lia; [|apply HB; lia].
    unfold sizeVarint.
    destruct (Z.ltb_spec (le_value (take 2 (drop (off + 1) data))) 0xfd); [lia|].
    destruct (Z.leb_spec (le_value (take 2 (drop (off + 1) data))) 0xffff);
      [reflexivity|lia].
  - repeat split; try assumption; try lia; [|apply HB; lia].
    unfold sizeVarint.
    destruct (Z.ltb_spec (le_value (take 4 (drop (off + 1) data))) 0xfd); [lia|].
    destruct (Z.leb_spec (le_value (take 4 (drop (off + 1) data))) 0xffff); [lia|].
    destruct (Z.leb_spec (le_value (take 4 (drop (off + 1) data))) 0xffffffff);
      [reflexivity|lia].
  - repeat split; try assumption; try lia.
    + unfold sizeVarint.
      destruct (Z.ltb_spec (le_value (take 8 (drop (off + 1) data))) 0xfd); [lia|].
      destruct (Z.leb_spec (le_value (take 8 (drop (off + 1) data))) 0xffff); [lia|].
      destruct (Z.leb_spec (le_value (take 8 (drop (off + 1) data))) 0xffffffff);
        [lia|reflexivity].
    + destruct (readVarint_ff data off tag Htag Ht Hfit) as [_ Hhigh].
      exact (proj1 (Hhigh ltac:(lia))).
Qed.

(** X6.  A value [readVarint] returns was decoded from inside the buffer,
    in its minimal form: the size is 1, 3, 5 or 9, equals [sizeVarint] of
    the value and is what [skipVarint] answers, the bytes consumed end
    inside the buffer, the value lies in [0, 2^53-1], and [readVarintBN]
    returns the same pair. *)
Theorem readVarint_sound (data : list byte) (off : nat) (v : Varint) :
  readVarint data off = Ok v ->
  size v = sizeVarint (value v)
  /\ skipVarint data off = Ok (size v)
  /\ (off + size v <= length data)%nat
  /\ 0 <= value v <= 2 ^ 53 - 1
  /\ readVarintBN data off = Ok v.
Proof. exact (readVarint_facts data off v). Qed.

Lemma readVarint_sound_witness :
  skipVarint [x00; xfd; x2c; x01] 1 = Ok 3%nat
  /\ readVarintBN [x00; xfd; x2c; x01] 1 = Ok (mkVarint 3 300).
Proof.
  pose proof (readVarint_sound [x00; xfd; x2c; x01] 1 (mkVarint 3 300) eq_refl)
    as (_ & H1 & _ & _ & H2).
  split; [exact H1|exact H2].
Defined.

(** ** Varint-A: encoding, then decoding *)

Lemma write_seq_tagged (dst : list byte) (off : nat) (t : Z) (vs : list Z) :
  (off + S (length vs) <= length dst)%nat ->
  fst (write_seq dst off (t :: vs)) !! off = Some (to_u8 t)
  /\ take (length vs) (drop (off + 1) (fst (write_seq dst off (t :: vs))))
     = map to_u8 vs
  /\ take off (fst (write_seq dst off (t :: vs))) = take off dst
  /\ drop (off + S (length vs)) (fst (write_seq dst off (t :: vs)))
     = drop (off + S (length vs)) dst
  /\ length (fst (write_seq dst off (t :: vs))) = length dst.
Proof.
  intros Hlen.
  pose proof (write_seq_drop (t :: vs) dst off Hlen) as Hd.
  destruct (write_seq_shape (t :: vs) dst off Hlen) as (Ht & _ & Hr).
  cbn [map app length] in Hd, Hr.
  destruct (drop_cons_inv _ _ _ _ Hd) as [Hl Hp].
  repeat split; try assumption.
  - rewrite Hp. apply take_app_length'. rewrite length_map. reflexivity.
  - apply write_seq_length.
Qed.

Lemma take_succ_eq (d' d : list byte) (off : nat) (x : byte) :
  d' !! off = Some x -> d !! off = Some x ->
  take off d' = take off d -> take (off + 1) d' = take (off + 1) d.
Proof.
  intros H1 H2 Ht. rewrite Nat.add_1_r.
  rewrite (take_S_r _ _ _ H1), (take_S_r _ _ _ H2), Ht. reflexivity.
Qed.

Lemma take_pred_eq (d' d : list byte) (off : nat) :
  take (off + 1) d' = take (off + 1) d ->
  take off d' = take off d /\ d' !! off = d !! off.
Proof.
  intros H. split.
  - rewrite <- (Nat.min_l off (off + 1)) by lia.
    rewrite <- !take_take, H. reflexivity.
  - rewrite <- (lookup_take_lt d' (off + 1) off) by lia.
    rewrite <- (lookup_take_lt d (off + 1) off) by lia.
    rewrite H. reflexivity.
Qed.

Lemma writeVarint_decodes (dst : list byte) (n : Z) (off : nat) :
  0 <= n <= 2 ^ 53 - 1 ->
  (off + sizeVarint n <= length dst)%nat ->
  fst (writeVarint dst n off) = Ok (off + sizeVarint n)%nat
  /\ readVarint (snd (writeVarint dst n off)) off = Ok (mkVarint (sizeVarint n) n)
  /\ take off (snd (writeVarint dst n off)) = take off dst
  /\ drop (off + sizeVarint n) (snd (writeVarint dst n off))
     = drop (off + sizeVarint n) dst
  /\ length (snd (writeVarint dst n off)) = length dst.
Proof.
  intros Hn. unfold writeVarint, sizeVarint.
  change (2 ^ 53) with 9007199254740992 in Hn.
  destruct (Z.ltb_spec n 0xfd) as [H1|H1];
    [|destruct (Z.leb_spec n 0xffff) as [H2|H2];
      [|destruct (Z.leb_spec n 0xffffffff) as [H3|H3]]]; intros Hlen.
  - destruct (write_seq_tagged dst off (js_and n 0xff) [] ltac:(cbn [length]; lia))
      as (Htag & _ & Ht & Hd & Hl).
    pose proof (write_seq_snd [js_and n 0xff] dst off) as Hs.
    destruct (write_seq dst off [js_and n 0xff]) as [dst' off'].
    cbn [fst snd length] in *. subst off'.
    repeat split; try assumption.
    assert (Hu : u8 (to_u8 (js_and n 0xff)) = n).
    { rewrite u8_to_u8, js_and_0xff. Z.div_mod_to_equations. lia. }
    destruct (readVarint_literal dst' off _ Htag ltac:(lia)) as [E _].
    rewrite E, Hu. reflexivity.
  - destruct (write_seq_tagged dst off 0xfd
                [js_and n 0xff; js_and (js_shr n 8) 0xff]
                ltac:(cbn [length]; lia)) as (Htag & Hp & Ht & Hd & Hl).
    pose proof (write_seq_snd [0xfd; js_and n 0xff; js_and (js_shr n 8) 0xff]
                  dst off) as Hs.
    destruct (write_seq dst off _) as [dst' off'].
    cbn [fst snd length] in *. subst off'.
    repeat split; try assumption.
    destruct (readVarint_fd dst' off _ Htag eq_refl ltac:(lia)) as [_ Hhigh].
    rewrite Hp, le_half in Hhigh by (change (2 ^ 16) with 65536; lia).
    exact (proj1 (Hhigh ltac:(lia))).
  - destruct (write_seq_tagged dst off 0xfe
                [js_and n 0xff; js_and (js_shr n 8) 0xff;
                 js_and (js_shr n 16) 0xff; js_ushr n 24]
                ltac:(cbn [length]; lia)) as (Htag & Hp & Ht & Hd & Hl).
    pose proof (write_seq_snd [0xfe; js_and n 0xff; js_and (js_shr n 8) 0xff;
                               js_and (js_shr n 16) 0xff; js_ushr n 24]
                  dst off) as Hs.
    destruct (write_seq dst off _) as [dst' off'].
    cbn [fst snd length] in *. subst off'.
    repeat split; try assumption.
    destruct (readVarint_fe dst' off _ Htag eq_refl ltac:(lia)) as [_ Hhigh].
    rewrite Hp, le_word in Hhigh by (change (2 ^ 32) with 4294967296; lia).
    exact (proj1 (Hhigh ltac:(lia))).
  - destruct (write_seq_tagged dst off 0xff [] ltac:(cbn [length]; lia))
      as (Htag & _ & Ht & Hd & Hl).
    pose proof (write_seq_snd [0xff] dst off) as Hs.
    destruct (write_seq dst off [0xff]) as [dst1 off1].
    cbn [fst snd length] in *. subst off1. unfold writeU64.
    destruct (_write64_window dst1 n (off + 1) false ltac:(lia) ltac:(lia))
      as (Hr & Ht2 & Hd2 & Hl2 & Hw).
    set (dst2 := snd (_write64 dst1 n (off + 1) false)) in *.
    destruct (take_pred_eq dst2 dst1 off Ht2) as [Ht3 Hlk].
    rewrite Hr. repeat split.
    + f_equal. lia.
    + assert (Htag2 : dst2 !! off = Some (to_u8 0xff)) by congruence.
      destruct (readVarint_ff dst2 off _ Htag2 eq_refl ltac:(lia)) as [_ Hhigh].
      rewrite Hw in Hhigh.
      rewrite Z.mod_small in Hhigh
        by (change (2 ^ 64) with 18446744073709551616; lia).
      exact (proj1 (proj2 (Hhigh ltac:(lia)))
               ltac:(change (2 ^ 53) with 9007199254740992; lia)).
    + congruence.
    + replace (off + 9)%nat with (off + 1 + 8)%nat by lia.
      rewrite Hd2. rewrite <- !(drop_drop _ 8 (off + 1)), Hd. reflexivity.
    + congruence.
Qed.

(** X7.  Varint-A round trip.  For [n] in [0, 2^53-1] and a buffer with
    room for [sizeVarint n] bytes from [off], [writeVarint] returns
    [off + sizeVarint n], touches no byte outside that window, and
    [readVarint] at [off] then returns the pair of that size and [n]. *)
Theorem writeVarint_roundtrip (dst : list byte) (n : Z) (off : nat) :
  0 <= n <= 2 ^ 53 - 1 ->
  (off + sizeVarint n <= length dst)%nat ->
  fst (writeVarint dst n off) = Ok (off + sizeVarint n)%nat
  /\ readVarint (snd (writeVarint dst n off)) off = Ok (mkVarint (sizeVarint n) n)
  /\ take off (snd (writeVarint dst n off)) = take off dst
  /\ drop (off + sizeVarint n) (snd (writeVarint dst n off))
     = drop (off + sizeVarint n) dst.
Proof.
  intros Hn Hlen.
  destruct (writeVarint_decodes dst n off Hn Hlen) as (A & B & C & D & _).
  auto.
Qed.

Lemma writeVarint_roundtrip_witness :
  readVarint (snd (writeVarint (replicate 12 x00) (2 ^ 40) 2)) 2
  = Ok (mkVarint 9 (2 ^ 40)).
Proof.
  exact (proj1 (proj2 (writeVarint_roundtrip (replicate 12 x00) (2 ^ 40) 2
                         ltac:(vm_compute; split; discriminate)
                         ltac:(vm_compute; lia)))).
Defined.

(** ** Varint-A: decoding, then encoding *)

Lemma tag_of_u8 (tag : byte) (k : Z) : u8 tag = k -> to_u8 k = tag.
Proof. intros <-. apply to_u8_u8. Qed.

Lemma readVarint_rewrites (data : list byte) (off : nat) (v : Varint) :
  readVarint data off = Ok v ->
  writeVarint data (value v) off = (Ok (off + size v)%nat, data).
Proof.
  intros Hv.
  destruct (readVarint_inv data off v Hv) as (tag & Htag & Hfit & _ & Hcase).
  pose proof (u8_range tag) as Rt.
  unfold writeVarint.
  change (2 ^ 53) with 9007199254740992 in *.
  destruct Hcase as [[Ht ->]|[(Ht & -> & Hr)|[(Ht & -> & Hr)|(Ht & -> & Hr)]]];
    cbn [size value] in *.
  - destruct (Z.ltb_spec (u8 tag) 0xfd); [|lia].
    cbn [write_seq]. unfold buf_set.
    rewrite js_and_0xff, Z.mod_small, to_u8_u8 by lia.
    rewrite list_insert_id by exact Htag. do 2 f_equal. lia.
  - set (p := le_value (take 2 (drop (off + 1) data))) in *.
    destruct (Z.ltb_spec p 0xfd); [lia|].
    destruct (Z.leb_spec p 0xffff); [|lia].
    destruct (write_seq_tagged data off 0xfd
                [js_and p 0xff; js_and (js_shr p 8) 0xff]
                ltac:(cbn [length]; lia)) as (Htag' & Hp & Ht' & Hd & Hl).
    pose proof (write_seq_snd [0xfd; js_and p 0xff; js_and (js_shr p 8) 0xff]
                  data off) as Hs.
    destruct (write_seq data off _) as [d' off'].
    cbn [fst snd length] in *. subst off'.
    rewrite (tag_of_u8 tag _ Ht) in Htag'.
    f_equal.
    apply (buffer_eq_by_window d' data (off + 1) 2); try assumption.
    + apply (take_succ_eq _ _ _ tag); assumption.
    + replace (off + 1 + 2)%nat with (off + 3)%nat by lia. exact Hd.
    + rewrite Hp. apply le_half. change (2 ^ 16) with 65536. lia.
  - set (p := le_value (take 4 (drop (off + 1) data))) in *.
    destruct (Z.ltb_spec p 0xfd); [lia|].
    destruct (Z.leb_spec p 0xffff); [lia|].
    destruct (Z.leb_spec p 0xffffffff); [|lia].
    destruct (write_seq_tagged data off 0xfe
                [js_and p 0xff; js_and (js_shr p 8) 0xff;
                 js_and (js_shr p 16) 0xff; js_ushr p 24]
                ltac:(cbn [length]; lia)) as (Htag' & Hp & Ht' & Hd & Hl).
    pose proof (write_seq_snd [0xfe; js_and p 0xff; js_and (js_shr p 8) 0xff;
                               js_and (js_shr p 16) 0xff; js_ushr p 24]
                  data off) as Hs.
    destruct (write_seq data off _) as [d' off'].
    cbn [fst snd length] in *. subst off'.
    rewrite (tag_of_u8 tag _ Ht) in Htag'.
    f_equal.
    apply (buffer_eq_by_window d' data (off + 1) 4); try assumption.
    + apply (take_succ_eq _ _ _ tag); assumption.
    + replace (off + 1 + 4)%nat with (off + 5)%nat by lia. exact Hd.
    + rewrite Hp. apply le_word. change (2 ^ 32) with 4294967296. lia.
  - set (p := le_value (take 8 (drop (off + 1) data))) in *.
    destruct (Z.ltb_spec p 0xfd); [lia|].
    destruct (Z.leb_spec p 0xffff); [lia|].
    destruct (Z.leb_spec p 0xffffffff); [lia|].
    cbn [write_seq]. unfold buf_set.
    rewrite (tag_of_u8 tag _ Ht), list_insert_id by exact Htag.
    unfold writeU64.
    destruct (_write64_window data p (S off) false ltac:(lia) ltac:(lia))
      as (Hr' & Ht2 & Hd2 & Hl2 & Hw).
    destruct (_write64 data p (S off) false) as [r d2].
    cbn [fst snd] in *. subst r.
    replace (S off + 8)%nat with (off + 9)%nat in * by lia.
    f_equal.
    apply (buffer_eq_by_window d2 data (S off) 8); try assumption.
    + replace (S off + 8)%nat with (off + 9)%nat by lia. exact Hd2.
    + rewrite Hw. subst p. replace (S off) with (off + 1)%nat by lia.
      apply Z.mod_small. change (2 ^ 64) with 18446744073709551616. lia.
Qed.

(** X8.  Varint-A is canonical.  Writing the value [readVarint] returned
    back at the same offset succeeds, returns the offset after the bytes
    that were read, and leaves the buffer exactly as it was: the bytes
    decoded are the ones the encoder produces. *)
Theorem readVarint_reencode (data : list byte) (off : nat) (v : Varint) :
  readVarint data off = Ok v ->
  writeVarint data (value v) off = (Ok (off + size v)%nat, data).
Proof. exact (readVarint_rewrites data off v). Qed.

Lemma readVarint_reencode_witness :
  writeVarint [xfe; x00; x00; x01; x00; x09] 65536 0
  = (Ok 5%nat, [xfe; x00; x00; x01; x00; x09]).
Proof.
  exact (readVarint_reencode [xfe; x00; x00; x01; x00; x09] 0
           (mkVarint 5 65536) eq_refl).
Defined.

(** ** Varint-B: decoding, then encoding *)

Lemma writeVarint2_digits_more (fuel k : nat) (tmp : list Z) (len : nat) (n : Z)
  (r : list Z * nat) :
  writeVarint2_digits fuel tmp len n = Some r ->
  writeVarint2_digits (fuel + k) tmp len n = Some r.
Proof.
  revert tmp len n. induction fuel as [|fuel IH]; intros tmp len n;
    cbn [writeVarint2_digits Nat.add]; [discriminate|].
  destruct (n <=? 0x7f); [auto|]. apply IH.
Qed.

Lemma arr_set_at_end (tmp : list Z) (len : nat) (x : Z) :
  len = length tmp -> arr_set tmp len x = tmp ++ [x].
Proof. intros ->. apply arr_set_push. Qed.

(** The bytes a successful decode walked over are, last first, the digits
    the encoder extracts from the decoded value. *)
Lemma decode_digits (rest : list byte) (A : Z) (sz : nat) (v : Varint) :
  0 <= A -> readVarint2_loop rest A sz = Ok v ->
  exists bs tail,
    rest = bs ++ tail /\ bs <> []
    /\ size v = (sz + length bs)%nat
    /\ forall fuel,
        writeVarint2_digits (length bs + fuel) [] 0%nat (value v)
        = if A =? 0 then Some (rev (map u8 bs), (length bs - 1)%nat)
          else writeVarint2_digits fuel (rev (map u8 bs)) (length bs) (A - 1).
Proof.
  revert A sz. induction rest as [|b rest IH]; intros A sz HA; [discriminate|].
  rewrite readVarint2_loop_step. pose proof (u8_range b) as Hb.
  destruct (Z.ltb_spec A 0x3fffffffffff) as [Hlim|_]; [|discriminate].
  destruct (Z.ltb_spec (u8 b) 128) as [Hc|Hc].
  - intros [= <-]. exists [b], rest. cbn [size value length map rev app].
    split; [reflexivity|]. split; [discriminate|]. split; [lia|].
    intros fuel. cbn [Nat.add writeVarint2_digits].
    rewrite (arr_set_push []), digit_value, Z.add_0_r by auto. cbn [app].
    replace ((A * 128 + u8 b) mod 128) with (u8 b)
      by (Z.div_mod_to_equations; lia).
    destruct (Z.eqb_spec A 0) as [->|Hnz].
    + destruct (Z.leb_spec (0 * 128 + u8 b) 0x7f); [reflexivity|lia].
    + destruct (Z.leb_spec (A * 128 + u8 b) 0x7f) as [?|Hgt]; [lia|].
      destruct (writeVarint2_next _ Hgt) as [-> _].
      replace ((A * 128 + u8 b) / 128 - 1) with (A - 1)
        by (Z.div_mod_to_equations; lia).
      reflexivity.
  - intros Hrec. apply IH in Hrec; [|lia].
    destruct Hrec as (bs & tail & -> & Hne & Hsz & Hdig).
    exists (b :: bs), tail. cbn [length map rev app].
    split; [reflexivity|]. split; [discriminate|]. split; [lia|].
    intros fuel. specialize (Hdig (S fuel)).
    replace (length bs + S fuel)%nat with (S (length bs) + fuel)%nat in Hdig by lia.
    rewrite Hdig.
    destruct (Z.eqb_spec (A * 128 + (u8 b - 128) + 1) 0) as [?|_]; [lia|].
    cbn [writeVarint2_digits].
    rewrite !arr_set_at_end by (rewrite length_rev, length_map; reflexivity).
    destruct (length bs) as [|k] eqn:Ek; [destruct bs; [congruence|discriminate]|].
    rewrite <- Ek. rewrite digit_value by auto.
    replace ((A * 128 + (u8 b - 128) + 1 - 1) mod 128 + 128) with (u8 b)
      by (Z.div_mod_to_equations; lia).
    destruct (Z.eqb_spec A 0) as [->|Hnz].
    + destruct (Z.leb_spec (0 * 128 + (u8 b - 128) + 1 - 1) 0x7f); [|lia].
      do 2 f_equal. lia.
    + destruct (Z.leb_spec (A * 128 + (u8 b - 128) + 1 - 1) 0x7f) as [?|Hgt];
        [lia|].
      destruct (writeVarint2_next _ Hgt) as [-> _].
      replace ((A * 128 + (u8 b - 128) + 1 - 1) / 128 - 1) with (A - 1)
        by (Z.div_mod_to_equations; lia).
      rewrite Ek. reflexivity.
Qed.

Lemma readVarint2_digits (data : list byte) (off : nat) (v : Varint) :
  readVarint2 data off = Ok v ->
  exists bs tail,
    drop off data = bs ++ tail /\ bs <> []
    /\ size v = length bs
    /\ writeVarint2_digits (loop_fuel (value v)) [] 0%nat (value v)
       = Some (rev (map u8 bs), (length bs - 1)%nat).
Proof.
  intros Hv. unfold readVarint2 in Hv.
  destruct (decode_digits _ 0 0 v ltac:(lia) Hv)
    as (bs & tail & Hd & Hne & Hsz & Hdig).
  exists bs, tail. repeat split; try assumption.
  destruct (writeVarint2_digits_total [] 0 (value v)) as [r E].
  pose proof (writeVarint2_digits_more _ (length bs) _ _ _ _ E) as E'.
  specialize (Hdig (loop_fuel (value v))). cbn [Z.eqb] in Hdig.
  rewrite Nat.add_comm in E'. rewrite E' in Hdig. rewrite E. exact Hdig.
Qed.

Lemma map_to_u8_u8 (bs : list byte) : map to_u8 (map u8 bs) = bs.
Proof.
  induction bs as [|b bs IH]; cbn [map]; [reflexivity|].
  rewrite to_u8_u8, IH. reflexivity.
Qed.

Lemma readVarint2_loop_skip (rest : list byte) (A : Z) (sz : nat) (v : Varint) :
  readVarint2_loop rest A sz = Ok v ->
  skipVarint2_loop rest sz = Ok (size v)
  /\ readVarint2BN_loop rest A sz = Ok v.
Proof.
  revert A sz. induction rest as [|b rest IH]; intros A sz; [discriminate|].
  rewrite readVarint2_loop_step.
  cbn [skipVarint2_loop readVarint2BN_loop]. rewrite !cont_bit, js_and_0x7f.
  pose proof (u8_range b) as Hb.
  destruct (A <? 0x3fffffffffff); [|discriminate].
  destruct (Z.ltb_spec (u8 b) 128) as [Hc|Hc].
  - intros [= <-]. rewrite Z.mod_small by lia. split; reflexivity.
  - intros Hrec.
    replace (u8 b mod 128) with (u8 b - 128) by (Z.div_mod_to_equations; lia).
    apply IH. exact Hrec.
Qed.

(** X9.  Varint-B is canonical and its helpers agree.  When [readVarint2]
    returns a pair, the bytes it consumed lie inside the buffer,
    [skipVarint2] answers the same size, [sizeVarint2] of the value is that
    size, [readVarint2BN] returns the same pair, and writing the value back
    at the same offset leaves the buffer exactly as it was. *)
Theorem readVarint2_reencode (data : list byte) (off : nat) (v : Varint) :
  readVarint2 data off = Ok v ->
  (1 <= size v)%nat /\ (off + size v <= length data)%nat
  /\ skipVarint2 data off = Ok (size v)
  /\ sizeVarint2 (value v) = Ok (size v)
  /\ readVarint2BN data off = Ok v
  /\ writeVarint2 data (value v) (Some off) = (Ok (off + size v)%nat, data).
Proof.
  intros Hv.
  destruct (readVarint2_loop_skip _ _ _ _ Hv) as [Hsk HBN].
  destruct (readVarint2_digits data off v Hv)
    as (bs & tail & Hd & Hne & Hsz & E).
  assert (Hlb : (1 <= length bs)%nat) by (destruct bs; [congruence|cbn; lia]).
  assert (Hfit : (off + length bs <= length data)%nat).
  { apply (f_equal length) in Hd. rewrite length_drop, length_app in Hd. lia. }
  split; [lia|]. split; [lia|]. split; [exact Hsk|].
  split; [|split; [exact HBN|]].
  - unfold sizeVarint2.
    pose proof (sizeVarint2_loop_digits (loop_fuel (value v)) [] 0 (value v) 0)
      as H.
    rewrite E in H. destruct H as [_ ->]. f_equal. lia.
  - unfold writeVarint2. rewrite E, Hsz.
    rewrite nat_leb_true by lia. cbn [negb].
    rewrite emit_digits_write_seq by (rewrite length_rev, length_map; lia).
    rewrite take_ge by (rewrite length_rev, length_map; lia).
    rewrite rev_involutive.
    pose proof (write_seq_snd (map u8 bs) data off) as Hs.
    pose proof (write_seq_fst (map u8 bs) data off) as Hf.
    rewrite length_map in Hs, Hf. specialize (Hf Hfit).
    destruct (write_seq data off (map u8 bs)) as [d' off'].
    cbn [fst snd] in *. subst off' d'.
    rewrite map_to_u8_u8. f_equal.
    rewrite <- (take_drop off data) at 3. f_equal.
    rewrite Hd. f_equal.
    rewrite <- drop_drop, Hd, drop_app_length. reflexivity.
Qed.

Lemma readVarint2_reencode_witness :
  writeVarint2 [x09; x80; x80; x00; x05] 16512 (Some 1%nat)
  = (Ok 4%nat, [x09; x80; x80; x00; x05]).
Proof.
  exact (proj2 (proj2 (proj2 (proj2 (proj2
    (readVarint2_reencode [x09; x80; x80; x00; x05] 1
       (mkVarint 3 16512) eq_refl)))))).
Defined.

(** ** Varint-B: skipping *)

Lemma skipVarint2_loop_found (bs : list byte) (b : byte) (tail : list byte)
  (sz : nat) :
  Forall (fun c => 128 <= u8 c) bs -> u8 b < 128 ->
  skipVarint2_loop (bs ++ b :: tail) sz = Ok (sz + length bs + 1)%nat.
Proof.
  intros Hall Hb. revert sz.
  induction Hall as [|c bs Hc _ IH]; intros sz;
    cbn [app skipVarint2_loop length]; rewrite cont_bit.
  - destruct (Z.ltb_spec (u8 b) 128); [|lia]. f_equal. lia.
  - destruct (Z.ltb_spec (u8 c) 128); [lia|]. rewrite IH. f_equal. lia.
Qed.

Lemma skipVarint2_loop_cases (rest : list byte) (sz : nat) :
  (Forall (fun c => 128 <= u8 c) rest
   /\ skipVarint2_loop rest sz = Throw BoundsFault)
  \/ (exists bs b tail,
        rest = bs ++ b :: tail /\ Forall (fun c => 128 <= u8 c) bs
        /\ u8 b < 128
        /\ skipVarint2_loop rest sz = Ok (sz + length bs + 1)%nat).
Proof.
  revert sz. induction rest as [|c rest IH]; intros sz.
  - left. split; [constructor|reflexivity].
  - destruct (Z.lt_ge_cases (u8 c) 128) as [Hc|Hc].
    + right. exists [], c, rest. split; [reflexivity|]. split; [constructor|].
      split; [exact Hc|].
      exact (skipVarint2_loop_found [] c rest sz ltac:(constructor) Hc).
    + destruct (IH (S sz)) as [[Hall E]|(bs & b & tail & -> & Hall & Hb & E)].
      * left. split; [constructor; assumption|].
        cbn [skipVarint2_loop]. rewrite cont_bit.
        destruct (Z.ltb_spec (u8 c) 128); [lia|]. exact E.
      * right. exists (c :: bs), b, tail. split; [reflexivity|].
        split; [constructor; assumption|]. split; [exact Hb|].
        exact (skipVarint2_loop_found (c :: bs) b tail sz
                 ltac:(constructor; assumption) Hb).
Qed.

(** X10.  [skipVarint2] looks for the first byte at or after [off] whose
    continuation flag is clear: it returns the number of bytes up to and
    including that byte, and raises a [BoundsFault] exactly when every
    remaining byte carries the flag (in particular past the end).  It has
    no other outcome. *)
Theorem skipVarint2_first_terminal (data : list byte) (off : nat) :
  (Forall (fun c => 128 <= u8 c) (drop off data)
   /\ skipVarint2 data off = Throw BoundsFault)
  \/ (exists bs b tail,
        drop off data = bs ++ b :: tail
        /\ Forall (fun c => 128 <= u8 c) bs /\ u8 b < 128
        /\ skipVarint2 data off = Ok (length bs + 1)%nat
        /\ (off + (length bs + 1) <= length data)%nat).
Proof.
  unfold skipVarint2.
  destruct (skipVarint2_loop_cases (drop off data) 0)
    as [H|(bs & b & tail & Hd & Hall & Hb & E)]; [left; exact H|].
  right. exists bs, b, tail. repeat split; try assumption.
  apply (f_equal length) in Hd.
  rewrite length_drop, length_app in Hd. cbn [length] in Hd. lia.
Qed.

(** ** Varint-B: what the writer leaves alone *)

Lemma writeVarint2_digits_length (fuel : nat) (tmp : list Z) (n : Z)
  (tmp' : list Z) (len' : nat) :
  writeVarint2_digits fuel tmp (length tmp) n = Some (tmp', len') ->
  S len' = length tmp'.
Proof.
  revert tmp n. induction fuel as [|fuel IH]; intros tmp n;
    cbn [writeVarint2_digits]; [discriminate|].
  rewrite arr_set_push.
  destruct (n <=? 0x7f).
  - intros [= <- <-]. rewrite length_app. cbn [length]. lia.
  - intros H.
    match type of H with
    | writeVarint2_digits _ ?t _ _ = _ =>
        replace (S (length tmp)) with (length t) in H
          by (rewrite length_app; cbn [length]; lia)
    end.
    exact (IH _ _ H).
Qed.

(** The bytes [writeVarint2] stores for [n], most significant digit first;
    they depend on [n] alone. *)
Lemma writeVarint2_bytes (n : Z) :
  exists enc : list byte,
    sizeVarint2 n = Ok (length enc)
    /\ forall (dst : list byte) (off : nat),
        (off + length enc <= length dst)%nat ->
        writeVarint2 dst n (Some off)
        = (Ok (off + length enc)%nat,
           take off dst ++ enc ++ drop (off + length enc) dst).
Proof.
  destruct (writeVarint2_digits_total [] 0 n) as [[tmp' len'] E].
  pose proof (writeVarint2_digits_length _ [] n tmp' len' E) as Hl.
  pose proof (sizeVarint2_loop_digits (loop_fuel n) [] 0 n 0) as Hsz.
  rewrite E in Hsz. destruct Hsz as [_ Hsz].
  exists (map to_u8 (rev tmp')). rewrite length_map, length_rev. split.
  - unfold sizeVarint2. rewrite Hsz. f_equal. lia.
  - intros dst off Hlen. unfold writeVarint2. rewrite E.
    rewrite nat_leb_true by lia. cbn [negb].
    rewrite emit_digits_write_seq by lia.
    rewrite Hl, take_ge by lia.
    pose proof (write_seq_snd (rev tmp') dst off) as Hs.
    pose proof (write_seq_fst (rev tmp') dst off) as Hf.
    rewrite length_rev in Hs, Hf. specialize (Hf Hlen).
    destruct (write_seq dst off (rev tmp')) as [dst' off'].
    cbn [fst snd] in *. subst. reflexivity.
Qed.

(** X11.  [writeVarint2] with room for the whole encoding returns
    [off + sizeVarint2 n], changes exactly the [sizeVarint2 n] bytes from
    [off] and keeps the length of the buffer. *)
Theorem writeVarint2_frame (dst : list byte) (n : Z) (off sz : nat) :
  - (2 ^ 53 - 1) <= n <= 2 ^ 53 - 1 ->
  sizeVarint2 n = Ok sz ->
  (off + sz <= length dst)%nat ->
  fst (writeVarint2 dst n (Some off)) = Ok (off + sz)%nat
  /\ take off (snd (writeVarint2 dst n (Some off))) = take off dst
  /\ drop (off + sz) (snd (writeVarint2 dst n (Some off))) = drop (off + sz) dst
  /\ length (snd (writeVarint2 dst n (Some off))) = length dst.
Proof.
  intros _ Hsz Hlen.
  destruct (writeVarint2_bytes n) as (enc & Hs & Hw).
  rewrite Hs in Hsz. injection Hsz as <-.
  rewrite (Hw dst off Hlen). cbn [fst snd]. repeat split.
  - rewrite take_app_length' by (rewrite length_take; lia). reflexivity.
  - rewrite app_assoc, drop_app_length'
      by (rewrite length_app, length_take; lia).
    reflexivity.
  - rewrite !length_app, length_take, length_drop. lia.
Qed.

Lemma writeVarint2_frame_witness :
  fst (writeVarint2 [x01; x02; x03; x04; x05] 300 (Some 1%nat)) = Ok 3%nat
  /\ drop 3 (snd (writeVarint2 [x01; x02; x03; x04; x05] 300 (Some 1%nat)))
     = [x04; x05].
Proof.
  destruct (writeVarint2_frame [x01; x02; x03; x04; x05] 300 1 2
              ltac:(vm_compute; split; discriminate) eq_refl
              ltac:(vm_compute; lia)) as (A & _ & B & _).
  split; [exact A|exact B].
Defined.

(** ** Varint-B: writing two values one after the other *)

Lemma varint2_encoding_decodes (n : Z) (enc : list byte) (dst : list byte)
  (off : nat) :
  0 <= n < 2 ^ 53 - 128 ->
  (off + length enc <= length dst)%nat ->
  (forall (dst : list byte) (off : nat),
      (off + length enc <= length dst)%nat ->
      writeVarint2 dst n (Some off)
      = (Ok (off + length enc)%nat,
         take off dst ++ enc ++ drop (off + length enc) dst)) ->
  forall rest, readVarint2_loop (enc ++ rest) 0 0%nat
               = Ok (mkVarint (length enc) n).
Proof.
  intros Hn Hlen Hw rest.
  destruct (writeVarint2_digits_total [] 0 n) as [[tmp' len'] E].
  destruct (writeVarint2_digits_decode _ n tmp' len' Hn E) as [Hl Hdec].
  assert (Henc : enc = map to_u8 (rev tmp')).
  { specialize (Hw (replicate (length enc) x00) 0%nat
                  ltac:(rewrite length_replicate; lia)).
    unfold writeVarint2 in Hw. rewrite E in Hw.
    destruct (0 + len' <=? length (replicate (length enc) x00))%nat;
      cbn [negb] in Hw; [|discriminate].
    rewrite emit_digits_write_seq in Hw by lia.
    rewrite Hl, take_ge in Hw by lia.
    pose proof (write_seq_snd (rev tmp') (replicate (length enc) x00) 0) as Hs.
    destruct (write_seq (replicate (length enc) x00) 0 (rev tmp'))
      as [d' off'] eqn:Ew.
    cbn [snd] in Hs. injection Hw as Ho Hd.
    rewrite Hs, length_rev in Ho. cbn [Nat.add] in Ho.
    pose proof (write_seq_fst (rev tmp') (replicate (length enc) x00) 0) as Hf.
    rewrite Ew, length_rev, length_replicate in Hf. cbn [fst] in Hf.
    specialize (Hf ltac:(lia)). rewrite Hf in Hd.
    cbn [take app Nat.add] in Hd.
    rewrite !drop_ge in Hd by (rewrite length_replicate; lia).
    rewrite !app_nil_r in Hd. symmetry. exact Hd. }
  rewrite Henc at 1. rewrite Hdec. rewrite Henc, length_map, length_rev.
  reflexivity.
Qed.

(** X12.  Offset chaining.  Two values below 2^53-128 written with
    [writeVarint2] one after the other, the second at the offset the first
    call returned, are both read back by [readVarint2] from the final
    buffer, each with its size. *)
Theorem writeVarint2_chained (dst : list byte) (n1 n2 : Z) (off s1 s2 : nat) :
  0 <= n1 < 2 ^ 53 - 128 -> 0 <= n2 < 2 ^ 53 - 128 ->
  sizeVarint2 n1 = Ok s1 -> sizeVarint2 n2 = Ok s2 ->
  (off + s1 + s2 <= length dst)%nat ->
  let d1 := snd (writeVarint2 dst n1 (Some off)) in
  let d2 := snd (writeVarint2 d1 n2 (Some (off + s1)%nat)) in
  fst (writeVarint2 dst n1 (Some off)) = Ok (off + s1)%nat
  /\ fst (writeVarint2 d1 n2 (Some (off + s1)%nat)) = Ok (off + s1 + s2)%nat
  /\ readVarint2 d2 off = Ok (mkVarint s1 n1)
  /\ readVarint2 d2 (off + s1) = Ok (mkVarint s2 n2).
Proof.
  intros H1 H2 Hs1 Hs2 Hlen d1 d2. subst d1 d2.
  destruct (writeVarint2_bytes n1) as (e1 & Hz1 & Hw1).
  destruct (writeVarint2_bytes n2) as (e2 & Hz2 & Hw2).
  rewrite Hz1 in Hs1. rewrite Hz2 in Hs2.
  injection Hs1 as <-. injection Hs2 as <-.
  rewrite (Hw1 dst off ltac:(lia)). cbn [fst snd].
  set (d1 := take off dst ++ e1 ++ drop (off + length e1) dst).
  assert (Hl1 : length d1 = length dst).
  { subst d1. rewrite !length_app, length_take, length_drop. lia. }
  rewrite (Hw2 d1 (off + length e1)%nat ltac:(lia)). cbn [fst snd].
  assert (Ht : take (off + length e1) d1 = take off dst ++ e1).
  { subst d1. rewrite app_assoc.
    apply take_app_length'. rewrite length_app, length_take. lia. }
  rewrite Ht.
  repeat split.
  - unfold readVarint2. rewrite <- app_assoc.
    rewrite drop_app_length' by (rewrite length_take; lia).
    exact (varint2_encoding_decodes n1 e1 dst off H1 ltac:(lia) Hw1 _).
  - unfold readVarint2.
    rewrite drop_app_length' by (rewrite length_app, length_take; lia).
    exact (varint2_encoding_decodes n2 e2 dst off H2 ltac:(lia) Hw2 _).
Qed.

Lemma writeVarint2_chained_witness :
  readVarint2
    (snd (writeVarint2 (snd (writeVarint2 (replicate 6 x00) 300 (Some 1%nat)))
            16512 (Some 3%nat))) 3
  = Ok (mkVarint 3 16512).
Proof.
  pose proof (writeVarint2_chained (replicate 6 x00) 300 16512 1 2 3
                ltac:(vm_compute; split; [discriminate|reflexivity])
                ltac:(vm_compute; split; [discriminate|reflexivity])
                eq_refl eq_refl ltac:(vm_compute; lia)) as H.
  cbv zeta in H. exact (proj2 (proj2 (proj2 H))).
Defined.

(** ** Varint-B: the value classes of each length *)

Lemma varint2_class_step (k : nat) : 128 <= varint2_class (S k).
Proof.
  induction k as [|k IH]; [cbn; lia|].
  change (varint2_class (S (S k))) with (128 * (varint2_class (S k) + 1)). lia.
Qed.

Lemma sizeVarint2_loop_grows (fuel : nat) (s : nat) (n : Z) (r : nat) :
  sizeVarint2_loop fuel s n = Ok r -> (s < r)%nat.
Proof.
  revert s n. induction fuel as [|fuel IH]; intros s n;
    cbn [sizeVarint2_loop]; [discriminate|].
  destruct (n <=? 0x7f).
  - intros [= <-]. lia.
  - intros H. apply IH in H. lia.
Qed.

Lemma sizeVarint2_loop_class (fuel : nat) (k s : nat) (n : Z) :
  0 <= n -> Z.log2 n < Z.of_nat fuel ->
  sizeVarint2_loop fuel s n = Ok (s + S k)%nat
  <-> varint2_class k <= n < varint2_class (S k).
Proof.
  revert k s n. induction fuel as [|fuel IH]; intros k s n Hn Hf.
  - pose proof (Z.log2_nonneg n). lia.
  - cbn [sizeVarint2_loop].
    destruct (Z.leb_spec n 0x7f) as [Hle|Hgt].
    + destruct k as [|k].
      * change (varint2_class 1) with 128. change (varint2_class 0) with 0.
        split; [lia|]. intros _. f_equal. lia.
      * pose proof (varint2_class_step k) as Hc. split; [|lia].
        intros [= Hs]. lia.
    + destruct (writeVarint2_next n Hgt) as [-> Hnn].
      pose proof (log2_next n fuel Hgt Hf) as Hf'.
      destruct k as [|k].
      * change (varint2_class 1) with 128. change (varint2_class 0) with 0.
        split; [|lia]. intros H. apply sizeVarint2_loop_grows in H. lia.
      * replace (s + S (S k))%nat with (S s + S k)%nat by lia.
        rewrite (IH k (S s) (n / 128 - 1) Hnn Hf').
        change (varint2_class (S (S k))) with (128 * (varint2_class (S k) + 1)).
        change (varint2_class (S k)) with (128 * (varint2_class k + 1)).
        split; intros H; Z.div_mod_to_equations; lia.
Qed.

(** X13.  Every length of Varint-B covers one contiguous range of values:
    for a safe integer [n] in [0, 2^53-1], where the loop of [sizeVarint2]
    computes exactly, [sizeVarint2 n] is [k + 1] exactly when [n] lies
    between the [k]-th bound (0, 128, 16512, 2113664, ...) and the next
    one. *)
Theorem sizeVarint2_classes (n : Z) (k : nat) :
  0 <= n <= 2 ^ 53 - 1 ->
  sizeVarint2 n = Ok (S k) <-> varint2_class k <= n < varint2_class (S k).
Proof.
  intros [Hn _]. unfold sizeVarint2.
  apply (sizeVarint2_loop_class (loop_fuel n) k 0 n Hn).
  unfold loop_fuel. pose proof (Z.log2_nonneg n). lia.
Qed.

Lemma sizeVarint2_classes_witness :
  sizeVarint2 16511 = Ok 2%nat /\ sizeVarint2 (2 ^ 53 - 1) = Ok 8%nat.
Proof.
  split.
  - apply (proj2 (sizeVarint2_classes 16511 1 ltac:(vm_compute; split; discriminate))).
    vm_compute. split; [discriminate|reflexivity].
  - apply (proj2 (sizeVarint2_classes (2 ^ 53 - 1) 7
                    ltac:(vm_compute; split; discriminate))).
    vm_compute. split; [discriminate|reflexivity].
Defined.

(** ** Fixed64: the big-integer writer *)

Lemma le_bytes_length (n : nat) (m : Z) : length (le_bytes n m) = n.
Proof.
  revert m. induction n as [|n IH]; intros m; cbn [le_bytes length];
    [reflexivity|]. rewrite IH. reflexivity.
Qed.

Lemma le_bytes_value (n : nat) (m : Z) :
  le_value (map to_u8 (le_bytes n m)) = m mod 256 ^ Z.of_nat n.
Proof.
  revert m. induction n as [|n IH]; intros m; cbn [le_bytes map le_value].
  - change (256 ^ Z.of_nat 0) with 1. rewrite Z.mod_1_r. reflexivity.
  - rewrite IH, u8_to_u8, Nat2Z.inj_succ, Z.pow_succ_r by lia.
    assert (0 < 256 ^ Z.of_nat n) by (apply Z.pow_pos_nonneg; lia).
    rewrite Z.mod_mod by lia.
    rewrite (Z.rem_mul_r m 256 (256 ^ Z.of_nat n)) by lia. reflexivity.
Qed.

Lemma bn_value_fresh (h : list Z) (x : Z) : bn_value (h ++ [x]) (length h) = x.
Proof.
  unfold bn_value. rewrite lookup_app_r by lia.
  rewrite Nat.sub_diag. reflexivity.
Qed.

(** The array [toArray] hands to the store loop of [_write64BN]: the eight
    bytes of the value modulo 2^64. *)
Lemma _write64BN_array (h : list Z) (num : nat) (be : bool) :
  53 < bn_bitLength h num <= 64 ->
  let s1 := if 64 <? bn_bitLength h num then bn_uand h num U64_MAX
            else (h, num) in
  let s2 := if bn_isNeg (fst s1) (snd s1)
            then let '(h, num) := bn_neg (fst s1) (snd s1) in
                 let h := bn_inotn h num 64 in
                 let h := bn_iaddn h num 1 in (h, num)
            else s1 in
  bn_toArray (fst s2) (snd s2) be
  = Ok (if be then rev (le_bytes 8 (bn_value h num mod 2 ^ 64))
        else le_bytes 8 (bn_value h num mod 2 ^ 64)).
Proof.
  intros [Hlo Hhi] s1 s2. subst s1 s2.
  destruct (Z.ltb_spec 64 (bn_bitLength h num)) as [?|_]; [lia|].
  cbn [fst snd]. unfold bn_bitLength in *.
  pose proof (proj1 (bitLength_le (bn_value h num) 64 ltac:(lia)) Hhi) as Habs.
  set (v := bn_value h num) in *.
  change (2 ^ 64) with 18446744073709551616 in *.
  unfold bn_isNeg. fold v.
  destruct (Z.ltb_spec v 0) as [Hneg|Hpos].
  - cbn [bn_neg bn_new fst snd]. unfold bn_iaddn, bn_inotn, bn_toArray.
    rewrite !bn_value_fresh.
    rewrite !bn_value_update
      by (rewrite ?length_insert, length_app; cbn [length]; lia).
    fold v.
    destruct (Z.ltb_spec (- v) 0); [lia|].
    rewrite (Z.abs_eq (- v)) by lia.
    rewrite lxor_ones_low
      by (change (2 ^ 64) with 18446744073709551616; lia).
    change (2 ^ 64) with 18446744073709551616.
    replace (Z.abs (18446744073709551616 - 1 - - v + 1)) with (v mod 18446744073709551616)
      by (Z.div_mod_to_equations; lia).
    assert (Hb : bitLength (v mod 18446744073709551616) <= 64).
    { apply bitLength_le; [lia|].
      change (2 ^ 64) with 18446744073709551616.
      Z.div_mod_to_equations. lia. }
    destruct (Z.leb_spec (bitLength (v mod 18446744073709551616)) 64); [|lia].
    reflexivity.
  - cbn [fst snd]. unfold bn_toArray. fold v. rewrite (Z.abs_eq v) by lia.
    rewrite Z.abs_eq in Habs by lia.
    rewrite (Z.mod_small v) by lia.
    assert (Hb : bitLength v <= 64).
    { apply bitLength_le; [lia|].
      change (2 ^ 64) with 18446744073709551616. lia. }
    destruct (Z.leb_spec (bitLength v) 64); [|lia]. reflexivity.
Qed.

Lemma _write64BN_window (h : list Z) (dst : list byte) (num off : nat) (be : bool) :
  (off + 8 <= length dst)%nat ->
  Z.abs (bn_value h num) < 2 ^ 64 ->
  let r := _write64BN h dst num off be in
  fst (fst r) = Ok (off + 8)%nat
  /\ take off (snd (fst r)) = take off dst
  /\ drop (off + 8) (snd (fst r)) = drop (off + 8) dst
  /\ length (snd (fst r)) = length dst
  /\ (if be then le_value (rev (take 8 (drop off (snd (fst r)))))
      else le_value (take 8 (drop off (snd (fst r)))))
     = bn_value h num mod 2 ^ 64.
Proof.
  intros Hlen Habs r. subst r. unfold _write64BN.
  destruct (Z.leb_spec (bn_bitLength h num) 53) as [Hs|Hb].
  - unfold bn_bitLength in Hs.
    apply (proj1 (bitLength_le _ 53 ltac:(lia))) in Hs.
    unfold bn_toNumber.
    destruct (_write64_window dst (bn_value h num) off be Hlen ltac:(lia))
      as (A & B & C & D & E).
    destruct (_write64 dst (bn_value h num) off be) as [r d].
    cbn [fst snd] in *. auto.
  - assert (Hb64 : bn_bitLength h num <= 64)
      by (apply bitLength_le; [lia|exact Habs]).
    pose proof (_write64BN_array h num be ltac:(lia)) as Harr.
    cbv zeta in Harr.
    destruct (if 64 <? bn_bitLength h num then bn_uand h num U64_MAX
              else (h, num)) as [h1 n1].
    cbn [fst snd] in Harr.
    destruct (if bn_isNeg h1 n1
              then let '(h, num) := bn_neg h1 n1 in
                   let h := bn_inotn h num 64 in
                   let h := bn_iaddn h num 1 in (h, num)
              else (h1, n1)) as [h2 n2].
    cbn [fst snd] in Harr. rewrite Harr.
    set (W := bn_value h num mod 2 ^ 64) in *.
    set (arr := if be then rev (le_bytes 8 W) else le_bytes 8 W).
    assert (Hla : length arr = 8%nat)
      by (subst arr; destruct be; rewrite ?length_rev, le_bytes_length;
          reflexivity).
    pose proof (write_seq_snd arr dst off) as Hs.
    destruct (write_seq_shape arr dst off ltac:(lia)) as (Ht & Hw & Hd).
    pose proof (write_seq_length arr dst off) as Hl.
    destruct (write_seq dst off arr) as [d' off'].
    cbn [fst snd] in *. rewrite Hla in *.
    repeat split; try assumption; [congruence|].
    rewrite Hw. subst arr.
    assert (HW : W mod 256 ^ Z.of_nat 8 = W).
    { subst W. change (256 ^ Z.of_nat 8) with (2 ^ 64).
      apply Z.mod_mod. lia. }
    destruct be.
    + rewrite map_rev, rev_involutive, le_bytes_value. exact HW.
    + rewrite le_bytes_value. exact HW.
Qed.

(** X14.  Wire layout of the big-integer 64-bit writers.  For a big
    integer of magnitude below 2^64 and a buffer with eight bytes from
    [off], the writer returns [off + 8], changes the eight bytes of the
    window and nothing else, and the window holds the value modulo 2^64 in
    the requested byte order. *)
Theorem write64BN_layout (h : list Z) (dst : list byte) (num off : nat) (be : bool) :
  (off + 8 <= length dst)%nat ->
  Z.abs (bn_value h num) < 2 ^ 64 ->
  fst (fst (_write64BN h dst num off be)) = Ok (off + 8)%nat
  /\ take off (snd (fst (_write64BN h dst num off be))) = take off dst
  /\ drop (off + 8) (snd (fst (_write64BN h dst num off be)))
     = drop (off + 8) dst
  /\ length (snd (fst (_write64BN h dst num off be))) = length dst
  /\ (if be
      then readU64BEBN (snd (fst (_write64BN h dst num off be))) off
      else readU64BN (snd (fst (_write64BN h dst num off be))) off)
     = bn_value h num mod 2 ^ 64.
Proof.
  intros Hlen Habs.
  exact (_write64BN_window h dst num off be Hlen Habs).
Qed.

Lemma write64BN_layout_witness :
  readU64BEBN (snd (fst (write64BEBN [- 2 ^ 60] (replicate 9 x00) 0 1))) 1
  = (- 2 ^ 60) mod 2 ^ 64.
Proof.
  exact (proj2 (proj2 (proj2 (proj2
    (write64BN_layout [- 2 ^ 60] (replicate 9 x00) 0 1 true
       ltac:(vm_compute; lia) ltac:(vm_compute; reflexivity)))))).
Defined.

Lemma _write64BN_readback (h : list Z) (dst : list byte) (num off : nat) (be : bool) :
  (off + 8 <= length dst)%nat ->
  let d := snd (fst (_write64BN h dst num off be)) in
  (0 <= bn_value h num <= 2 ^ 64 - 1 ->
   (if be then readU64BEBN d off else readU64BN d off) = bn_value h num)
  /\ (- 2 ^ 63 <= bn_value h num <= 2 ^ 63 - 1 ->
      (if be then read64BEBN d off else read64BN d off) = bn_value h num).
Proof.
  intros Hlen d. subst d.
  change (2 ^ 64) with 18446744073709551616.
  change (2 ^ 63) with 9223372036854775808.
  split; intros Hv.
  - destruct (_write64BN_window h dst num off be Hlen
                ltac:(change (2 ^ 64) with 18446744073709551616; lia))
      as (_ & _ & _ & _ & Hw).
    unfold readU64BEBN, readU64BN. rewrite Hw.
    apply Z.mod_small. change (2 ^ 64) with 18446744073709551616. lia.
  - destruct (_write64BN_window h dst num off be Hlen
                ltac:(change (2 ^ 64) with 18446744073709551616; lia))
      as (_ & _ & _ & Hl & Hw).
    destruct (read64BN_twos (snd (fst (_write64BN h dst num off be))) off
                ltac:(lia)) as (_ & _ & T1 & T2).
    change (2 ^ 64) with 18446744073709551616 in *.
    change (2 ^ 63) with 9223372036854775808 in *.
    destruct be; [rewrite T2|rewrite T1];
      unfold readU64BEBN, readU64BN; rewrite Hw;
      match goal with |- context [?x <? 9223372036854775808] =>
        destruct (Z.ltb_spec x 9223372036854775808) end;
      Z.div_mod_to_equations; lia.
Qed.

(** X15.  Round trip across the 53-bit boundary.  On a buffer with eight
    bytes from [off], a big integer in [0, 2^64-1] written by [writeU64BN]
    or [writeU64BEBN] is returned by [readU64BN] or [readU64BEBN], and one
    in [-2^63, 2^63-1] written by [write64BN] or [write64BEBN] is returned
    by [read64BN] or [read64BEBN]. *)
Theorem fixed64BN_roundtrip (h : list Z) (dst : list byte) (num off : nat) :
  (off + 8 <= length dst)%nat ->
  (0 <= bn_value h num <= 2 ^ 64 - 1 ->
     readU64BN (snd (fst (writeU64BN h dst num off))) off = bn_value h num
     /\ readU64BEBN (snd (fst (writeU64BEBN h dst num off))) off
        = bn_value h num)
  /\ (- 2 ^ 63 <= bn_value h num <= 2 ^ 63 - 1 ->
     read64BN (snd (fst (write64BN h dst num off))) off = bn_value h num
     /\ read64BEBN (snd (fst (write64BEBN h dst num off))) off
        = bn_value h num).
Proof.
  intros Hlen.
  unfold writeU64BN, writeU64BEBN, write64BN, write64BEBN.
  destruct (_write64BN_readback h dst num off false Hlen) as [A B].
  destruct (_write64BN_readback h dst num off true Hlen) as [C D].
  cbv zeta in *. split; intros Hv; split; auto.
Qed.

Lemma fixed64BN_roundtrip_witness :
  readU64BN (snd (fst (writeU64BN [2 ^ 64 - 1] (replicate 8 x00) 0 0))) 0
  = 2 ^ 64 - 1
  /\ read64BEBN (snd (fst (write64BEBN [- 2 ^ 63] (replicate 8 x00) 0 0))) 0
     = - 2 ^ 63.
Proof.
  split.
  - exact (proj1 (proj1 (fixed64BN_roundtrip [2 ^ 64 - 1] (replicate 8 x00) 0 0
                           ltac:(vm_compute; lia))
                    ltac:(vm_compute; split; discriminate))).
  - exact (proj2 (proj2 (fixed64BN_roundtrip [- 2 ^ 63] (replicate 8 x00) 0 0
                           ltac:(vm_compute; lia))
                    ltac:(vm_compute; split; discriminate))).
Defined.

(** ** Varint-A: the big-integer path *)

Lemma writeVarintBN_as_native (h : list Z) (dst : list byte) (num off : nat) :
  0 <= bn_value h num <= 2 ^ 53 - 1 ->
  writeVarintBN h dst num off
  = (fst (writeVarint dst (bn_value h num) off),
     snd (writeVarint dst (bn_value h num) off), h)
  /\ sizeVarintBN h num = sizeVarint (bn_value h num).
Proof.
  intros Hv. unfold writeVarintBN, sizeVarintBN, bn_bitLength, bn_toNumber.
  rewrite bitLength_gt32 by lia.
  change (2 ^ 53) with 9007199254740992 in Hv.
  destruct (Z.ltb_spec 0xffffffff (bn_value h num)) as [Hbig|Hsmall].
  - split.
    + unfold writeVarint.
      destruct (Z.ltb_spec (bn_value h num) 0xfd); [lia|].
      destruct (Z.leb_spec (bn_value h num) 0xffff); [lia|].
      destruct (Z.leb_spec (bn_value h num) 0xffffffff); [lia|].
      destruct (write_seq dst off [0xff]) as [d1 o1].
      unfold writeU64BN, _write64BN, writeU64, bn_bitLength, bn_toNumber.
      assert (Hb : bitLength (bn_value h num) <= 53).
      { apply bitLength_le; [lia|].
        change (2 ^ 53) with 9007199254740992. lia. }
      destruct (Z.leb_spec (bitLength (bn_value h num)) 53); [|lia].
      destruct (_write64 d1 (bn_value h num) o1 false). reflexivity.
    + unfold sizeVarint.
      destruct (Z.ltb_spec (bn_value h num) 0xfd); [lia|].
      destruct (Z.leb_spec (bn_value h num) 0xffff); [lia|].
      destruct (Z.leb_spec (bn_value h num) 0xffffffff); [lia|]. reflexivity.
  - split; [|reflexivity].
    destruct (writeVarint dst (bn_value h num) off). reflexivity.
Qed.

(** X16.  For a big integer in [0, 2^53-1], [writeVarintBN] behaves as
    [writeVarint] on its number: the same outcome, the same buffer, no
    change to any big-integer object; and [sizeVarintBN] equals
    [sizeVarint]. *)
Theorem writeVarintBN_matches_native (h : list Z) (dst : list byte)
  (num off : nat) :
  0 <= bn_value h num <= 2 ^ 53 - 1 ->
  writeVarintBN h dst num off
  = (fst (writeVarint dst (bn_value h num) off),
     snd (writeVarint dst (bn_value h num) off), h)
  /\ sizeVarintBN h num = sizeVarint (bn_value h num).
Proof. exact (writeVarintBN_as_native h dst num off). Qed.

Lemma writeVarintBN_matches_native_witness :
  writeVarintBN [2 ^ 40] (replicate 9 x00) 0 0
  = (Ok 9%nat, [xff; x00; x00; x00; x00; x00; x01; x00; x00], [2 ^ 40]).
Proof.
  exact (proj1 (writeVarintBN_matches_native [2 ^ 40] (replicate 9 x00) 0 0
                  ltac:(vm_compute; split; discriminate))).
Defined.

Lemma readVarintBN_of_native (data : list byte) (off : nat) (v : Varint) :
  readVarint data off = Ok v -> readVarintBN data off = Ok v.
Proof.
  intros Hv. exact (proj2 (proj2 (proj2 (proj2 (readVarint_facts data off v Hv))))).
Qed.

Lemma writeVarintBN_decodes (h : list Z) (dst : list byte) (num off : nat) :
  0 <= bn_value h num <= 2 ^ 64 - 1 ->
  (off + sizeVarintBN h num <= length dst)%nat ->
  fst (fst (writeVarintBN h dst num off)) = Ok (off + sizeVarintBN h num)%nat
  /\ readVarintBN (snd (fst (writeVarintBN h dst num off))) off
     = Ok (mkVarint (sizeVarintBN h num) (bn_value h num)).
Proof.
  intros Hv.
  change (2 ^ 64) with 18446744073709551616 in Hv.
  destruct (Z.le_gt_cases (bn_value h num) 0xffffffff) as [Hsmall|Hbig].
  - destruct (writeVarintBN_as_native h dst num off
                ltac:(change (2 ^ 53) with 9007199254740992; lia)) as [-> ->].
    cbn [fst snd]. intros Hlen.
    destruct (writeVarint_decodes dst (bn_value h num) off
                ltac:(change (2 ^ 53) with 9007199254740992; lia) Hlen)
      as (A & B & _).
    split; [exact A|]. apply readVarintBN_of_native. exact B.
  - unfold writeVarintBN, sizeVarintBN, bn_bitLength.
    rewrite bitLength_gt32 by lia.
    destruct (Z.ltb_spec 0xffffffff (bn_value h num)); [|lia].
    intros Hlen.
    destruct (write_seq_tagged dst off 0xff [] ltac:(cbn [length]; lia))
      as (Htag & _ & Ht & Hd & Hl).
    pose proof (write_seq_snd [0xff] dst off) as Hs.
    destruct (write_seq dst off [0xff]) as [d1 o1].
    cbn [fst snd length] in *. subst o1. unfold writeU64BN.
    destruct (_write64BN_window h d1 num (off + 1) false ltac:(lia)
                ltac:(change (2 ^ 64) with 18446744073709551616; lia))
      as (Hr & Ht2 & Hd2 & Hl2 & Hw).
    cbv zeta in *.
    set (d2 := snd (fst (_write64BN h d1 num (off + 1) false))) in *.
    destruct (take_pred_eq d2 d1 off Ht2) as [_ Hlk].
    split; [rewrite Hr; f_equal; lia|].
    assert (Htag2 : d2 !! off = Some (to_u8 0xff)) by congruence.
    unfold readVarintBN.
    rewrite nat_ltb_true by lia.
    rewrite (buf_at_lookup _ _ _ Htag2). cbn [assert bind].
    change (u8 (to_u8 255) =? 255) with true. cbn [assert bind].
    rewrite nat_leb_true by lia. cbn [bind].
    unfold readU64BN. rewrite Hw.
    rewrite Z.mod_small by (change (2 ^ 64) with 18446744073709551616; lia).
    rewrite bitLength_gt32 by lia.
    destruct (Z.ltb_spec 0xffffffff (bn_value h num)); [|lia]. reflexivity.
Qed.

(** X17.  Varint-A round trip through the big-integer path.  For a big
    integer in [0, 2^64-1] and a buffer with room for [sizeVarintBN] bytes
    from [off], [writeVarintBN] returns [off + sizeVarintBN] and
    [readVarintBN] at [off] then returns the pair of that size and the
    value. *)
Theorem writeVarintBN_roundtrip (h : list Z) (dst : list byte) (num off : nat) :
  0 <= bn_value h num <= 2 ^ 64 - 1 ->
  (off + sizeVarintBN h num <= length dst)%nat ->
  fst (fst (writeVarintBN h dst num off)) = Ok (off + sizeVarintBN h num)%nat
  /\ readVarintBN (snd (fst (writeVarintBN h dst num off))) off
     = Ok (mkVarint (sizeVarintBN h num) (bn_value h num)).
Proof. exact (writeVarintBN_decodes h dst num off). Qed.

Lemma writeVarintBN_roundtrip_witness :
  readVarintBN (snd (fst (writeVarintBN [2 ^ 64 - 1] (replicate 10 x00) 0 1))) 1
  = Ok (mkVarint 9 (2 ^ 64 - 1)).
Proof.
  exact (proj2 (writeVarintBN_roundtrip [2 ^ 64 - 1] (replicate 10 x00) 0 1
                  ltac:(vm_compute; split; discriminate)
                  ltac:(vm_compute; lia))).
Defined.

(** X18.  A pair [readVarintBN] returns was decoded from inside the
    buffer, in its minimal form: the bytes consumed end inside the buffer,
    [skipVarint] answers the same size, the value lies in [0, 2^64-1], and
    [sizeVarintBN] of a big integer holding the value is that size. *)
Theorem readVarintBN_sound (data : list byte) (off : nat) (v : Varint) :
  readVarintBN data off = Ok v ->
  (off + size v <= length data)%nat
  /\ skipVarint data off = Ok (size v)
  /\ 0 <= value v <= 2 ^ 64 - 1
  /\ forall (h : list Z) (num : nat),
      bn_value h num = value v -> sizeVarintBN h num = size v.
Proof.
  intros Hv.
  destruct (Nat.le_gt_cases (length data) off) as [Hout|Hin].
  { destruct (readers_past_end data off Hout) as (_ & E & _). congruence. }
  destruct (lookup_lt_is_Some_2 data off Hin) as [tag Htag].
  unfold readVarintBN, skipVarint in *.
  rewrite nat_ltb_true in * by exact Hin.
  rewrite (buf_at_lookup _ _ _ Htag) in *. cbn [assert bind] in *.
  change (2 ^ 64) with 18446744073709551616.
  destruct (Z.eqb_spec (u8 tag) 0xff) as [Ht|Ht].
  - destruct (Nat.leb_spec (off + 9) (length data)) as [Hfit|Hshort];
      cbn [assert bind] in Hv; [|discriminate].
    pose proof (le_value_range (take 8 (drop (off + 1) data))) as R.
    assert (256 ^ Z.of_nat (length (take 8 (drop (off + 1) data))) <= 256 ^ 8)
      by (apply Z.pow_le_mono_r; [lia|rewrite length_take; lia]).
    change (256 ^ 8) with 18446744073709551616 in *.
    unfold readU64BN in Hv. rewrite bitLength_gt32 in Hv by lia.
    destruct (Z.ltb_spec 0xffffffff (le_value (take 8 (drop (off + 1) data))));
      cbn [assert bind] in Hv; [|discriminate].
    injection Hv as <-. cbn [size value].
    repeat split; try lia.
    intros h num Hn. unfold sizeVarintBN, bn_bitLength.
    rewrite Hn, bitLength_gt32 by lia.
    destruct (Z.ltb_spec 0xffffffff (le_value (take 8 (drop (off + 1) data))));
      [reflexivity|lia].
  - destruct (readVarint data off) as [w| | |] eqn:Ew; try discriminate.
    cbn [bind] in Hv. injection Hv as <-.
    destruct (readVarint_inv data off w Ew) as (tag' & Htag' & Hfit & Hsk & Hcase).
    assert (tag' = tag) by congruence. subst tag'.
    destruct (readVarint_facts data off w Ew) as (Hmin & _ & _ & Hr & _).
    change (2 ^ 53) with 9007199254740992 in Hr.
    cbn [size value].
    unfold skipVarint in Hsk. rewrite nat_ltb_true in Hsk by exact Hin.
    rewrite (buf_at_lookup _ _ _ Htag) in Hsk. cbn [assert bind] in Hsk.
    destruct (Z.eqb_spec (u8 tag) 0xff); [contradiction|].
    repeat split; try assumption; try lia.
    intros h num Hn. unfold sizeVarintBN, bn_bitLength, bn_toNumber.
    rewrite Hn, bitLength_gt32 by lia.
    pose proof (u8_range tag) as Rt.
    destruct Hcase as [[_ ->]|[(_ & -> & Hc)|[(_ & -> & Hc)|(Hc & _)]]];
      cbn [size value] in *; try contradiction;
      match goal with |- context [?a <? ?b] =>
        destruct (Z.ltb_spec a b) end; try lia; symmetry; exact Hmin.
Qed.

Lemma readVarintBN_sound_witness :
  skipVarint [xff; x00; x00; x00; x00; x00; x00; x00; x80] 0 = Ok 9%nat.
Proof.
  exact (proj1 (proj2 (readVarintBN_sound
                  [xff; x00; x00; x00; x00; x00; x00; x00; x80] 0
                  (mkVarint 9 (2 ^ 63)) eq_refl))).
Defined.

(** ** Big integers: what the codec leaves untouched *)

Lemma writeVarintBN_heap (h : list Z) (dst : list byte) (num off : nat) (r : nat) :
  (r < length h)%nat ->
  bn_value (snd (writeVarintBN h dst num off)) r = bn_value h r.
Proof.
  intros Hr. unfold writeVarintBN.
  destruct (32 <? bn_bitLength h num).
  - destruct (write_seq dst off [0xff]) as [d1 o1].
    apply _write64BN_frame. exact Hr.
  - destruct (writeVarint dst (bn_toNumber h num) off). reflexivity.
Qed.

(** X19.  The big-integer writers of the fixed-width and Varint-A
    families and [sizeVarint2BN] leave every big-integer object of the
    caller with the value it had: they only read their argument, or work
    on objects they created. *)
Theorem BN_arguments_preserved (h : list Z) (dst : list byte) (num off : nat)
  (be : bool) (r : nat) :
  (r < length h)%nat ->
  bn_value (snd (_write64BN h dst num off be)) r = bn_value h r
  /\ bn_value (snd (writeVarintBN h dst num off)) r = bn_value h r
  /\ bn_value (snd (sizeVarint2BN h num)) r = bn_value h r.
Proof.
  intros Hr. repeat split.
  - apply _write64BN_frame. exact Hr.
  - apply writeVarintBN_heap. exact Hr.
  - apply sizeVarint2BN_frame. exact Hr.
Qed.

Lemma BN_arguments_preserved_witness :
  bn_value (snd (_write64BN [- 2 ^ 60] (replicate 8 x00) 0 0 true)) 0 = - 2 ^ 60
  /\ bn_value (snd (sizeVarint2BN [2 ^ 60] 0)) 0 = 2 ^ 60.
Proof.
  split.
  - exact (proj1 (BN_arguments_preserved [- 2 ^ 60] (replicate 8 x00) 0 0 true 0
                    ltac:(vm_compute; lia))).
  - exact (proj2 (proj2 (BN_arguments_preserved [2 ^ 60] [] 0 0 true 0
                    ltac:(vm_compute; lia)))).
Defined.

(** ** Varint-B above 53 bits: the big-integer encoder and decoder *)

Section DigitsDecode.

(** A decoding loop that, below [bound], takes the accumulation step with
    no fault. *)
Variable loop : list byte -> Z -> nat -> result Varint.
Variable bound : Z.
Hypothesis bound_pos : 0 < bound.
Hypothesis loop_step :
  forall (b : byte) (rest : list byte) (A : Z) (sz : nat),
    0 <= A < bound ->
    loop (b :: rest) A sz
    = if u8 b <? 128 then Ok (mkVarint (S sz) (A * 128 + u8 b))
      else loop rest (A * 128 + (u8 b - 128) + 1) (S sz).

Lemma digits_decode_upper (fuel : nat) (tmp : list Z) (len : nat) (num : Z)
  (tmp' : list Z) (len' : nat) :
  len = length tmp -> len <> 0%nat ->
  0 <= num < 128 * bound ->
  writeVarint2_digits fuel tmp len num = Some (tmp', len') ->
  exists ds,
    tmp' = tmp ++ ds /\ S len' = length tmp'
    /\ forall rest sz,
        loop (map to_u8 (rev ds) ++ rest) 0 sz
        = loop rest (num + 1) (sz + length ds)%nat.
Proof.
  revert tmp len num.
  induction fuel as [|fuel IH]; intros tmp len num Hlen Hnz Hnum;
    cbn [writeVarint2_digits]; [discriminate|].
  subst len. rewrite arr_set_push.
  destruct (length tmp) as [|k] eqn:Ek; [congruence|]. rewrite <- Ek.
  rewrite digit_value by auto.
  pose proof (Z.mod_pos_bound num 128 ltac:(lia)) as Hm.
  destruct (Z.leb_spec num 0x7f) as [Hle|Hgt].
  - intros [= <- <-]. exists [num mod 128 + 128].
    split; [reflexivity|]. split; [rewrite length_app; cbn [length]; lia|].
    intros rest sz. cbn [rev app map length].
    rewrite loop_step, u8_digit by lia.
    destruct (Z.ltb_spec (num mod 128 + 128) 128); [lia|].
    rewrite Z.mod_small by lia. f_equal; lia.
  - intros Hrec.
    destruct (writeVarint2_next num Hgt) as [Hnext Hnn]. rewrite Hnext in Hrec.
    apply IH in Hrec.
    2:{ rewrite length_app. cbn [length]. lia. }
    2:{ lia. }
    2:{ Z.div_mod_to_equations. lia. }
    destruct Hrec as (ds & -> & Hl & Hdec).
    exists ((num mod 128 + 128) :: ds).
    split; [rewrite <- app_assoc; reflexivity|]. split; [exact Hl|].
    intros rest sz. cbn [rev length]. rewrite map_app, <- app_assoc.
    cbn [map app]. rewrite Hdec.
    rewrite loop_step, u8_digit by (try lia; Z.div_mod_to_equations; lia).
    destruct (Z.ltb_spec (num mod 128 + 128) 128); [lia|].
    f_equal; [Z.div_mod_to_equations; lia | lia].
Qed.

Lemma digits_decode_all (fuel : nat) (n : Z) (tmp' : list Z) (len' : nat) :
  0 <= n < 128 * bound ->
  writeVarint2_digits fuel [] 0%nat n = Some (tmp', len') ->
  S len' = length tmp'
  /\ forall rest,
      loop (map to_u8 (rev tmp') ++ rest) 0 0%nat
      = Ok (mkVarint (length tmp') n).
Proof.
  intros Hn. destruct fuel as [|fuel]; cbn [writeVarint2_digits]; [discriminate|].
  rewrite (arr_set_push []).
  rewrite digit_value by auto. rewrite Z.add_0_r.
  pose proof (Z.mod_pos_bound n 128 ltac:(lia)) as Hm.
  destruct (Z.leb_spec n 0x7f) as [Hle|Hgt].
  - intros [= <- <-]. split; [reflexivity|]. intros rest.
    cbn [rev app map length].
    rewrite loop_step, u8_digit by lia.
    destruct (Z.ltb_spec (n mod 128) 128); [|lia].
    rewrite Z.mod_small by lia. reflexivity.
  - intros Hrec.
    destruct (writeVarint2_next n Hgt) as [Hnext Hnn]. rewrite Hnext in Hrec.
    apply digits_decode_upper in Hrec; [|reflexivity|discriminate|].
    2:{ Z.div_mod_to_equations. lia. }
    destruct Hrec as (ds & -> & Hl & Hdec).
    split; [exact Hl|]. intros rest.
    cbn [app rev length]. rewrite map_app, <- app_assoc. cbn [map app].
    rewrite Hdec.
    rewrite loop_step, u8_digit by (try lia; Z.div_mod_to_equations; lia).
    destruct (Z.ltb_spec (n mod 128) 128); [|lia].
    f_equal. f_equal. Z.div_mod_to_equations. lia.
Qed.

End DigitsDecode.

(** On a positive value the big-integer digit loop extracts the digits of
    the native one. *)
Lemma writeVarint2BN_digits_value (fuel : nat) (h : list Z) (tmp : list Z)
  (len : nat) (num : nat) :
  0 <= bn_value h num ->
  match writeVarint2_digits fuel tmp len (bn_value h num) with
  | Some (tmp', len') =>
      exists h', writeVarint2BN_digits fuel h tmp len num = Some (tmp', len', h')
  | None => writeVarint2BN_digits fuel h tmp len num = None
  end.
Proof.
  revert h tmp len.
  induction fuel as [|fuel IH]; intros h tmp len Hv;
    cbn [writeVarint2_digits writeVarint2BN_digits]; [reflexivity|].
  rewrite bn_cmpn_le.
  assert (Hd : js_and (bn_word0 h num) 0x7f = js_and (bn_value h num) 0x7f).
  { rewrite !js_and_0x7f. unfold bn_word0. rewrite Z.abs_eq by lia.
    change (2 ^ 26) with 67108864. Z.div_mod_to_equations. lia. }
  rewrite Hd.
  destruct (Z.leb_spec (bn_value h num) 0x7f) as [Hle|Hgt]; [eauto|].
  destruct (writeVarint2_next _ Hgt) as [Hnext Hnn].
  specialize (IH (bn_isubn (bn_iushrn h num 7) num 1)
                (arr_set tmp len
                   (js_or (js_and (bn_value h num) 0x7f)
                      (match len with O => 0x00 | S _ => 0x80 end)))
                (S len)).
  rewrite bn_shift_dec in IH by exact Hgt.
  rewrite Hnext. apply IH. exact Hnn.
Qed.

Lemma sizeVarint2BN_loop_value (fuel : nat) (h : list Z) (sz : nat) (num : nat) :
  0 <= bn_value h num ->
  fst (sizeVarint2BN_loop fuel h sz num)
  = sizeVarint2_loop fuel sz (bn_value h num).
Proof.
  revert h sz.
  induction fuel as [|fuel IH]; intros h sz Hv;
    cbn [sizeVarint2_loop sizeVarint2BN_loop fst]; [reflexivity|].
  rewrite bn_cmpn_le.
  destruct (Z.leb_spec (bn_value h num) 0x7f) as [Hle|Hgt]; [reflexivity|].
  destruct (writeVarint2_next _ Hgt) as [Hnext Hnn].
  rewrite IH by (rewrite bn_shift_dec by exact Hgt; exact Hnn).
  rewrite bn_shift_dec by exact Hgt. rewrite Hnext. reflexivity.
Qed.

Lemma varint2BN_big_decodes (h : list Z) (dst : list byte) (num off : nat) :
  2 ^ 53 <= bn_value h num <= 2 ^ 64 - 1 ->
  exists sz,
    fst (sizeVarint2BN h num) = Ok sz
    /\ ((off + sz <= length dst)%nat ->
        fst (fst (writeVarint2BN h dst num off)) = Ok (off + sz)%nat
        /\ readVarint2BN (snd (fst (writeVarint2BN h dst num off))) off
           = Ok (mkVarint sz (bn_value h num))).
Proof.
  intros Hv.
  change (2 ^ 53) with 9007199254740992 in Hv.
  change (2 ^ 64) with 18446744073709551616 in Hv.
  set (v := bn_value h num) in *.
  assert (Hbl : 53 < bn_bitLength h num).
  { unfold bn_bitLength, bitLength. fold v.
    destruct (Z.eqb_spec v 0); [lia|]. rewrite Z.abs_eq by lia.
    assert (53 <= Z.log2 v)
      by (apply Z.log2_le_pow2; change (2 ^ 53) with 9007199254740992; lia).
    lia. }
  destruct (writeVarint2_digits_total [] 0 v) as [[tmp' len'] E].
  pose proof (sizeVarint2_loop_digits (loop_fuel v) [] 0 v 0) as Hsz.
  rewrite E in Hsz. destruct Hsz as [_ Hsz].
  destruct (digits_decode_all readVarint2BN_loop (2 ^ 64) ltac:(lia)
              readVarint2BN_loop_step _ v tmp' len'
              ltac:(change (2 ^ 64) with 18446744073709551616; lia) E)
    as [Hl Hdec].
  exists (length tmp'). split.
  - unfold sizeVarint2BN.
    destruct (Z.leb_spec (bn_bitLength h num) 53); [lia|].
    cbn [bn_clone bn_new].
    rewrite sizeVarint2BN_loop_value; rewrite bn_value_fresh; fold v; [|lia].
    rewrite Hsz. f_equal. lia.
  - intros Hlen. unfold writeVarint2BN.
    destruct (Z.leb_spec (bn_bitLength h num) 53); [lia|].
    pose proof (writeVarint2BN_digits_value (loop_fuel v) h [] 0 num
                  ltac:(fold v; lia)) as Hd.
    fold v in Hd. rewrite E in Hd. destruct Hd as [h' Hd].
    fold v. rewrite Hd.
    rewrite nat_leb_true by lia. cbn [negb].
    rewrite emit_digits_write_seq by lia.
    rewrite Hl, take_ge by lia.
    pose proof (write_seq_snd (rev tmp') dst off) as Hs.
    pose proof (write_seq_drop (rev tmp') dst off) as Hdr.
    rewrite length_rev in Hs, Hdr. specialize (Hdr Hlen).
    destruct (write_seq dst off (rev tmp')) as [dst' off'].
    cbn [fst snd] in *. subst off'. split; [reflexivity|].
    unfold readVarint2BN. rewrite Hdr. apply Hdec.
Qed.

(** X20.  Varint-B round trip above 53 bits.  For a big integer in
    [2^53, 2^64-1], [sizeVarint2BN] returns a size and, on a buffer with
    room for that many bytes from [off], [writeVarint2BN] returns the
    offset after them and [readVarint2BN] at [off] then returns the pair
    of that size and the value. *)
Theorem varint2BN_roundtrip (h : list Z) (dst : list byte) (num off : nat) :
  2 ^ 53 <= bn_value h num <= 2 ^ 64 - 1 ->
  exists sz,
    fst (sizeVarint2BN h num) = Ok sz
    /\ ((off + sz <= length dst)%nat ->
        fst (fst (writeVarint2BN h dst num off)) = Ok (off + sz)%nat
        /\ readVarint2BN (snd (fst (writeVarint2BN h dst num off))) off
           = Ok (mkVarint sz (bn_value h num))).
Proof. exact (varint2BN_big_decodes h dst num off). Qed.

Lemma varint2BN_roundtrip_witness :
  readVarint2BN (snd (fst (writeVarint2BN [2 ^ 64 - 1] (replicate 10 x00) 0 0))) 0
  = Ok (mkVarint 10 (2 ^ 64 - 1)).
Proof.
  destruct (varint2BN_roundtrip [2 ^ 64 - 1] (replicate 10 x00) 0 0
              ltac:(vm_compute; split; discriminate)) as (sz & Hsz & H).
  assert (Esz : sz = 10%nat) by (vm_compute in Hsz; congruence).
  subst sz.
  exact (proj2 (H ltac:(vm_compute; lia))).
Defined.

Lemma readVarint2BN_big_skip (rest : list byte) (A : Z) (sz : nat) (v : Varint) :
  readVarint2BN_big rest A sz = Ok v ->
  skipVarint2_loop rest sz = Ok (size v)
  /\ (sz < size v <= sz + length rest)%nat.
Proof.
  revert A sz. induction rest as [|b rest IH]; intros A sz; [discriminate|].
  cbn [readVarint2BN_big skipVarint2_loop length]. rewrite cont_bit.
  destruct (bitLength A <=? 64); [|discriminate]. cbn [assert bind].
  destruct (u8 b <? 128).
  - intros [= <-]. cbn [size]. split; [reflexivity | lia].
  - intros Hrec. apply IH in Hrec. destruct Hrec as [Hs Hb].
    split; [exact Hs | lia].
Qed.

Lemma readVarint2BN_loop_skip (rest : list byte) (A : Z) (sz : nat) (v : Varint) :
  readVarint2BN_loop rest A sz = Ok v ->
  skipVarint2_loop rest sz = Ok (size v)
  /\ (sz < size v <= sz + length rest)%nat.
Proof.
  revert A sz. induction rest as [|b rest IH]; intros A sz.
  - cbn [readVarint2BN_loop readVarint2BN_big].
    destruct (A <? 0x3fffffffffff); discriminate.
  - cbn [readVarint2BN_loop].
    destruct (A <? 0x3fffffffffff);
      [|apply (readVarint2BN_big_skip (b :: rest))].
    cbn [skipVarint2_loop length]. rewrite cont_bit.
    destruct (u8 b <? 128).
    + intros [= <-]. cbn [size]. split; [reflexivity | lia].
    + intros Hrec. apply IH in Hrec. destruct Hrec as [Hs Hb].
      split; [exact Hs | lia].
Qed.

Lemma readVarint2BN_facts (data : list byte) (off : nat) (v : Varint) :
  readVarint2BN data off = Ok v ->
  0 <= value v < 2 ^ 71
  /\ (1 <= size v)%nat /\ (off + size v <= length data)%nat
  /\ skipVarint2 data off = Ok (size v).
Proof.
  intros H. split; [exact (readVarint2BN_loop_value _ 0 0 v ltac:(lia) H)|].
  unfold readVarint2BN in H. apply readVarint2BN_loop_skip in H.
  destruct H as [Hs Hb]. rewrite length_drop in Hb.
  repeat split; [lia | lia | exact Hs].
Qed.

(** X21.  Whatever the input, when [readVarint2BN] returns a pair its
    value lies in [0, 2^71-1], its size is at least 1 and stays inside the
    buffer, and [skipVarint2] at the same offset returns that size. *)
Theorem readVarint2BN_sound (data : list byte) (off : nat) (v : Varint) :
  readVarint2BN data off = Ok v ->
  0 <= value v < 2 ^ 71
  /\ (1 <= size v)%nat /\ (off + size v <= length data)%nat
  /\ skipVarint2 data off = Ok (size v).
Proof. exact (readVarint2BN_facts data off v). Qed.

Lemma readVarint2BN_sound_witness :
  0 <= 2 ^ 53 < 2 ^ 71
  /\ skipVarint2 [x8e; xfe; xfe; xfe; xfe; xfe; xff; x00] 0 = Ok 8%nat.
Proof.
  pose proof (readVarint2BN_sound [x8e; xfe; xfe; xfe; xfe; xfe; xff; x00] 0
                (mkVarint 8 (2 ^ 53)) ltac:(reflexivity)) as H.
  cbn [value size] in H. exact (conj (proj1 H) (proj2 (proj2 (proj2 H)))).
Defined.
